(** * monobit: font codec layer

    A shallow embedding of the parts of the monobit bitmap-font converter
    that the specification's properties talk about, with the properties
    stated and settled against the embedded code:

    - [LX]      the EXEPACK1 page unpacker of the OS/2 LX reader
                (monobit/formats/os2/lx.py);
    - [WinFnt]  the Windows FNT character-table reader and the choice of the
                character range in the writer (monobit/codecs/winfnt.py);
    - [BMFont]  glyph extraction from sprite sheets, the sheet writer and its
                binary-tree packer (monobit/bmfont.py);
    - [NFNT]    the metric normalisation of the Mac NFNT writer
                (monobit/formats/mac/nfnt.py);
    - [FontProps] the derived font metrics (monobit/font.py).

    The definitions come first, a module per source file; the properties
    follow, in the modules [LXTheory], [FontTheory], [NFNTTheory],
    [WinFntTheory] and [BMFontTheory].

    Further parts of the same files are embedded after these, with their
    properties at the end:

    - [NFNTRead]    the conversion of the Mac metrics by the NFNT reader and
                    the place of the width/offset table ([NFNTReadTheory],
                    [NFNTRoundTrip]);
    - [WinFntWrite] the strings, weight, style and bitmaps of the Windows
                    FNT header and writer ([WinFntWriteTheory]);
    - [FontRaster], [FontTable] the raster, the ink bounds, the spacing and
                    the table of codepoints of a font ([FontRasterTheory],
                    [CodepointTable]);
    - [LX2]         the EXEPACK2 unpacker of the OS/2 LX reader
                    ([LX2Theory]);
    - [IIgs]        the headers of an Apple IIgs font file
                    (monobit/formats/mac/iigs.py, [IIgsTheory]);
    - [BMFontMore]  further properties of the packer, the sheet writer
                    and the glyph extraction of BMFont.

    Python integers are unbounded, so they are [Z]; byte strings are lists
    of [Z] in the range 0..255; exceptions are values of [exn] carried by
    the [result] monad. *)

From Stdlib Require Import String.
From Stdlib Require Import ZArith List Bool Lia Arith Sorted.
Import ListNotations.

Local Open Scope Z_scope.

(** ** Python exceptions and the result monad *)

Module Py.

Inductive exn : Type :=
| NameError (name : string)
| IndexError
| ValueError (msg : string)
| KeyError
| AttributeError
| TypeError
| FileFormatError (msg : string).

(** The outcome of running a piece of Python code: a value, a raised
    exception, or (for loops run on fuel) no outcome within the fuel. *)
Inductive result (A : Type) : Type :=
| Ok (a : A)
| Raise (e : exn)
| OutOfFuel.

Arguments Ok {A} a.
Arguments Raise {A} e.
Arguments OutOfFuel {A}.

Definition bind {A B} (m : result A) (k : A -> result B) : result B :=
  match m with
  | Ok a => k a
  | Raise e => Raise e
  | OutOfFuel => OutOfFuel
  end.

(** Reading a local or global name: a name that was never bound raises
    [NameError] at the moment it is evaluated. *)
Definition read_name {A} (name : string) (binding : option A) : result A :=
  match binding with
  | Some v => Ok v
  | None => Raise (NameError name)
  end.

(** [seq[i]]: negative indices count from the end, anything outside the
    sequence raises [IndexError]. *)
Definition index {A} (l : list A) (i : Z) : result A :=
  let n := Z.of_nat (length l) in
  let j := if i <? 0 then i + n else i in
  if (j <? 0) || (n <=? j) then Raise IndexError
  else match nth_error l (Z.to_nat j) with
       | Some x => Ok x
       | None => Raise IndexError
       end.

(** Slice bounds are clamped to the sequence, never an error. *)
Definition clamp (n i : Z) : Z :=
  if i <? 0 then Z.max 0 (i + n) else Z.min i n.

(** [seq[a:b]] *)
Definition slice {A} (l : list A) (a b : Z) : list A :=
  let n := Z.of_nat (length l) in
  let a' := clamp n a in
  let b' := clamp n b in
  firstn (Z.to_nat (b' - a')) (skipn (Z.to_nat a') l).

(** [range(a, b)] *)
Definition range (a b : Z) : list Z :=
  map (fun k => a + Z.of_nat k) (seq 0 (Z.to_nat (b - a))).

(** [sum(...)] over integers *)
Definition sum (l : list Z) : Z := fold_left Z.add l 0.

(** [min(...)] and [max(...)] raise [ValueError] on an empty sequence. *)
Definition min_of (l : list Z) : result Z :=
  match l with
  | [] => Raise (ValueError "min() arg is an empty sequence")
  | x :: r => Ok (fold_left Z.min r x)
  end.

Definition max_of (l : list Z) : result Z :=
  match l with
  | [] => Raise (ValueError "max() arg is an empty sequence")
  | x :: r => Ok (fold_left Z.max r x)
  end.

End Py.

Import Py.

Declare Scope py_scope.
Delimit Scope py_scope with py.
Notation "x <- m ;; k" := (Py.bind m (fun x => k))
  (at level 61, m at next level, right associativity) : py_scope.
Local Open Scope py_scope.

(** ** OS/2 LX: the EXEPACK1 unpacker *)

Module LX.

(** [_lx_unpack1] reads the name [ofOut] on line 264, but no statement of
    the function assigns it and the module has no global of that name
    (the other occurrences are in comments).  Its binding is therefore
    absent in every state of the loop. *)
Definition ofOut : option Z := None.

(** The inner [while usReps: abOut.extend(...); usReps -= 1] loop: the same
    slice is appended [usReps] times. *)
Fixpoint extend_reps (abOut chunk : list Z) (usReps : nat) : list Z :=
  match usReps with
  | O => abOut
  | S r => extend_reps (abOut ++ chunk) chunk r
  end.

(** The body of [while True:], one iteration per unit of fuel. *)
Fixpoint unpack1_loop (fuel : nat) (pBuf : list Z) (cbPage ofIn : Z)
    (abOut : list Z) : result (list Z) :=
  match fuel with
  | O => OutOfFuel
  | S fuel' =>
    lo <- index pBuf ofIn ;;
    hi <- index pBuf (ofIn + 1) ;;
    let usReps := Z.lor lo (Z.shiftl hi 8) in
    if usReps =? 0 then Ok abOut
    else
      let ofIn := ofIn + 2 in
      lo <- index pBuf ofIn ;;
      hi <- index pBuf (ofIn + 1) ;;
      let usLen := Z.lor lo (Z.shiftl hi 8) in
      let ofIn := ofIn + 2 in
      cur <- read_name "ofOut" ofOut ;;
      if cur + usReps * usLen >? 4096 then Ok abOut
      else
        let abOut :=
          extend_reps abOut (slice pBuf ofIn (ofIn + usLen)) (Z.to_nat usReps) in
        let ofIn := ofIn + usLen in
        if ofIn >? cbPage then Ok abOut
        else unpack1_loop fuel' pBuf cbPage ofIn abOut
  end.

(** Every iteration that continues consumes at least four input bytes, so
    the page length bounds the number of iterations. *)
Definition _lx_unpack1 (pBuf : list Z) : result (list Z) :=
  let cbPage := Z.of_nat (length pBuf) in
  if cbPage >? 4096 then Ok pBuf
  else unpack1_loop (S (length pBuf)) pBuf cbPage 0 [].

(** The expansion the page format prescribes: records
    [(reps:u16, len:u16, bytes[len])] in sequence, the payload emitted
    [reps] times, stopping at a record with [reps = 0].  [None] when the
    page ends inside a record. *)
Fixpoint spec_exepack1 (fuel : nat) (page : list Z) : option (list Z) :=
  match fuel with
  | O => None
  | S fuel' =>
    match page with
    | rlo :: rhi :: rest =>
      let reps := rlo + 256 * rhi in
      if reps =? 0 then Some []
      else match rest with
           | llo :: lhi :: body =>
             let len := Z.to_nat (llo + 256 * lhi) in
             if (length body <? len)%nat then None
             else match spec_exepack1 fuel' (skipn len body) with
                  | Some out =>
                    Some (concat (repeat (firstn len body) (Z.to_nat reps)) ++ out)
                  | None => None
                  end
           | _ => None
           end
    | _ => None
    end
  end.

(** A page with one record, (reps 2, len 3, "ABC"), and the end record. *)
Definition page_abc : list Z := [2; 0; 3; 0; 65; 66; 67; 0; 0].

End LX.

(** ** Windows FNT *)

Module WinFnt.

(** only keep empty glyphs if they are mapped to NUL or SPACE *)
Definition _KEEP_EMPTY : list Z := [0x00; 0x20].

(** [x in seq] for integers *)
Definition mem (x : Z) (l : list Z) : bool := existsb (Z.eqb x) l.

(** The header fields the character-table readers use. *)
Record win_props : Type := {
  dfVersion : Z;
  dfPixWidth : Z;
  dfPixHeight : Z;
  dfFirstChar : Z;
  dfLastChar : Z;
  dfWidthBytes : Z;
  dfBitsOffset : Z
}.

(** [_FNT_HEADER_SIZE]: {0x100: 0x75, 0x200: 0x76, 0x300: 0x94}, the sizes of
    the packed little-endian header structures. *)
Definition _FNT_HEADER_SIZE (version : Z) : Z :=
  if version =? 0x100 then 0x75
  else if version =? 0x200 then 0x76
  else 0x94.

(** A glyph as the reader builds it: the pixel rows, top row first, and the
    codepoint label. *)
Record Glyph : Type := {
  pixels : list (list bool);
  codepoint : option Z
}.

(** Modelled from the spec: [ceildiv] of monobit's binary helpers (the module
    is not among the sources), the ceiling of a quotient. *)
Definition ceildiv (num den : Z) : Z := - ((- num) / den).

(** Modelled from the spec: [bytes_to_bits] of monobit's binary helpers (not
    among the sources), the bits of a byte string packed MSB-first. *)
Definition byte_bits (b : Z) : list bool :=
  map (fun k => Z.testbit b (7 - Z.of_nat k)) (seq 0 8).

Definition bytes_to_bits (bs : list Z) : list bool :=
  flat_map byte_bits bs.

(** Modelled from the spec: [Glyph.from_bytes(data, width)] of monobit's
    glyph class (not among the sources): rows of [ceildiv(width, 8)] bytes,
    bits MSB-first, each row cropped to [width] pixels. *)
Fixpoint rows_of (fuel : nat) (stride : nat) (data : list Z) : list (list Z) :=
  match fuel with
  | O => []
  | S fuel' =>
    match data with
    | [] => []
    | _ => firstn stride data :: rows_of fuel' stride (skipn stride data)
    end
  end.

Definition from_bytes (data : list Z) (width : Z) : Glyph :=
  let stride := Z.to_nat (ceildiv width 8) in
  {| pixels := map (fun row => firstn (Z.to_nat width) (bytes_to_bits row))
                   (rows_of (List.length data) stride data);
     codepoint := None |}.

Definition set_codepoint (g : Glyph) (cp : Z) : Glyph :=
  {| pixels := pixels g; codepoint := Some cp |}.

(** A little-endian unsigned integer of [n] bytes at [pos]. *)
Fixpoint le_uint (n : nat) (fnt : list Z) (pos : Z) : result Z :=
  match n with
  | O => Ok 0
  | S n' =>
    b <- index fnt pos ;;
    r <- le_uint n' fnt (pos + 1) ;;
    Ok (b + 256 * r)
  end.

(** [array_type.from_buffer_copy(fnt, start)] for an array of [count]
    records of [size] bytes: ctypes refuses a negative length and a buffer
    that is too small. *)
Definition from_buffer_copy {A} (fnt : list Z) (start size count : Z)
    (read : Z -> result A) : result (list A) :=
  if count <? 0 then Raise (ValueError "Array length must be >= 0")
  else if Z.of_nat (List.length fnt) <? start + size * count
  then Raise (ValueError "Buffer size too small")
  else
    fold_right (fun k acc => x <- read (start + size * k) ;;
                             r <- acc ;; Ok (x :: r))
               (Ok []) (range 0 count).

(** Running the body of a [for] loop that may append one glyph per turn. *)
Fixpoint collect {A B} (body : A -> result (option B)) (l : list A)
    : result (list B) :=
  match l with
  | [] => Ok []
  | x :: r =>
    o <- body x ;;
    rest <- collect body r ;;
    Ok (match o with Some g => g :: rest | None => rest end)
  end.

(** *** [_parse_chartable_v1] *)

Definition v1_offsets (fnt : list Z) (p : win_props) (n_chars : Z)
    : result (list Z) :=
  if dfPixWidth p =? 0 then
    (* proportional font *)
    let ct_start := _FNT_HEADER_SIZE (dfVersion p) in
    from_buffer_copy fnt ct_start 2 (n_chars + 1) (le_uint 2 fnt)
  else
    Ok (map (fun _ord => dfPixWidth p * _ord) (range 0 (n_chars + 1))).

Definition v1_strikerows (fnt : list Z) (p : win_props) : list (list bool) :=
  let bytewidth := dfWidthBytes p in
  let offset := dfBitsOffset p in
  map (fun _row =>
         bytes_to_bits
           (slice fnt (offset + _row * bytewidth) (offset + (_row + 1) * bytewidth)))
      (range 0 (dfPixHeight p)).

(** The body of [for ord in range(n_chars)].  A tuple is true when it is
    not empty, so [rows] is true as soon as the font has a row. *)
Definition v1_body (p : win_props) (offsets : list Z)
    (strikerows : list (list bool)) (ord : Z) : result (option Glyph) :=
  offset <- index offsets ord ;;
  next <- index offsets (ord + 1) ;;
  let width := next - offset in
  if width =? 0 then Ok None
  else
    let rows := map (fun _srow => slice _srow offset (offset + width)) strikerows in
    if negb (Nat.eqb (List.length rows) 0) || mem ord _KEEP_EMPTY
    then Ok (Some {| pixels := rows; codepoint := Some (dfFirstChar p + ord) |})
    else Ok None.

Definition _parse_chartable_v1 (fnt : list Z) (p : win_props)
    : result (list Glyph) :=
  let n_chars := dfLastChar p - dfFirstChar p + 1 in
  offsets <- v1_offsets fnt p n_chars ;;
  collect (v1_body p offsets (v1_strikerows fnt p)) (range 0 n_chars).

(** *** [_parse_chartable_v2] *)

(** [_GLYPH_ENTRY_2] is (geWidth: word, geOffset: word), [_GLYPH_ENTRY_3] is
    (geWidth: word, geOffset: dword). *)
Record glyph_entry : Type := { geWidth : Z; geOffset : Z }.

Definition glyph_entry_size (version : Z) : Z :=
  if version =? 0x300 then 6 else 4.

Definition read_glyph_entry (version : Z) (fnt : list Z) (pos : Z)
    : result glyph_entry :=
  w <- le_uint 2 fnt pos ;;
  o <- le_uint (if version =? 0x300 then 4 else 2) fnt (pos + 2) ;;
  Ok {| geWidth := w; geOffset := o |}.

(** [enumerate(entries, start)] *)
Fixpoint enumerate {A} (l : list A) (start : Z) : list (Z * A) :=
  match l with
  | [] => []
  | x :: r => (start, x) :: enumerate r (start + 1)
  end.

(** transpose byte-columns to contiguous rows:
    [fnt[geOffset + col*height + row] for row in range(height)
                                      for col in range(bytewidth)] *)
Fixpoint read_all (fnt : list Z) (positions : list Z) : result (list Z) :=
  match positions with
  | [] => Ok []
  | i :: r => b <- index fnt i ;; bs <- read_all fnt r ;; Ok (b :: bs)
  end.

Definition v2_glyph_data (fnt : list Z) (height : Z) (entry : glyph_entry)
    : result (list Z) :=
  let bytewidth := ceildiv (geWidth entry) 8 in
  read_all fnt
    (flat_map (fun _row =>
                 map (fun _col => geOffset entry + _col * height + _row)
                     (range 0 bytewidth))
              (range 0 height)).

(** What the loop keeps of a character: its ordinal, its width and the
    bytes handed to [Glyph.from_bytes]. *)
Record kept_char : Type := { k_ord : Z; k_width : Z; k_data : list Z }.

(** The body of [for ord, entry in enumerate(entries, dfFirstChar)]. *)
Definition v2_body (fnt : list Z) (height : Z) (oe : Z * glyph_entry)
    : result (option kept_char) :=
  let '(ord, entry) := oe in
  (* don't store empty glyphs but count them for ordinals *)
  if geWidth entry =? 0 then Ok None
  else
    glyph_data <- v2_glyph_data fnt height entry ;;
    (* only keep empty glyphs at NUL or SPACE *)
    if existsb (fun c => negb (c =? 0)) glyph_data || mem ord _KEEP_EMPTY
    then Ok (Some {| k_ord := ord; k_width := geWidth entry; k_data := glyph_data |})
    else Ok None.

Definition v2_kept (fnt : list Z) (p : win_props) : result (list kept_char) :=
  let n_chars := dfLastChar p - dfFirstChar p + 1 in
  let ct_start := _FNT_HEADER_SIZE (dfVersion p) in
  entries <- from_buffer_copy fnt ct_start (glyph_entry_size (dfVersion p))
               n_chars (read_glyph_entry (dfVersion p) fnt) ;;
  collect (v2_body fnt (dfPixHeight p)) (enumerate entries (dfFirstChar p)).

Definition glyph_of_kept (k : kept_char) : Glyph :=
  set_codepoint (from_bytes (k_data k) (k_width k)) (k_ord k).

Definition _parse_chartable_v2 (fnt : list Z) (p : win_props)
    : result (list Glyph) :=
  ks <- v2_kept fnt p ;; Ok (map glyph_of_kept ks).

Definition _parse_chartable (fnt : list Z) (p : win_props)
    : result (list Glyph) :=
  if dfVersion p =? 0x100 then _parse_chartable_v1 fnt p
  else _parse_chartable_v2 fnt p.

(** *** [parse_fnt]: header, properties, character table *)

(** dfFlags *)
Definition _DFF_COLORFONT : Z := Z.lor 0x20 (Z.lor 0x40 0x80).
Definition _DFF_ABC : Z := Z.lor 0x04 0x08.

(** [_parse_header]: the packed little-endian [_FNT_HEADER] of 0x75 bytes
    and the version's extension, of which the fields used below are read:
    dfVersion at 0, dfType at 66, dfPixWidth at 86, dfPixHeight at 88,
    dfFirstChar at 95, dfLastChar at 96, dfWidthBytes at 99, dfBitsOffset
    at 113, and for version 3 dfFlags at 118.  Gives the fields, dfType and
    dfFlags. *)
Definition _parse_header (fnt : list Z) : result (win_props * Z * Z) :=
  if Z.of_nat (List.length fnt) <? 0x75
  then Raise (ValueError "Buffer size too small")
  else
    version <- le_uint 2 fnt 0 ;;
    if negb ((version =? 0x100) || (version =? 0x200) || (version =? 0x300))
    then Raise (ValueError "Not a Windows .FNT resource or unsupported version")
    else if Z.of_nat (List.length fnt) <? _FNT_HEADER_SIZE version
    then Raise (ValueError "Buffer size too small")
    else
      type <- le_uint 2 fnt 66 ;;
      pixwidth <- le_uint 2 fnt 86 ;;
      pixheight <- le_uint 2 fnt 88 ;;
      first <- le_uint 1 fnt 95 ;;
      last <- le_uint 1 fnt 96 ;;
      widthbytes <- le_uint 2 fnt 99 ;;
      bitsoffset <- le_uint 4 fnt 113 ;;
      flags <- (if version =? 0x300 then le_uint 4 fnt 118 else Ok 0) ;;
      Ok ({| dfVersion := version; dfPixWidth := pixwidth;
             dfPixHeight := pixheight; dfFirstChar := first;
             dfLastChar := last; dfWidthBytes := widthbytes;
             dfBitsOffset := bitsoffset |}, type, flags).

(** The checks of [_parse_win_props] that raise. *)
Definition _parse_win_props_checks (version type flags : Z) : result unit :=
  if negb (Z.land type 1 =? 0) then Raise (ValueError "Not a bitmap font")
  else if version =? 0x300 then
    if negb (Z.land flags _DFF_COLORFONT =? 0)
    then Raise (ValueError "ColorFont not supported")
    else if negb (Z.land flags _DFF_ABC =? 0)
    then Raise (ValueError "ABC spacing properties not supported")
    else Ok tt
  else Ok tt.

(** [parse_fnt]: the glyphs of the font it returns. *)
Definition parse_fnt (fnt : list Z) : result (list Glyph) :=
  h <- _parse_header fnt ;;
  let '(win_props, type, flags) := h in
  _ <- _parse_win_props_checks (dfVersion win_props) type flags ;;
  _parse_chartable fnt win_props.

(** A glyph has no ink when all its pixels are zero. *)
Definition no_ink (g : Glyph) : bool :=
  forallb (forallb negb) (pixels g).

(** *** The writer: which characters [create_fnt] stores *)

(** [Font.__init__] builds the codepoint table
    [{glyph.codepoint: index for index, glyph in enumerate(glyphs)
      if glyph.codepoint}]: a key keeps the place of its first insertion and
    the value of its last.  A glyph that fails the condition
    [if glyph.codepoint] is one with [codepoint = None] here. *)
Fixpoint dict_set (d : list (Z * nat)) (k : Z) (v : nat) : list (Z * nat) :=
  match d with
  | [] => [(k, v)]
  | (k', v') :: r =>
    if k' =? k then (k', v) :: r else (k', v') :: dict_set r k v
  end.

Fixpoint dict_get (d : list (Z * nat)) (k : Z) : option nat :=
  match d with
  | [] => None
  | (k', v) :: r => if k' =? k then Some v else dict_get r k
  end.

Fixpoint build_codepoints (glyphs : list Glyph) (i : nat)
    (d : list (Z * nat)) : list (Z * nat) :=
  match glyphs with
  | [] => d
  | g :: r =>
    build_codepoints r (S i)
      (match codepoint g with Some cp => dict_set d cp i | None => d end)
  end.

Definition _codepoints (glyphs : list Glyph) : list (Z * nat) :=
  build_codepoints glyphs 0%nat [].

(** [Font.get_codepoints]: [list(self._codepoints.keys())] *)
Definition get_codepoints (glyphs : list Glyph) : list Z :=
  map fst (_codepoints glyphs).

(** [Glyph.empty(width, height)]: a blank raster without labels. *)
Definition empty_glyph (width height : Z) : Glyph :=
  {| pixels := repeat (repeat false (Z.to_nat width)) (Z.to_nat height);
     codepoint := None |}.







(** A font with the letter A at codepoint 65 and a glyph at codepoint 300,
    and a font with the latter glyph only. *)
Definition glyph_A : Glyph :=
  {| pixels := [[true]]; codepoint := Some 65 |}.
Definition glyph_300 : Glyph :=
  {| pixels := [[true; true]]; codepoint := Some 300 |}.

(** A header of 0x75 bytes with the given fields and zeros elsewhere. *)
Definition sample_header (version pixwidth pixheight first last widthbytes
    bitsoffset : Z) : list Z :=
  [version mod 256; version / 256] ++ repeat 0 84
  ++ [pixwidth; 0; pixheight; 0] ++ repeat 0 5
  ++ [first; last] ++ repeat 0 2
  ++ [widthbytes; 0] ++ repeat 0 12
  ++ [bitsoffset; 0; 0; 0].

(** A version 1 resource with a fixed cell of 8x2 pixels and the characters
    0x41 and 0x42; the strike of 0x42 is blank. *)
Definition v1_props : win_props :=
  {| dfVersion := 0x100; dfPixWidth := 8; dfPixHeight := 2;
     dfFirstChar := 0x41; dfLastChar := 0x42;
     dfWidthBytes := 2; dfBitsOffset := 0x75 |}.
Definition v1_fnt : list Z :=
  sample_header 0x100 8 2 0x41 0x42 2 0x75 ++ [0xff; 0; 0x81; 0].

(** A version 2 resource with the same two characters, stored as columns. *)
Definition v2_props : win_props :=
  {| dfVersion := 0x200; dfPixWidth := 8; dfPixHeight := 2;
     dfFirstChar := 0x41; dfLastChar := 0x42;
     dfWidthBytes := 2; dfBitsOffset := 0x7e |}.
Definition v2_fnt : list Z :=
  sample_header 0x200 8 2 0x41 0x42 2 0x7e ++ [0]
  ++ [8; 0; 0x7e; 0; 8; 0; 0x80; 0] ++ [0xff; 0x81; 0; 0].

(** A version 2 resource with one character of 4 by 2 pixels at 0x41 whose
    bytes are 0x0F: the four pixels of each row are blank, the four bits
    beyond the width are set. *)
Definition v2_padded_fnt : list Z :=
  sample_header 0x200 0 2 0x41 0x41 2 0x7a ++ [0]
  ++ [4; 0; 0x7a; 0] ++ [0x0f; 0x0f].

End WinFnt.

(** ** AngelCode BMFont *)

Module BMFont.

(** channel bitfield *)
Definition _CHNL_R : Z := Z.shiftl 1 2.
Definition _CHNL_G : Z := Z.shiftl 1 1.
Definition _CHNL_B : Z := Z.shiftl 1 0.
Definition _CHNL_A : Z := Z.shiftl 1 3.

(** A char record of the descriptor ([_CHAR]); the writer produces the
    same fields. *)
Record Char : Type := {
  id : Z; x : Z; y : Z; width : Z; height : Z;
  xoffset : Z; yoffset : Z; xadvance : Z; page : Z; chnl : Z
}.

(** The fields of the common block ([_COMMON]) that extraction reads. *)
Record Common : Type := {
  base : Z; redChnl : Z; greenChnl : Z; blueChnl : Z; alphaChnl : Z
}.

(** A pixel is the tuple (R, G, B, A); a masked pixel keeps some of its
    channels.  An RGBA image gives a pixel for every position. *)
Definition tuple : Type := list Z.
Definition image : Type := Z -> Z -> tuple.

Definition tuple_eqb (a b : tuple) : bool :=
  Nat.eqb (List.length a) (List.length b)
  && forallb (fun p => fst p =? snd p) (combine a b).

(** A glyph as extraction builds it. *)
Record Glyph : Type := {
  pixels : list (list bool);
  codepoint : option Z
}.

Definition glyph_width (g : Glyph) : Z :=
  match pixels g with
  | [] => 0
  | row :: _ => Z.of_nat (List.length row)
  end.

(** [Glyph.empty(width, height)] *)
Definition empty_glyph (w h : Z) : Glyph :=
  {| pixels := repeat (repeat false (Z.to_nat w)) (Z.to_nat h);
     codepoint := None |}.

(** Modelled from the spec: [Glyph.expand] of monobit's glyph class (not
    among the sources) pads the raster with blank pixels on its four sides:
    left, top, right, bottom as the spec's section 4.5 names the four
    amounts of the call. *)
Definition expand (g : Glyph) (l t r b : Z) : Glyph :=
  let widen row :=
    repeat false (Z.to_nat l) ++ row ++ repeat false (Z.to_nat r) in
  let w := Z.to_nat (l + glyph_width g + r) in
  {| pixels := repeat (repeat false w) (Z.to_nat t)
               ++ map widen (pixels g)
               ++ repeat (repeat false w) (Z.to_nat b);
     codepoint := codepoint g |}.

Definition set_annotations (g : Glyph) (cp : Z) : Glyph :=
  {| pixels := pixels g; codepoint := Some cp |}.

(** [sheets[page]] *)
Fixpoint sheet_of (sheets : list (Z * image)) (p : Z) : result image :=
  match sheets with
  | [] => Raise KeyError
  | (k, img) :: r => if k =? p then Ok img else sheet_of r p
  end.

(** [crop((x, y, x+w, y+h)).getdata()]: the pixels of the box, row by row. *)
Definition crop_data (img : image) (c : Char) : list tuple :=
  flat_map (fun row => map (fun col => img (x c + col) (y c + row))
                           (range 0 (width c)))
           (range 0 (height c)).

(** keep only channels that hold this char; drop any zeroed/oned channels
    and the outline channel *)
Definition masks (common : Common) (c : Char) : list bool :=
  (* deal with faulty .fnt's *)
  let chnl := if chnl c =? 0 then 15 else chnl c in
  let holds bit := negb (Z.land chnl bit =? 0) in
  let glyph_or_zero v := (v =? 0) || (v =? 2) in
  [ holds _CHNL_R && glyph_or_zero (redChnl common);
    holds _CHNL_G && glyph_or_zero (greenChnl common);
    holds _CHNL_B && glyph_or_zero (blueChnl common);
    holds _CHNL_A && glyph_or_zero (alphaChnl common) ].

Definition mask_pixel (ms : list bool) (rgba : tuple) : tuple :=
  map fst (filter snd (combine rgba ms)).

(** extract channel masked sprites *)
Fixpoint extract_sprites (sheets : list (Z * image)) (common : Common)
    (chars : list Char) : result (list (list tuple)) :=
  match chars with
  | [] => Ok []
  | c :: r =>
    img <- sheet_of sheets (page c) ;;
    let masked :=
      if negb (width c =? 0) && negb (height c =? 0)
      then map (mask_pixel (masks common c)) (crop_data img c)
      else [] in
    rest <- extract_sprites sheets common r ;;
    Ok (masked :: rest)
  end.

(** The names [bg] and [fg] after the monochrome check: unbound ([None])
    when the colour set is empty; [fg] is Python's [None] ([Some None]) when
    there is one colour. *)
Record colours : Type := {
  bg : option tuple;
  fg : option (option tuple)
}.

(** check if font is monochromatic; [colourset] is [list(set(...))] *)
Definition pick_colours (colourset : list tuple) : result colours :=
  match colourset with
  | [] => Ok {| bg := None; fg := None |}
  | [c] =>
    (* only one colour found *)
    Ok {| bg := Some c; fg := Some None |}
  | [c0; c1] =>
    (* use highesr intensity (sum of channels) as foreground *)
    if sum c0 >? sum c1
    then Ok {| bg := Some c1; fg := Some (Some c0) |}
    else Ok {| bg := Some c0; fg := Some (Some c1) |}
  | _ => Raise (ValueError "Greyscale, colour and antialiased fonts not supported.")
  end.

(** [bits[offs : offs+width] for offs in range(0, len(bits), width)] *)
Fixpoint chunks (fuel : nat) (w : nat) (bits : list bool) : list (list bool) :=
  match fuel with
  | O => []
  | S fuel' =>
    match bits with
    | [] => []
    | _ => firstn w bits :: chunks fuel' w (skipn w bits)
    end
  end.

Definition is_fg (fgv : option tuple) (c : tuple) : bool :=
  match fgv with
  | Some t => tuple_eqb c t
  | None => false
  end.

(** The body of [for char, sprite in zip(chars, sprites)]; [n] is
    [len(glyphs)] when the glyph is made. *)
Definition extract_glyph (cols : colours) (min_before min_after max_height : Z)
    (n : Z) (c : Char) (sprite : list tuple) : result Glyph :=
  g <- (if negb (width c =? 0) && negb (height c =? 0) then
          bits <- match sprite with
                  | [] => Ok []
                  | _ => fgv <- read_name "fg" (fg cols) ;;
                         Ok (map (is_fg fgv) sprite)
                  end ;;
          let glyph :=
            {| pixels := chunks (List.length bits) (Z.to_nat (width c)) bits;
               codepoint := None |} in
          let after := xadvance c - xoffset c - width c in
          let before := xoffset c in
          let h := height c + yoffset c in
          (* bring to equal height, equal bearings *)
          Ok (expand glyph (before - min_before) (yoffset c)
                     (after - min_after) (max_height - h))
        else Ok (empty_glyph (xadvance c - min_after) max_height)) ;;
  Ok (set_annotations g n).

Fixpoint extract_glyphs_loop (cols : colours)
    (min_before min_after max_height : Z) (n : Z)
    (cs : list (Char * list tuple)) : result (list Glyph) :=
  match cs with
  | [] => Ok []
  | (c, sprite) :: r =>
    g <- extract_glyph cols min_before min_after max_height n c sprite ;;
    rest <- extract_glyphs_loop cols min_before min_after max_height (n + 1) r ;;
    Ok (g :: rest)
  end.

(** The glyphs and the metric properties [_extract] gives the font:
    [tracking = min_after], [offset = Coord(min_before, base - max_height)]. *)
Record extracted : Type := {
  glyphs : list Glyph;
  tracking : Z;
  offset_x : Z;
  offset_y : Z
}.

(** [_extract], lines 363-436 and the metric properties of lines 447-461.
    [to_list] is the order in which [list(set(...))] enumerates the distinct
    tuples, which Python leaves to the hash table. *)
Definition _extract (to_list : list tuple -> list tuple)
    (sheets : list (Z * image)) (common : Common) (chars : list Char)
    : result extracted :=
  match chars with
  | [] =>
    Ok {| glyphs := []; tracking := 0; offset_x := 0;
          offset_y := base common - 0 |}
  | _ =>
    (* determine bearings *)
    min_after <- min_of (map (fun c => xadvance c - xoffset c - width c) chars) ;;
    min_before <- min_of (map xoffset chars) ;;
    max_height <- max_of (map (fun c => height c + yoffset c) chars) ;;
    sprites <- extract_sprites sheets common chars ;;
    let colourset := to_list (concat sprites) in
    cols <- pick_colours colourset ;;
    gs <- extract_glyphs_loop cols min_before min_after max_height 0
            (combine chars sprites) ;;
    Ok {| glyphs := gs; tracking := min_after; offset_x := min_before;
          offset_y := base common - max_height |}
  end.

(** One enumeration of the distinct tuples: in order of first occurrence. *)
Definition tuple_eq_dec : forall a b : tuple, {a = b} + {a <> b} :=
  list_eq_dec Z.eq_dec.

Definition first_seen (l : list tuple) : list tuple :=
  rev (nodup tuple_eq_dec (rev l)).

(** The advance of a glyph of the font, as the writer of the same module
    computes [xadvance]: [font.offset.x + glyph.width + font.tracking]. *)
Definition advance (e : extracted) (g : Glyph) : Z :=
  offset_x e + glyph_width g + tracking e.

(** *** The sheet writer *)

(** Tree structure to fill up spritesheet: the rectangle of the node and
    the image once one is placed (kept as its width and height; as an
    object it is true, [None] is false); a [Leaf] has [_children = None],
    a [Split] node has its two children. *)
Inductive SpriteNode : Type :=
| Leaf (_left _top _right _bottom : Z) (_image : option (Z * Z))
| Split (_left _top _right _bottom : Z) (child0 child1 : SpriteNode)
        (_image : option (Z * Z)).

(** [SpriteNode(left, top, right, bottom)] *)
Definition new_node (l t r b : Z) : SpriteNode := Leaf l t r b None.

Definition is_some {A} (o : option A) : bool :=
  match o with Some _ => true | None => false end.

(** [SpriteNode.insert]: the node as the call leaves it and the outcome, the
    position of the image or the [ValueError] of an image that does not
    fit.  One unit of fuel per nested call. *)
Fixpoint insert (fuel : nat) (n : SpriteNode) (w h : Z)
    : SpriteNode * result (Z * Z) :=
  match fuel with
  | O => (n, OutOfFuel)
  | S fuel' =>
    match n with
    | Split l t r b c0 c1 im =>
      match insert fuel' c0 w h with
      | (c0', Raise (ValueError _)) =>
        let '(c1', r1) := insert fuel' c1 w h in
        (Split l t r b c0' c1' im, r1)
      | (c0', r0) => (Split l t r b c0' c1 im, r0)
      end
    | Leaf l t r b im =>
      let width := r - l in
      let height := b - t in
      if is_some im || (w >? width) || (h >? height)
      then (n, Raise (ValueError "Image doesn't fit."))
      else if (w =? width) && (h =? height)
      then (Leaf l t r b (Some (w, h)), Ok (l, t))
      else
        let dw := width - w in
        let dh := height - h in
        let '(c0, c1) :=
          if dw >? dh
          then (new_node l t (l + w) b, new_node (l + w) t r b)
          else (new_node l t r (t + h), new_node l (t + h) r b) in
        let '(c0', r0) := insert fuel' c0 w h in
        (Split l t r b c0' c1 im, r0)
    end
  end.

Fixpoint depth (n : SpriteNode) : nat :=
  match n with
  | Split _ _ _ _ c0 c1 _ => S (Nat.max (depth c0) (depth c1))
  | Leaf _ _ _ _ _ => O
  end.

(** A call of [tree.insert(img)]: a leaf is split at most twice before the
    image is placed, so the depth of the tree plus three bounds the nesting
    of the calls. *)
Definition tree_insert (n : SpriteNode) (w h : Z) : SpriteNode * result (Z * Z) :=
  insert (depth n + 3) n w h.

(** What the writer reads of a glyph: its character label as a sequence of
    codepoints, the size of its raster, its ink offsets (left, top) and the
    size of [glyph.reduce()], the raster cropped to its ink. *)
Record SGlyph : Type := {
  char : list Z;
  g_width : Z;
  g_height : Z;
  ink_left : Z;
  ink_top : Z;
  cropped_width : Z;
  cropped_height : Z
}.

(** What the writer reads of the font. *)
Record SFont : Type := {
  sglyphs : list SGlyph;
  font_offset_x : Z;
  font_bbox_y : Z;
  font_tracking : Z
}.

(** The writer's warning for a grapheme cluster formats [str(label)], but
    the function binds no name [label] (its loop variable is [glyph]) and
    the module has none. *)
Definition label : option string := None.

(** [ord(glyph.char)] *)
Definition ord (c : list Z) : result Z :=
  match c with
  | [cp] => Ok cp
  | _ => Raise TypeError
  end.

(** The state of the [for glyph in font.glyphs] loop. *)
Record pass_state : Type := {
  tree : SpriteNode;
  cur_x : Z;
  cur_y : Z;
  chars_out : list Char
}.

(** The [for] loop of one sheet: [true] when the iterator runs out,
    [false] when a glyph does not fit and the loop breaks. *)
Fixpoint sheet_pass (font : SFont) (page_id channels : Z)
    (gs : list SGlyph) (st : pass_state) : result (pass_state * bool) :=
  match gs with
  | [] => Ok (st, true)
  | glyph :: rest =>
    if (1 <? Z.of_nat (List.length (char glyph))) then
      _ <- read_name "label" label ;;
      sheet_pass font page_id channels rest st
    else
      let place :=
        if negb (cropped_height glyph =? 0) && negb (cropped_width glyph =? 0)
        then
          match tree_insert (tree st) (cropped_width glyph) (cropped_height glyph) with
          | (tree', Ok (x', y')) => Ok (Some (tree', x', y'))
          | (_, Raise (ValueError _)) => Ok None
          | (_, Raise e) => Raise e
          | (_, OutOfFuel) => OutOfFuel
          end
        else Ok (Some (tree st, cur_x st, cur_y st)) in
      p <- place ;;
      match p with
      | None =>
        (* we don't fit, get next sheet *)
        Ok (st, false)
      | Some (tree', x', y') =>
        i <- ord (char glyph) ;;
        let rec :=
          {| id := i; x := x'; y := y';
             width := cropped_width glyph; height := cropped_height glyph;
             xoffset := font_offset_x font + ink_left glyph;
             yoffset := font_bbox_y font - g_height glyph + ink_top glyph;
             xadvance := font_offset_x font + g_width glyph + font_tracking font;
             page := page_id; chnl := channels |} in
        sheet_pass font page_id channels rest
          {| tree := tree'; cur_x := x'; cur_y := y';
             chars_out := chars_out st ++ [rec] |}
      end
  end.

(** The [while True:] loop of [_create_spritesheets], a sheet per unit of
    fuel: the number of pages and the char records. *)
Fixpoint sheets_loop (fuel : nat) (font : SFont) (width height : Z)
    (packed : bool) (n_layers page_id layer : Z) (n_pages : Z)
    (chars : list Char) : result (Z * list Char) :=
  match fuel with
  | O => OutOfFuel
  | S fuel' =>
    let channels := if packed then Z.shiftl 1 layer else 15 in
    r <- sheet_pass font page_id channels (sglyphs font)
           {| tree := new_node 0 0 width height; cur_x := 0; cur_y := 0;
              chars_out := chars |} ;;
    let '(st, ran_out) := r in
    if ran_out then
      (* iterator runs out, get out *)
      Ok (n_pages, chars_out st)
    else if layer =? n_layers - 1 then
      (* move to next layer or page *)
      sheets_loop fuel' font width height packed n_layers
        (page_id + 1) 0 (n_pages + 1) (chars_out st)
    else
      sheets_loop fuel' font width height packed n_layers
        page_id (layer + 1) n_pages (chars_out st)
  end.

Definition _create_spritesheets (fuel : nat) (font : SFont)
    (size : Z * Z) (packed : bool) : result (Z * list Char) :=
  let n_layers := if packed then 4 else 1 in
  let '(width, height) := size in
  sheets_loop fuel font width height packed n_layers 0 0 1 [].

(** Samples. *)

Definition black : tuple := [0; 0; 0; 255].
Definition white : tuple := [255; 255; 255; 255].

(** The common block of a sheet whose four channels all hold the glyph. *)
Definition glyph_channels : Common :=
  {| base := 1; redChnl := 0; greenChnl := 0; blueChnl := 0; alphaChnl := 0 |}.

(** A page with a black pixel in its first column on white. *)
Definition black_on_white : image :=
  fun col row => if col =? 0 then black else white.

(** The char record of the letter A (id 65) over the first pixel of the
    page, with an advance of 3. *)
Definition char_A : Char :=
  {| id := 65; x := 0; y := 0; width := 1; height := 1;
     xoffset := 1; yoffset := 0; xadvance := 3; page := 0; chnl := 15 |}.

(** A char record over the first two pixels: one black, one white. *)
Definition char_two_pixels : Char :=
  {| id := 66; x := 0; y := 0; width := 2; height := 1;
     xoffset := 0; yoffset := 0; xadvance := 2; page := 0; chnl := 15 |}.

(** A glyph whose ink is [w] by [h] pixels, labelled with the characters
    [cs]. *)
Definition ink_glyph (cs : list Z) (w h : Z) : SGlyph :=
  {| char := cs; g_width := w; g_height := h; ink_left := 0; ink_top := 0;
     cropped_width := w; cropped_height := h |}.

Definition font_of (gs : list SGlyph) : SFont :=
  {| sglyphs := gs; font_offset_x := 0; font_bbox_y := 8; font_tracking := 0 |}.

(** A, a grapheme cluster of two codepoints (e + combining acute), B. *)
Definition cluster_font : SFont :=
  font_of [ink_glyph [65] 8 8; ink_glyph [101; 769] 8 8; ink_glyph [66] 8 8].

(** Two glyphs of 200 by 200 pixels: each fits a page of 256 by 256, both
    together do not. *)
Definition two_big_font : SFont :=
  font_of [ink_glyph [65] 200 200; ink_glyph [66] 200 200].

(** *** The geometry of the packer *)

(** A box: x, y, width, height. *)
Definition box : Type := (Z * Z * Z * Z)%type.

(** Two boxes overlap when they share a pixel. *)
Definition boxes_overlap (p q : box) : bool :=
  let '(xp, yp, wp, hp) := p in
  let '(xq, yq, wq, hq) := q in
  (Z.max xp xq <? Z.min (xp + wp) (xq + wq))
  && (Z.max yp yq <? Z.min (yp + hp) (yq + hq)).

Definition char_box (c : Char) : box := (x c, y c, width c, height c).

(** Two placed glyph rectangles overlap when they share a pixel. *)
Definition rect_overlap (a b : Char) : bool :=
  boxes_overlap (char_box a) (char_box b).

(** The rectangle of a node: left, top, right, bottom. *)
Definition node_rect (n : SpriteNode) : box :=
  match n with
  | Leaf l t r b _ => (l, t, r, b)
  | Split l t r b _ _ _ => (l, t, r, b)
  end.

(** The images placed in a tree, each with the corner it is placed at. *)
Fixpoint placed (n : SpriteNode) : list box :=
  match n with
  | Leaf l t r b (Some (w, h)) => [(l, t, w, h)]
  | Leaf _ _ _ _ None => []
  | Split _ _ _ _ c0 c1 _ => placed c0 ++ placed c1
  end.

(** A box lies within a rectangle. *)
Definition box_inside (p : box) (rect : box) : Prop :=
  let '(xp, yp, wp, hp) := p in
  let '(l, t, r, b) := rect in
  l <= xp /\ xp + wp <= r /\ t <= yp /\ yp + hp <= b.

(** The two children of a node divide its rectangle, side by side or one
    above the other. *)
Definition divides (rect r0 r1 : box) : Prop :=
  let '(l, t, r, b) := rect in
  let '(l0, t0, r0', b0) := r0 in
  let '(l1, t1, r1', b1) := r1 in
  (l0 = l /\ t0 = t /\ b0 = b /\ l1 = r0' /\ t1 = t /\ r1' = r /\ b1 = b
   /\ l <= r0' <= r)
  \/ (l0 = l /\ t0 = t /\ r0' = r /\ l1 = l /\ t1 = b0 /\ r1' = r /\ b1 = b
      /\ t <= b0 <= b).

(** The trees the packer builds: a placed image fills its leaf, and the
    children of a node divide it. *)
Fixpoint well_formed (n : SpriteNode) : Prop :=
  match n with
  | Leaf l t r b (Some (w, h)) => w = r - l /\ h = b - t
  | Leaf _ _ _ _ None => True
  | Split l t r b c0 c1 _ =>
    well_formed c0 /\ well_formed c1
    /\ divides (l, t, r, b) (node_rect c0) (node_rect c1)
  end.

(** A pass leaves the packer in the same place whatever the page, the
    channels and the records collected so far. *)
Definition same_place (a b : pass_state) : Prop :=
  tree a = tree b /\ cur_x a = cur_x b /\ cur_y a = cur_y b.

Definition same_outcome (a b : result (pass_state * bool)) : Prop :=
  match a, b with
  | Ok (s1, r1), Ok (s2, r2) => r1 = r2 /\ same_place s1 s2
  | Raise e1, Raise e2 => e1 = e2
  | OutOfFuel, OutOfFuel => True
  | _, _ => False
  end.

End BMFont.

(** ** Mac NFNT: metrics of the writer *)

Module NFNT.

(** 4-coordinate tuple *)
Record Bounds : Type := { left : Z; bottom : Z; right : Z; top : Z }.

(** The metrics of a glyph that the writer reads and sets; [wo_offset] and
    [wo_width] are the Apple metrics [_normalize_metrics] adds. *)
Record Glyph : Type := {
  left_bearing : Z;
  right_bearing : Z;
  width : Z;
  height : Z;
  shift_up : Z;
  wo_offset : option Z;
  wo_width : option Z
}.

(** Modelled from the spec: the derived glyph property
    [advance_width = left_bearing + raster.width + right_bearing] of
    monobit's glyph class (not among the sources). *)
Definition advance_width (g : Glyph) : Z :=
  left_bearing g + width g + right_bearing g.

(** [_g.modify(wo_offset=..., wo_width=...)] *)
Definition modify_wo (g : Glyph) (o w : Z) : Glyph :=
  {| left_bearing := left_bearing g; right_bearing := right_bearing g;
     width := width g; height := height g; shift_up := shift_up g;
     wo_offset := Some o; wo_width := Some w |}.

Section Normalize.

(** The glyph class is not among the sources: the truth value of a glyph
    object and its [reduce] and [expand(bottom=, top=)] methods are taken
    as they come. *)
Variable glyph_bool : Glyph -> bool.
Variable reduce : Glyph -> Glyph.
Variable expand : Glyph -> Z -> Z -> Glyph.

(** Trim the horizontal to glyph's ink bounds and expand the vertical to
    font's ink bounds; [None] is Python's [None]. *)
Definition _normalize_glyph (g : Glyph) (ink_bounds : Bounds) : option Glyph :=
  if negb (glyph_bool g) then None
  else
    (* shrink to fit *)
    let g := reduce g in
    Some (expand g (shift_up g - bottom ink_bounds)
                   (top ink_bounds - height g - shift_up g)).

(** The glyph [_normalize_glyph] makes of a glyph object that is true. *)
Definition normalized (ink_bounds : Bounds) (g : Glyph) : Glyph :=
  let g := reduce g in
  expand g (shift_up g - bottom ink_bounds)
           (top ink_bounds - height g - shift_up g).

(** Reading an attribute of each element; [None] has none. *)
Fixpoint attr_of_all {A} (f : Glyph -> A) (l : list (option Glyph))
    : result (list A) :=
  match l with
  | [] => Ok []
  | None :: _ => Raise AttributeError
  | Some g :: r => rest <- attr_of_all f r ;; Ok (f g :: rest)
  end.

(** add apple metrics to glyphs *)
Definition add_metrics (kern : Z) (g : Glyph) : Glyph :=
  modify_wo g (left_bearing g + kern) (advance_width g).

Definition attr_ge_255 (f : Glyph -> option Z) (g : Glyph) : bool :=
  match f g with
  | Some v => 255 <=? v
  | None => false
  end.

(** Calculate metrics for NFNT format: the glyphs of the modified font and
    the kerning. *)
Definition _normalize_metrics (font_glyphs : list Glyph) (ink_bounds : Bounds)
    : result (list Glyph * Z) :=
  (* reduce to ink bounds horizontally, font ink bounds vertically *)
  let glyphs := map (fun g => _normalize_glyph g ink_bounds) font_glyphs in
  (* calculate kerning. only negative kerning is handled *)
  lbs <- attr_of_all left_bearing glyphs ;;
  kern <- min_of lbs ;;
  let kern := Z.max 0 (- kern) in
  glyphs <- attr_of_all (add_metrics kern) glyphs ;;
  (* check that glyph widths and offsets fit *)
  if existsb (attr_ge_255 wo_width) glyphs
  then Raise (FileFormatError "NFNT character width must be < 255")
  else if existsb (attr_ge_255 wo_offset) glyphs
  then Raise (FileFormatError "NFNT character offset must be < 255")
  else Ok (glyphs, kern).

(** [_create_nfnt], from the font that [_subset] returns: the metrics are
    normalised first, and the resource is laid out from the normalised
    glyphs and the kerning.  The layout (strike, location and width/offset
    tables, header) is taken as it comes. *)
Variable layout : list Glyph -> Z -> result (list Z).

Definition _create_nfnt (font_glyphs : list Glyph) (ink_bounds : Bounds)
    : result (list Z) :=
  r <- _normalize_metrics font_glyphs ink_bounds ;;
  let '(glyphs, kern) := r in
  layout glyphs kern.

End Normalize.

(** Two glyphs for the checks, one narrow and one 300 pixels wide, in a
    setting where every glyph object is true and is already reduced to the
    font's ink bounds. *)
Definition narrow_glyph : Glyph :=
  {| left_bearing := -1; right_bearing := 1; width := 6; height := 8;
     shift_up := -2; wo_offset := None; wo_width := None |}.
Definition wide_glyph : Glyph :=
  {| left_bearing := 0; right_bearing := 0; width := 300; height := 8;
     shift_up := -2; wo_offset := None; wo_width := None |}.
Definition sample_bounds : Bounds :=
  {| left := 0; bottom := -2; right := 8; top := 6 |}.
Definition always_true (g : Glyph) : bool := true.
Definition keep (g : Glyph) : Glyph := g.
Definition keep_rows (g : Glyph) (b t : Z) : Glyph := g.
Definition no_layout (gs : list Glyph) (kern : Z) : result (list Z) := Ok [].

End NFNT.

(** ** Derived font properties *)

Module FontProps.

Record Bounds : Type := { left : Z; bottom : Z; right : Z; top : Z }.
Record Coord : Type := { cx : Z; cy : Z }.

(** The glyph attributes the font properties read.  The glyph class is not
    among the sources, so its derived attributes are data here. *)
Record Glyph : Type := {
  advance_width : Z;
  width : Z;
  height : Z;
  left_bearing : Z;
  shift_up : Z;
  padding : Bounds;
  bounding_box : Coord;
  ink_bounds : Bounds;
  kern_to : list (Z * Z)
}.

(** A font: its glyphs and the properties that were set. *)
Record Font : Type := {
  glyphs : list Glyph;
  props : list (string * Z)
}.

Fixpoint lookup (key : string) (d : list (string * Z)) : option Z :=
  match d with
  | [] => None
  | (k, v) :: r => if String.eqb k key then Some v else lookup key r
  end.

(** Modelled from the spec: [writable_property] of monobit's property
    machinery (not among the sources): a property that was set overrides,
    otherwise the property is derived. *)
Definition writable_property (f : Font) (key : string) (derive : Z) : Z :=
  match lookup key (props f) with
  | Some v => v
  | None => derive
  end.

(** Modelled from the spec: an [int] field without a default or a derivation
    ([shift_up], [left_bearing], [leading]) is 0 unless set. *)
Definition shift_up_of (f : Font) : Z := writable_property f "shift_up" 0.
Definition left_bearing_of (f : Font) : Z := writable_property f "left_bearing" 0.
Definition leading (f : Font) : Z := writable_property f "leading" 0.

Definition max_over (l : list Z) (d : Z) : Z :=
  match l with [] => d | v :: r => fold_left Z.max r v end.
Definition min_over (l : list Z) (d : Z) : Z :=
  match l with [] => d | v :: r => fold_left Z.min r v end.

(** Get ascent (defaults to max ink height above baseline). *)
Definition ascent (f : Font) : Z :=
  writable_property f "ascent"
    (match glyphs f with
     | [] => 0
     | gs => shift_up_of f
             + max_over (map (fun g => height g - top (padding g)) gs) 0
     end).

(** Get descent (defaults to bottom/vertical offset). *)
Definition descent (f : Font) : Z :=
  writable_property f "descent"
    (match glyphs f with
     | [] => 0
     | gs => - shift_up_of f
             - min_over (map (fun g => bottom (padding g)) gs) 0
     end).

(** Get nominal pixel size (ascent + descent).  A plain property: it is
    computed at every access and cannot be set. *)
Definition pixel_size (f : Font) : Z :=
  match glyphs f with
  | [] => 0
  | _ => ascent f + descent f
  end.

(** Distance between consecutive baselines, in pixels. *)
Definition line_height (f : Font) : Z :=
  writable_property f "line_height" (pixel_size f + leading f).

(** Minimum bounding box encompassing all glyphs at fixed origin. *)
Definition font_ink_bounds (f : Font) : Bounds :=
  let nonempty :=
    filter (fun g => negb (cx (bounding_box g) =? 0)
                     && negb (cy (bounding_box g) =? 0)) (glyphs f) in
  match nonempty with
  | [] => {| left := left_bearing_of f; bottom := shift_up_of f;
             right := left_bearing_of f; top := shift_up_of f |}
  | _ =>
    {| left := left_bearing_of f + min_over (map (fun g => left (ink_bounds g)) nonempty) 0;
       bottom := shift_up_of f + min_over (map (fun g => bottom (ink_bounds g)) nonempty) 0;
       right := left_bearing_of f + max_over (map (fun g => right (ink_bounds g)) nonempty) 0;
       top := shift_up_of f + max_over (map (fun g => top (ink_bounds g)) nonempty) 0 |}
  end.

Definition font_bounding_box (f : Font) : Coord :=
  {| cx := right (font_ink_bounds f) - left (font_ink_bounds f);
     cy := top (font_ink_bounds f) - bottom (font_ink_bounds f) |}.

(** [set(...)] of integers, as the list of its distinct elements. *)
Definition distinct (l : list Z) : list Z := nodup Z.eq_dec l.

(** Monospace or proportional spacing. *)
Definition spacing (f : Font) : string :=
  match glyphs f with
  | [] => "character-cell"
  | gs =>
    if existsb (fun g => (advance_width g <? 0)
                         || negb (Nat.eqb (List.length (kern_to g)) 0)) gs
    then "proportional"
    else
      (* don't count void glyphs to determine whether it's monospace *)
      let advances :=
        distinct (filter (fun a => negb (a =? 0)) (map advance_width gs)) in
      let monospaced := Nat.eqb (List.length advances) 1 in
      let bispaced := Nat.eqb (List.length advances) 2 in
      let ink_contained_y := cy (font_bounding_box f) <=? line_height f in
      let ink_contained_x :=
        forallb (fun g => cx (bounding_box g) <=? advance_width g) gs in
      if ink_contained_x && ink_contained_y && monospaced then "character-cell"
      else if ink_contained_x && ink_contained_y && bispaced then "multi-cell"
      else if monospaced then "monospace"
      else "proportional"
  end.

(** [Font.modify(glyphs, **kwargs)]: a new font with the given glyphs and
    the properties [{**self.properties, **kwargs}]; what was derived on the
    old font is not carried over. *)
Definition modify (f : Font) (new_glyphs : list Glyph)
    (kwargs : list (string * Z)) : Font :=
  {| glyphs := new_glyphs; props := kwargs ++ props f |}.

(** [Font()]: no glyphs, nothing set. *)
Definition empty_font : Font := {| glyphs := []; props := [] |}.

(** A font of one 8x8 glyph with a set ascent, and a [pixel_size] among the
    set properties. *)
Definition one_glyph : Glyph :=
  {| advance_width := 8; width := 8; height := 8; left_bearing := 0;
     shift_up := 0;
     padding := {| left := 1; bottom := 2; right := 1; top := 1 |};
     bounding_box := {| cx := 6; cy := 5 |};
     ink_bounds := {| left := 1; bottom := 2; right := 7; top := 7 |};
     kern_to := [] |}.

Definition one_glyph_font : Font :=
  {| glyphs := [one_glyph];
     props := [("ascent"%string, 9); ("pixel_size"%string, 40)] |}.

End FontProps.

(** ** More samples for the sheet writer *)

Module BMFontSamples.
Import BMFont.

(** A font of two glyphs of 8 by 8 pixels, A and B. *)
Definition small_font : SFont :=
  font_of [ink_glyph [65] 8 8; ink_glyph [66] 8 8].

(** A page of 256 by 256 pixels with one image of 200 by 100 placed. *)
Definition page_with_one : SpriteNode :=
  fst (tree_insert (new_node 0 0 256 256) 200 100).

End BMFontSamples.


(** ** Mac NFNT: reading the metrics back (monobit/formats/mac/nfnt.py) *)

Module NFNTRead.

(** The fields of the FontRec header that the conversion reads. *)
Record FontRec : Type := {
  firstChar : Z;
  kernMax : Z;
  ascent : Z;
  descent : Z;
  leading : Z
}.

(** A glyph as [_extract_nfnt] returns it and as [_convert_nfnt] works on
    it: the size of its raster, the bearings, the Apple metrics
    [wo_offset] and [wo_width] that [_extract_nfnt] sets on every glyph,
    and the labels. *)
Record MacGlyph : Type := {
  width : Z;
  height : Z;
  left_bearing : Z;
  right_bearing : Z;
  wo_offset : Z;
  wo_width : Z;
  codepoint : option Z;
  tag : string
}.

(** A glyph after [drop('wo_offset', 'wo_width')]. *)
Record Glyph : Type := {
  g_width : Z;
  g_height : Z;
  g_left_bearing : Z;
  g_right_bearing : Z;
  g_codepoint : option Z;
  g_tag : string
}.

Definition advance_width (g : Glyph) : Z :=
  g_left_bearing g + g_width g + g_right_bearing g.

(** Integer fields of the structures.  The struct module is not among the
    sources; a field is taken to keep the low bits of the value it is given,
    as the fields of C structures do: the two fields of a width/offset
    entry are [uint8], the [kernMax] of the header is [int16]. *)
Definition uint8 (v : Z) : Z := v mod 2 ^ 8.
Definition int16 (v : Z) : Z := (v + 2 ^ 15) mod 2 ^ 16 - 2 ^ 15.

(** [Glyph(rows).modify(wo_offset=_wo.offset, wo_width=_wo.width)]: the
    glyph [_extract_nfnt] makes of a cut of [w] by [h] pixels of the strike
    and of its entry in the width/offset table, whose two fields [offset]
    and [wid] are bytes as the reader finds them. *)
Definition read_glyph (w h : Z) (offset wid : Z) : MacGlyph :=
  {| width := w; height := h; left_bearing := 0; right_bearing := 0;
     wo_offset := offset; wo_width := wid; codepoint := None; tag := "" |}.

(** [_glyph.wo_width != 0xff and _glyph.wo_offset != 0xff] *)
Definition defined (g : MacGlyph) : bool :=
  negb (wo_width g =? 255) && negb (wo_offset g =? 255).

Definition modify_bearings (g : MacGlyph) (lb rb : Z) : MacGlyph :=
  {| width := width g; height := height g;
     left_bearing := lb; right_bearing := rb;
     wo_offset := wo_offset g; wo_width := wo_width g;
     codepoint := codepoint g; tag := tag g |}.

Definition modify_codepoint (g : MacGlyph) (c : Z) : MacGlyph :=
  {| width := width g; height := height g;
     left_bearing := left_bearing g; right_bearing := right_bearing g;
     wo_offset := wo_offset g; wo_width := wo_width g;
     codepoint := Some c; tag := tag g |}.

Definition modify_tag (g : MacGlyph) (t : string) : MacGlyph :=
  {| width := width g; height := height g;
     left_bearing := left_bearing g; right_bearing := right_bearing g;
     wo_offset := wo_offset g; wo_width := wo_width g;
     codepoint := codepoint g; tag := t |}.

Definition drop_wo (g : MacGlyph) : Glyph :=
  {| g_width := width g; g_height := height g;
     g_left_bearing := left_bearing g; g_right_bearing := right_bearing g;
     g_codepoint := codepoint g; g_tag := tag g |}.

(** The first comprehension of [_convert_nfnt]. *)
Definition set_bearings (fontrec : FontRec) (g : MacGlyph) : MacGlyph :=
  if defined g then
    modify_bearings g
      (wo_offset g + kernMax fontrec)
      (wo_width g - width g - (wo_offset g + kernMax fontrec))
  else g.

(** [enumerate(glyphs, start=...)] *)
Fixpoint enumerate {A} (l : list A) (start : Z) : list (Z * A) :=
  match l with
  | [] => []
  | a :: r => (start, a) :: enumerate r (start + 1)
  end.

(** drop undefined glyphs & their labels, so long as they're empty *)
Definition kept (g : MacGlyph) : bool :=
  defined g || (negb (width g =? 0) && negb (height g =? 0)).

(** The properties [_convert_nfnt] stores. *)
Record Props : Type := {
  default_char : string;
  p_ascent : Z;
  p_descent : Z;
  line_height : Z;
  shift_up : Z
}.

(** What the conversion reads of its argument [properties] for the labels:
    the glyph-name encoding table, [None] when
    [properties.get('encoding-table', None)] is false as a condition, else
    the look-up [tag_table.get(codepoint, '')] as a function of the
    codepoint label of a glyph, which may be unset.  (The keys of the table
    are one-byte strings and the labels are those of the glyph class, which
    is not among the sources: how the two compare is left to the function.)
    The kerning table only adds the annotation [right_kerning], which the
    glyphs here do not carry. *)
Record Properties : Type := {
  encoding_table : option (option Z -> string)
}.

Definition set_codepoint (g : Glyph) (c : Z) : Glyph :=
  {| g_width := g_width g; g_height := g_height g;
     g_left_bearing := g_left_bearing g; g_right_bearing := g_right_bearing g;
     g_codepoint := Some c; g_tag := g_tag g |}.

Definition set_tag (g : Glyph) (t : string) : Glyph :=
  {| g_width := g_width g; g_height := g_height g;
     g_left_bearing := g_left_bearing g; g_right_bearing := g_right_bearing g;
     g_codepoint := g_codepoint g; g_tag := t |}.

(** store glyph-name encoding table *)
Definition retag (properties : Properties) (glyphs : list Glyph) : list Glyph :=
  match encoding_table properties with
  | Some tag_of => map (fun g => set_tag g (tag_of (g_codepoint g))) glyphs
  | None => glyphs
  end.

(** The call [Font(glyphs, **properties)] with which the conversion
    returns: the glyphs and the properties handed to the constructor;
    [Font()] is handed no glyphs and no properties.  What the constructor
    makes of the glyphs is [Font_glyphs] below. *)
Record Font : Type := { glyphs : list Glyph; props : option Props }.

(** Convert mac glyph metrics to monobit glyph metrics. *)
Definition _convert_nfnt (properties : Properties) (glyphs : list MacGlyph)
    (fontrec : FontRec) : Font :=
  match glyphs with
  | [] => {| glyphs := []; props := None |}
  | g0 :: _ =>
    let glyphs := map (set_bearings fontrec) glyphs in
    (* codepoint labels *)
    let labelled :=
      map (fun cg => modify_codepoint (snd cg) (fst cg))
          (enumerate (removelast glyphs) (firstChar fontrec)) in
    (* last glyph is the "missing" glyph *)
    let labelled :=
      labelled ++ [modify_tag (last glyphs (set_bearings fontrec g0)) "missing"] in
    let glyphs := filter kept labelled in
    (* drop mac glyph metrics *)
    let glyphs := map drop_wo glyphs in
    (* store glyph-name encoding table *)
    let glyphs := retag properties glyphs in
    {| glyphs := glyphs;
       props := Some {| default_char := "missing";
                        p_ascent := ascent fontrec;
                        p_descent := descent fontrec;
                        line_height :=
                          ascent fontrec + descent fontrec + leading fontrec;
                        shift_up := - descent fontrec |} |}
  end.

(** [Font._add_labels] (font.py 457-473), which the constructor of [Font]
    runs on its glyphs, for glyphs without char labels as the NFNT reader
    makes them.  A codepoint label set by the conversion is a 1-tuple and so
    true as a condition.  [encoder] is [self._get_encoder()]: [None] when
    the encoding of the font names no charmap, else the charmap as
    [Glyph.add_labels] applies it to a glyph (the method and the charmaps
    are not among the sources). *)
Definition _add_labels (encoder : option (Glyph -> Glyph)) (glyphs : list Glyph)
    : list Glyph :=
  let has_codepoint :=
    existsb (fun g => match g_codepoint g with Some _ => true | None => false end)
            glyphs in
  let has_char := false in
  (* update glyph codepoints *)
  (* use index as codepoint if no codepoints or chars set *)
  let glyphs :=
    if negb has_codepoint && negb has_char
    then map (fun ig => set_codepoint (snd ig) (fst ig)) (enumerate glyphs 0)
    else glyphs in
  (* update glyph labels *)
  match encoder with
  | Some add_labels => map add_labels glyphs
  | None => glyphs
  end.

(** The glyphs of the font that the call [Font(glyphs, **properties)]
    makes. *)
Definition Font_glyphs (encoder : option (Glyph -> Glyph)) (f : Font)
    : list Glyph :=
  _add_labels encoder (glyphs f).

(** What the conversion is to make of one glyph of the resource: the
    statement of the comment at the head of [_convert_nfnt]. *)
Definition converted_from (fontrec : FontRec) (g : MacGlyph) (g' : Glyph) : Prop :=
  g_width g' = width g /\ g_height g' = height g /\
  if defined g
  then g_left_bearing g' = wo_offset g + kernMax fontrec
       /\ advance_width g' = wo_width g
  else width g <> 0 /\ height g <> 0
       /\ g_left_bearing g' = left_bearing g
       /\ g_right_bearing g' = right_bearing g.

(** *** Where the tables are (lines 197-220 of the reader, 488-526 of the
    writer) *)

(** [NFNTHeader.size]: the font type and twelve 16-bit fields. *)
Definition NFNTHeader_size : Z := 26.

(** The writer: [owt_loc = (len(font_strike) + len(loc_table) + 10) >> 1],
    stored as [owTLoc = owt_loc & 0xffff], with [owt_loc_high = owt_loc >> 16]
    returned and, if [ndescent_is_high] and it is not zero, stored in
    [nDescent] in place of the font's ink bottom. *)
Record Layout : Type := {
  owTLoc : Z;
  nDescent : Z;
  owt_loc_high : Z;
  wo_table_at : Z
}.

Definition _create_nfnt_layout (font_strike_len loc_table_len ink_bottom : Z)
    (ndescent_is_high : bool) : Layout :=
  let owt_loc := Z.shiftr (font_strike_len + loc_table_len + 10) 1 in
  let owt_loc_high := Z.shiftr owt_loc 16 in
  {| owTLoc := Z.land owt_loc 65535;
     nDescent := if ndescent_is_high && negb (owt_loc_high =? 0)
                 then owt_loc_high else ink_bottom;
     owt_loc_high := owt_loc_high;
     (* data = fontrec + font_strike + loc_table + wo_table *)
     wo_table_at := NFNTHeader_size + font_strike_len + loc_table_len |}.

(** The reader: the position at which the width/offset table is read,
    [offset + 16 + wo_offset]. *)
Definition _extract_nfnt_wo_table_at (offset : Z) (owTLoc nDescent owt_loc_high : Z) : Z :=
  let owt_loc_high := if 0 <? nDescent then nDescent else owt_loc_high in
  let wo_offset := (owTLoc + Z.shiftl owt_loc_high 16) * 2 in
  offset + 16 + wo_offset.

(** Samples. *)
Definition sample_fontrec : FontRec :=
  {| firstChar := 65; kernMax := -1; ascent := 6; descent := 2; leading := 1 |}.
Definition sample_glyphs : list MacGlyph :=
  [read_glyph 6 8 0 6; read_glyph 0 8 255 255; read_glyph 5 8 1 7;
   read_glyph 4 8 0 5].
Definition no_tables : Properties := {| encoding_table := None |}.

End NFNTRead.

(** ** Windows FNT: header properties and the writer's bitmaps
    (monobit/codecs/winfnt.py) *)

Module WinFntWrite.
Import Py WinFnt.

(** *** Strings *)

(** [s.split(b'\0', 1)[0]]: the bytes before the first NUL. *)
Fixpoint before_nul (s : list Z) : list Z :=
  match s with
  | [] => []
  | b :: r => if b =? 0 then [] else b :: before_nul r
  end.

(** Extract null-terminated string from bytes.  Decoding as latin-1 gives
    the character with the code of each byte, so the string is kept as
    the list of its codes. *)
Definition bytes_to_str (s : list Z) : list Z :=
  if existsb (fun b => b =? 0) s then before_nul s else s.

(** [fnt[pos:]] *)
Definition from_pos (fnt : list Z) (pos : Z) : list Z :=
  slice fnt pos (Z.of_nat (List.length fnt)).

(** The name and device strings [create_fnt] adds after the [file_size]
    bytes of header, character table and bitmaps, and the two pointers to
    them: the bytes added, [dfFace], [dfDevice]. *)
Definition create_fnt_names (file_size : Z) (family device : list Z)
    : list Z * Z * Z :=
  let face_name_offset := file_size in
  let face_name := family ++ [0] in
  let device_name_offset := face_name_offset + Z.of_nat (List.length face_name) in
  let device_name := device ++ [0] in
  (* set device name pointer to zero for 'generic font' *)
  let device_name_offset :=
    match device_name with
    | [] => 0
    | [b] => if b =? 0 then 0 else device_name_offset
    | _ => device_name_offset
    end in
  (face_name ++ device_name, face_name_offset, device_name_offset).

(** *** Weight *)

Definition _WEIGHT_MAP : list (Z * string) :=
  [ (0, ""); (100, "thin"); (200, "extra-light"); (300, "light");
    (400, "regular"); (500, "medium"); (600, "semi-bold"); (700, "bold");
    (800, "extra-bold"); (900, "heavy") ]%string.

Fixpoint lookup {A} (k : Z) (d : list (Z * A)) : result A :=
  match d with
  | [] => Raise KeyError
  | (k', v) :: r => if k' =? k then Ok v else lookup k r
  end.

(** [round(n, -2)] of an integer: to the nearest multiple of 100, a tie
    going to the even multiple. *)
Definition round_hundreds (n : Z) : Z :=
  let q := n / 100 in
  let r := n mod 100 in
  if r <? 50 then 100 * q
  else if 50 <? r then 100 * (q + 1)
  else if Z.even q then 100 * q else 100 * (q + 1).

(** The 'weight' property [_parse_win_props] sets, if it sets one. *)
Definition _parse_win_props_weight (dfWeight : Z) : result (option string) :=
  if dfWeight =? 0 then Ok None
  else
    let weight := Z.max 100 (Z.min 900 dfWeight) in
    name <- lookup (round_hundreds weight) _WEIGHT_MAP ;;
    Ok (Some name).

(** [dict(reversed(_item) for _item in _WEIGHT_MAP.items())] and
    [weight_map.get(font.weight, weight_map['regular'])] *)
Fixpoint reversed_get (name : string) (d : list (Z * string)) (found : option Z)
    : option Z :=
  match d with
  | [] => found
  | (k, v) :: r =>
    reversed_get name r (if String.eqb v name then Some k else found)
  end.

Definition create_fnt_weight (name : string) : Z :=
  match reversed_get name _WEIGHT_MAP None with
  | Some w => w
  | None => 400
  end.

(** *** Style *)

Definition _FF_DONTCARE : Z := Z.shiftl 0 4.
Definition _FF_ROMAN : Z := Z.shiftl 1 4.
Definition _FF_SWISS : Z := Z.shiftl 2 4.
Definition _FF_MODERN : Z := Z.shiftl 3 4.
Definition _FF_SCRIPT : Z := Z.shiftl 4 4.
Definition _FF_DECORATIVE : Z := Z.shiftl 5 4.

Definition _STYLE_MAP : list (Z * string) :=
  [ (_FF_DONTCARE, ""); (_FF_ROMAN, "serif"); (_FF_SWISS, "sans serif");
    (_FF_MODERN, "modern"); (_FF_SCRIPT, "script");
    (_FF_DECORATIVE, "decorative") ]%string.

(** [properties['style'] = _STYLE_MAP[win_props.dfPitchAndFamily & 0xff00]] *)
Definition _parse_win_props_style (dfPitchAndFamily : Z) : result string :=
  lookup (Z.land dfPitchAndFamily 0xff00) _STYLE_MAP.

(** The writer's [pitch_and_family], from whether the spacing is
    'proportional' and from the style. *)
Definition pitch_and_family (proportional : bool) (style : string) : Z :=
  if proportional then
    (* low bit set for proportional *)
    Z.lor 0x01 (match reversed_get style _STYLE_MAP None with
                | Some v => v
                | None => 0
                end)
  else _FF_MODERN.

(** *** Bitmaps *)

(** [l[::step]] for a positive step. *)
Fixpoint every (fuel : nat) (step : nat) (l : list Z) : list Z :=
  match fuel with
  | O => []
  | S fuel' =>
    match l with
    | [] => []
    | b :: _ => b :: every fuel' step (skipn step l)
    end
  end.

(** [_bm[_col::step]] for [0 <= _col] and a positive step. *)
Definition slice_step (bm : list Z) (col step : nat) : list Z :=
  every (List.length bm) step (skipn col bm).

(** bytewise transpose - .FNT stores as contiguous 8-pixel columns:
    [b''.join(_bm[_col::len(_bm)//height] for _col in range(len(_bm)//height))].
    [None] is the [ZeroDivisionError] of a height of zero. *)
Definition transposed (bm : list Z) (height : Z) : option (list Z) :=
  if height =? 0 then None
  else
    let step := Z.to_nat (Z.of_nat (List.length bm) / height) in
    Some (concat (map (fun _col => slice_step bm _col step) (seq 0 step))).

(** A glyph of the writer's table: its width, its height and its bytes
    [as_bytes()]. *)
Record WGlyph : Type := { w_width : Z; w_height : Z; w_bytes : list Z }.

Fixpoint bitmaps_of (ord_glyphs : list WGlyph) : option (list (list Z)) :=
  match ord_glyphs with
  | [] => Some []
  | g :: r =>
    match transposed (w_bytes g) (w_height g), bitmaps_of r with
    | Some t, Some ts => Some (t :: ts)
    | _, _ => None
    end
  end.

(** [itertools.accumulate]: the running sums. *)
Fixpoint accumulate_from (acc : Z) (l : list Z) : list Z :=
  match l with
  | [] => []
  | x :: r => (acc + x) :: accumulate_from (acc + x) r
  end.

Definition accumulate (l : list Z) : list Z := accumulate_from 0 l.

(** [glyph_offsets = [0] + list(itertools.accumulate(len(_bm) for _bm in bitmaps))] *)
Definition glyph_offsets (bitmaps : list (list Z)) : list Z :=
  0 :: accumulate (map (fun bm => Z.of_nat (List.length bm)) bitmaps).

(** [glyph_entry(width, offset)] of [_GLYPH_ENTRY[version]], for the
    versions 2.0 and 3.0, as its bytes hold it and [_parse_chartable_v2]
    reads it back: [geWidth] is a word; [geOffset] is a word in version 2.0
    and a dword in version 3.0; a field keeps the low bits of the value it
    is given. *)
Definition geOffset_bits (version : Z) : Z :=
  if version =? 0x300 then 32 else 16.

Definition make_glyph_entry (version : Z) (width offset : Z) : glyph_entry :=
  {| geWidth := width mod 2 ^ 16;
     geOffset := offset mod 2 ^ geOffset_bits version |}.

(** The entries of the character table:
    [glyph_entry(_glyph.width, offset_bitmaps + _glyph_offset)
     for _glyph, _glyph_offset in zip(ord_glyphs, glyph_offsets)] *)
Definition char_table (version : Z) (offset_bitmaps : Z)
    (ord_glyphs : list WGlyph) (bitmaps : list (list Z)) : list glyph_entry :=
  map (fun go => make_glyph_entry version (w_width (fst go))
                                  (offset_bitmaps + snd go))
      (combine ord_glyphs (glyph_offsets bitmaps)).

(** Samples: two glyphs of two rows, 9 and 8 pixels wide. *)
Definition two_rows_wide : WGlyph :=
  {| w_width := 9; w_height := 2; w_bytes := [1; 2; 3; 4] |}.
Definition two_rows_narrow : WGlyph :=
  {| w_width := 8; w_height := 2; w_bytes := [5; 6] |}.
Definition sample_head : list Z := repeat 0 20.
Definition sample_file : list Z :=
  sample_head ++ [1; 3; 2; 4] ++ [5; 6] ++ [70; 0; 0].

End WinFntWrite.

(** ** The font: raster and spacing (monobit/font.py) *)

Module FontRaster.
Import FontProps.

(** Minimum box encompassing all glyph matrices overlaid at fixed origin. *)
Definition raster (f : Font) : Bounds :=
  match glyphs f with
  | [] => {| left := 0; bottom := 0; right := 0; top := 0 |}
  | gs =>
    let lefts := map left_bearing gs in
    let bottoms := map shift_up gs in
    let rights := map (fun g => left_bearing g + width g) gs in
    let tops := map (fun g => shift_up g + height g) gs in
    {| left := min_over lefts 0; bottom := min_over bottoms 0;
       right := max_over rights 0; top := max_over tops 0 |}
  end.

Definition raster_size (f : Font) : Coord :=
  {| cx := right (raster f) - left (raster f);
     cy := top (raster f) - bottom (raster f) |}.

(** What the comment of [spacing] asks of a font of fixed pitch: no glyph
    has a negative advance or kerning, and the glyphs that have an advance
    all have the same. *)
Definition no_negative_advance_or_kerning (f : Font) : Prop :=
  forall g, In g (glyphs f) -> 0 <= advance_width g /\ kern_to g = [].

Definition one_advance (f : Font) : Prop :=
  exists a, a <> 0
            /\ (exists g, In g (glyphs f) /\ advance_width g = a)
            /\ forall g, In g (glyphs f) ->
                         advance_width g = 0 \/ advance_width g = a.

Definition ink_contained (f : Font) : Prop :=
  (forall g, In g (glyphs f) -> cx (bounding_box g) <= advance_width g)
  /\ cy (font_bounding_box f) <= line_height f.

(** Samples. *)
Definition space_glyph : Glyph :=
  {| advance_width := 0; width := 0; height := 8; left_bearing := 0;
     shift_up := -2;
     padding := {| left := 0; bottom := 0; right := 0; top := 0 |};
     bounding_box := {| cx := 0; cy := 0 |};
     ink_bounds := {| left := 0; bottom := 0; right := 0; top := 0 |};
     kern_to := [] |}.

Definition cell_font : Font :=
  {| glyphs := [one_glyph; space_glyph; one_glyph]; props := [] |}.

End FontRaster.

(** ** The font: the table of codepoints (monobit/font.py) *)

Module FontTable.
Import WinFnt.

(** The state of the table after the glyphs [pre]: a codepoint is mapped to
    the index of the last glyph that has it, and is absent if none has. *)
Definition last_wins (pre : list Glyph) (d : list (Z * nat)) : Prop :=
  forall c,
    match dict_get d c with
    | Some i =>
      exists g, nth_error pre i = Some g /\ codepoint g = Some c
                /\ forall j g', (i < j)%nat -> nth_error pre j = Some g' ->
                                codepoint g' <> Some c
    | None => forall g, In g pre -> codepoint g <> Some c
    end.

End FontTable.

(** ** OS/2 LX: the EXEPACK2 unpacker (monobit/formats/os2/lx.py) *)

Module LX2.
Import Py.

(** Perform a byte-over-byte iterative copy from one point to another
    within the same array:
    [for _ in range(count): target.append(target[source_offset])]. *)
Fixpoint copy_loop (target : list Z) (source_offset : Z) (count : nat)
    : result (list Z) :=
  match count with
  | O => Ok target
  | S count' =>
    b <- index target source_offset ;;
    copy_loop (target ++ [b]) source_offset count'
  end.

Definition _copy_byte_seq (target : list Z) (source_offset count : Z)
    : result (list Z) :=
  copy_loop target source_offset (Z.to_nat count).

Section Unpack2.

(** [le.uint16.from_bytes] and [le.uint32.from_bytes] belong to monobit's
    struct module, which is not among the sources: they are taken as they
    come. *)
Variable uint16_from_bytes : list Z -> Z -> result Z.
Variable uint32_from_bytes : list Z -> Z -> result Z.

(** One turn of [while True:] up to the test [if ofIn >= cbPage]: [None]
    is the [break] of the end record, otherwise the new [ofIn] and
    [abOut]. *)
Definition unpack2_record (pBuf : list Z) (ofIn : Z) (abOut : list Z)
    : result (option (Z * list Z)) :=
  ulControl <- uint16_from_bytes pBuf ofIn ;;
  (* Bits 1 & 0 hold the case flag (0-3) *)
  let case_flag := Z.land ulControl 0x3 in
  if case_flag =? 0 then
    if Z.land ulControl 0xff =? 0 then
      (* fill (length2) bytes with the byte value following ulControl;
         if length2 is 0 we're done *)
      let ulLen := Z.shiftr ulControl 8 in
      if ulLen =? 0 then Ok None
      else
        b <- index pBuf (ofIn + 2) ;;
        Ok (Some (ofIn + 3, abOut ++ repeat b (Z.to_nat ulLen)))
    else
      (* block copy (length1) bytes from after ulControl *)
      let ulLen := Z.shiftr (Z.land ulControl 0xff) 2 in
      Ok (Some (ofIn + (ulLen + 1),
                abOut ++ slice pBuf (ofIn + 1) (ofIn + 1 + ulLen)))
  else if case_flag =? 1 then
    (* copy length1 bytes following ulControl *)
    let ulLen := Z.land (Z.shiftr ulControl 2) 0x3 in
    let abOut := abOut ++ slice pBuf (ofIn + 2) (ofIn + 2 + ulLen) in
    let ofIn := ofIn + (ulLen + 2) in
    (* get length2 from what's been unpacked already *)
    let ulLen := Z.land (Z.shiftr ulControl 4) 0x7 + 3 in
    abOut <- _copy_byte_seq abOut (- Z.land (Z.shiftr ulControl 7) 0x1FF) ulLen ;;
    Ok (Some (ofIn, abOut))
  else if case_flag =? 2 then
    let ulLen := Z.land (Z.shiftr ulControl 2) 0x3 + 3 in
    abOut <- _copy_byte_seq abOut (- Z.land (Z.shiftr ulControl 4) 0xFFF) ulLen ;;
    Ok (Some (ofIn + 2, abOut))
  else
    ulControl <- uint32_from_bytes pBuf ofIn ;;
    (* block copy (length1) bytes *)
    let ulLen := Z.land (Z.shiftr ulControl 2) 0xF in
    let abOut := abOut ++ slice pBuf (ofIn + 3) (ofIn + 3 + ulLen) in
    let ofIn := ofIn + (ulLen + 3) in
    (* copy (length2) bytes from previously-unpacked data *)
    let ulLen := Z.land (Z.shiftr ulControl 6) 0x3F in
    abOut <- _copy_byte_seq abOut (- Z.land (Z.shiftr ulControl 12) 0xFFF) ulLen ;;
    Ok (Some (ofIn, abOut)).

(** The body of [while True:], one iteration per unit of fuel. *)
Fixpoint unpack2_loop (fuel : nat) (pBuf : list Z) (cbPage ofIn : Z)
    (abOut : list Z) : result (list Z) :=
  match fuel with
  | O => OutOfFuel
  | S fuel' =>
    r <- unpack2_record pBuf ofIn abOut ;;
    match r with
    | None => Ok abOut
    | Some (ofIn, abOut) =>
      if ofIn >=? cbPage then Ok abOut
      else unpack2_loop fuel' pBuf cbPage ofIn abOut
    end
  end.

(** Every turn that continues moves [ofIn] forward, so the page length
    bounds the number of turns. *)
Definition _lx_unpack2 (pBuf : list Z) : result (list Z) :=
  let cbPage := Z.of_nat (List.length pBuf) in
  if cbPage >? 4096 then Ok pBuf
  else unpack2_loop (S (List.length pBuf)) pBuf cbPage 0 [].

End Unpack2.

(** An instance of the two readings for the examples: the little-endian
    value of [n] bytes, an error outside the page. *)
Definition le_bytes (n : nat) (pBuf : list Z) (pos : Z) : result Z :=
  if (pos <? 0) || (Z.of_nat (List.length pBuf) <? pos + Z.of_nat n)
  then Raise (ValueError "buffer too small")
  else WinFnt.le_uint n pBuf pos.

(** Three of the records of a packed page, as the comments of
    [_lx_unpack2] give their bits: a block of literal bytes, a run of one
    byte, and a reference back into what has been unpacked. *)
Inductive record : Type :=
| Literal (data : list Z)
| Fill (n : Z) (b : Z)
| Back (distance : Z) (len : Z).

Definition encode (r : record) : list Z :=
  match r with
  | Literal data => (4 * Z.of_nat (List.length data)) :: data
  | Fill n b => [0; n; b]
  | Back distance len =>
    let c := 2 + 4 * (len - 3) + 16 * distance in
    [c mod 256; c / 256]
  end.

Definition well_formed (r : record) : Prop :=
  match r with
  | Literal data => (1 <= List.length data <= 63)%nat
  | Fill n b => 1 <= n <= 255
  | Back distance len => 0 <= distance <= 4095 /\ 3 <= len <= 6
  end.

(** The bytes a record stands for, after the bytes [out]. *)
Definition expand (out : list Z) (r : record) : result (list Z) :=
  match r with
  | Literal data => Ok (out ++ data)
  | Fill n b => Ok (out ++ repeat b (Z.to_nat n))
  | Back distance len => _copy_byte_seq out (- distance) len
  end.

Fixpoint expand_all (out : list Z) (rs : list record) : result (list Z) :=
  match rs with
  | [] => Ok out
  | r :: rest => out' <- expand out r ;; expand_all out' rest
  end.

(** A packed page: the records and the end record. *)
Definition page_of (rs : list record) : list Z :=
  flat_map encode rs ++ [0; 0].

Definition sample_records : list record :=
  [Literal [97; 98]; Fill 3 120; Back 2 4].

End LX2.

(** ** Apple IIgs font files: the headers before the FontRec
    (monobit/formats/mac/iigs.py) *)

Module IIgs.
Import Py.

(** A 16-bit field as the little-endian struct of the file stores it. *)
Definition le16 (v : Z) : list Z := [v mod 256; v / 256].

(** [_IIGS_HEADER.size]: six 16-bit fields. *)
Definition _IIGS_HEADER_size : Z := 12.

Record header : Type := {
  h_offset : Z;
  family : Z;
  style : Z;
  pointSize : Z;
  version : Z;
  fbrExtent : Z
}.

Definition header_bytes (h : header) : list Z :=
  le16 (h_offset h) ++ le16 (family h) ++ le16 (style h)
  ++ le16 (pointSize h) ++ le16 (version h) ++ le16 (fbrExtent h).

(** What [_save_iigs] writes before the FontRec: the length of the name,
    the name, the IIgs header with [offset = _IIGS_HEADER.size // 2], and,
    if [owt_loc > 0xffff], version 0x0105 and the extended header with the
    high word of [owt_loc]. *)
Definition _save_iigs_head (name : list Z) (family style pointSize fbrExtent : Z)
    (owt_loc : Z) : list Z :=
  let extended := 0xffff <? owt_loc in
  let h := {| h_offset := _IIGS_HEADER_size / 2;
              family := family; style := style; pointSize := pointSize;
              version := if extended then 0x0105 else 0x0101;
              fbrExtent := fbrExtent |} in
  let extra := if extended then le16 (Z.shiftr owt_loc 16) else [] in
  [Z.of_nat (List.length name)] ++ name ++ header_bytes h ++ extra.

Section Load.

(** The reading of a 16-bit field by monobit's struct module, which is not
    among the sources. *)
Variable uint16_from_bytes : list Z -> Z -> result Z.

(** [_load_iigs] up to the call of [_parse_iigs_nfnt]: the offset of the
    FontRec and the high word of [owTLoc] that are handed to it. *)
Definition _load_iigs_head (data : list Z) : result (Z * Z) :=
  (* p-string name *)
  b <- index data 0 ;;
  let offset := b + 1 in
  h_offset <- uint16_from_bytes data offset ;;
  version <- uint16_from_bytes data (offset + 8) ;;
  (* offset given in 16-bit words *)
  let extra := slice data (offset + _IIGS_HEADER_size) (h_offset * 2) in
  let offset := offset + h_offset * 2 in
  (* extended header for IIgs *)
  owTLocHigh <- (if (0x0105 <=? version) && (2 <=? Z.of_nat (List.length extra))
                 then uint16_from_bytes extra 0
                 else Ok 0) ;;
  Ok (offset, owTLocHigh).

End Load.

End IIgs.
(** * Properties *)

(** ** The result monad *)

Lemma index_returns {A} (l : list A) (i : Z) : index l i <> OutOfFuel.
Proof.
  unfold index. cbv zeta.
  destruct (_ || _); [discriminate|].
  destruct (nth_error _ _); discriminate.
Qed.

Lemma fold_min_le (l : list Z) (a : Z) : fold_left Z.min l a <= a.
Proof.
  revert a. induction l as [|x l IH]; intros a; cbn; [lia|].
  specialize (IH (Z.min a x)). lia.
Qed.

Lemma fold_min_lower (l : list Z) (a x : Z) :
  In x l -> fold_left Z.min l a <= x.
Proof.
  revert a. induction l as [|y l IH]; intros a Hin; cbn; [destruct Hin|].
  destruct Hin as [->|Hin]; [|now apply IH].
  pose proof (fold_min_le l (Z.min a x)). lia.
Qed.

Lemma fold_max_ge (l : list Z) (a : Z) : a <= fold_left Z.max l a.
Proof.
  revert a. induction l as [|x l IH]; intros a; cbn; [lia|].
  specialize (IH (Z.max a x)). lia.
Qed.

Lemma fold_max_upper (l : list Z) (a x : Z) :
  In x l -> x <= fold_left Z.max l a.
Proof.
  revert a. induction l as [|y l IH]; intros a Hin; cbn; [destruct Hin|].
  destruct Hin as [->|Hin]; [|now apply IH].
  pose proof (fold_max_ge l (Z.max a x)). lia.
Qed.

(** ** EXEPACK1 *)

Module LXTheory.
Import LX.

(** The first record decides: once its repetition count is not zero the
    unpacker reaches the unbound name. *)
Lemma unpack1_first_record_raises (pBuf : list Z) (b0 b1 b2 b3 : Z) (rest : list Z) :
  pBuf = b0 :: b1 :: b2 :: b3 :: rest ->
  (List.length pBuf <= 4096)%nat ->
  Z.lor b0 (Z.shiftl b1 8) <> 0 ->
  _lx_unpack1 pBuf = Raise (NameError "ofOut").
Proof.
  intros -> Hlen Hreps. unfold _lx_unpack1.
  destruct (Z.of_nat (List.length (b0 :: b1 :: b2 :: b3 :: rest)) >? 4096) eqn:Hbig.
  { apply Z.gtb_lt in Hbig. lia. }
  cbn [unpack1_loop].
  assert (Hix : forall i v, 0 <= i < 4 ->
                 nth_error (b0 :: b1 :: b2 :: b3 :: rest) (Z.to_nat i) = Some v ->
                 index (b0 :: b1 :: b2 :: b3 :: rest) i = Ok v).
  { intros i v Hi Hv. unfold index. cbv zeta.
    destruct (i <? 0) eqn:E1; [apply Z.ltb_lt in E1; lia|].
    rewrite E1.
    destruct (Z.of_nat (List.length (b0 :: b1 :: b2 :: b3 :: rest)) <=? i) eqn:E2.
    { apply Z.leb_le in E2. cbn [List.length] in E2. lia. }
    cbn [orb]. rewrite Hv. reflexivity. }
  rewrite (Hix 0 b0) by (lia || reflexivity).
  rewrite (Hix (0 + 1) b1) by (lia || reflexivity).
  cbn [Py.bind].
  destruct (Z.lor b0 (Z.shiftl b1 8) =? 0) eqn:Hz; [apply Z.eqb_eq in Hz; contradiction|].
  rewrite (Hix (0 + 2) b2) by (lia || reflexivity).
  rewrite (Hix (0 + 2 + 1) b3) by (lia || reflexivity).
  reflexivity.
Qed.

(** Whatever the page, the unpacker never returns an expansion: it returns
    an oversized page unchanged, or nothing at all. *)
Lemma unpack1_returns_nothing (pBuf out : list Z) :
  _lx_unpack1 pBuf = Ok out -> out = pBuf \/ out = [].
Proof.
  unfold _lx_unpack1.
  destruct (Z.of_nat (List.length pBuf) >? 4096); [intros [= <-]; now left|].
  cbn [unpack1_loop]. intros H. right.
  destruct (index pBuf 0) as [lo| |]; cbn [Py.bind] in H; try discriminate.
  destruct (index pBuf (0 + 1)) as [hi| |]; cbn [Py.bind] in H; try discriminate.
  destruct (Z.lor lo (Z.shiftl hi 8) =? 0); [now injection H|].
  destruct (index pBuf (0 + 2)) as [lo'| |]; cbn [Py.bind] in H; try discriminate.
  destruct (index pBuf (0 + 2 + 1)) as [hi'| |]; cbn [Py.bind] in H; discriminate.
Qed.

(** The loop runs within its fuel: whatever the page, the first turn ends
    it. *)
Lemma unpack1_within_fuel (pBuf : list Z) : _lx_unpack1 pBuf <> OutOfFuel.
Proof.
  unfold _lx_unpack1.
  destruct (Z.of_nat (List.length pBuf) >? 4096); [discriminate|].
  cbn [unpack1_loop].
  pose proof (index_returns pBuf 0) as H0.
  destruct (index pBuf 0) as [lo| |]; cbn [Py.bind]; try easy.
  pose proof (index_returns pBuf (0 + 1)) as H1.
  destruct (index pBuf (0 + 1)) as [hi| |]; cbn [Py.bind]; try easy.
  destruct (Z.lor lo (Z.shiftl hi 8) =? 0); [discriminate|].
  pose proof (index_returns pBuf (0 + 2)) as H2.
  destruct (index pBuf (0 + 2)) as [lo'| |]; cbn [Py.bind]; try easy.
  pose proof (index_returns pBuf (0 + 2 + 1)) as H3.
  destruct (index pBuf (0 + 2 + 1)) as [hi'| |]; cbn [Py.bind]; easy.
Qed.

(** C1 (the code departs from the claim).  On the page that holds the record
    (reps 2, len 3, "ABC") and the end record, the format's expansion is
    "ABCABC", but [_lx_unpack1] raises [NameError] for the name [ofOut]
    before it emits a byte. *)
Theorem unpack1_page_abc_raises :
  _lx_unpack1 page_abc = Raise (NameError "ofOut")
  /\ spec_exepack1 (List.length page_abc) page_abc = Some [65; 66; 67; 65; 66; 67].
Proof. split; reflexivity. Qed.

End LXTheory.

(** ** Derived font properties *)

Module FontTheory.
Import FontProps.

(** C9.  For a font with at least one glyph, [pixel_size] is
    [ascent + descent], whatever properties were set: the value is computed
    from [ascent] and [descent] at every access and a set [pixel_size] is
    never consulted. *)
Theorem pixel_size_is_ascent_plus_descent (f : Font) :
  glyphs f <> [] -> pixel_size f = ascent f + descent f.
Proof.
  intros Hne. unfold pixel_size.
  destruct (glyphs f) as [|g gs]; [contradiction|reflexivity].
Qed.

Lemma pixel_size_is_ascent_plus_descent_witness :
  pixel_size one_glyph_font = ascent one_glyph_font + descent one_glyph_font
  /\ pixel_size one_glyph_font = 7.
Proof.
  split.
  - apply (pixel_size_is_ascent_plus_descent one_glyph_font). discriminate.
  - reflexivity.
Defined.

(** In particular a font made by [modify], whatever is set on it: also a
    value given for [pixel_size] itself. *)
Lemma pixel_size_after_modify (f : Font) (gs : list Glyph)
    (kwargs : list (string * Z)) :
  gs <> [] ->
  pixel_size (modify f gs kwargs)
  = ascent (modify f gs kwargs) + descent (modify f gs kwargs).
Proof.
  intros Hne. unfold pixel_size. cbn [modify glyphs].
  destruct gs; [contradiction|reflexivity].
Qed.

(** When neither is set, the font's [shift_up] cancels: the pixel size is
    the largest ink height above the raster bottom minus the smallest bottom
    padding. *)
Lemma pixel_size_derived (f : Font) :
  glyphs f <> [] ->
  lookup "ascent" (props f) = None ->
  lookup "descent" (props f) = None ->
  pixel_size f =
    max_over (map (fun g => height g - top (padding g)) (glyphs f)) 0
    - min_over (map (fun g => bottom (padding g)) (glyphs f)) 0.
Proof.
  intros Hne Ha Hd.
  unfold pixel_size, ascent, descent, writable_property. rewrite Ha, Hd.
  destruct (glyphs f) as [|g gs]; [contradiction|]. lia.
Qed.

(** C10.  A font without glyphs and without a set ascent or descent has
    spacing 'character-cell' and ascent, descent and pixel size 0. *)
Theorem no_glyphs_defaults (f : Font) :
  glyphs f = [] ->
  lookup "ascent" (props f) = None ->
  lookup "descent" (props f) = None ->
  spacing f = "character-cell"%string
  /\ ascent f = 0 /\ descent f = 0 /\ pixel_size f = 0.
Proof.
  intros Hg Ha Hd.
  unfold spacing, ascent, descent, pixel_size, writable_property.
  rewrite Hg, Ha, Hd. repeat split.
Qed.

Lemma no_glyphs_defaults_witness :
  spacing empty_font = "character-cell"%string
  /\ ascent empty_font = 0 /\ descent empty_font = 0
  /\ pixel_size empty_font = 0.
Proof. apply (no_glyphs_defaults empty_font); reflexivity. Defined.

End FontTheory.

(** ** NFNT metrics *)

Module NFNTTheory.
Import NFNT.

Section Metrics.

Variable glyph_bool : Glyph -> bool.
Variable reduce : Glyph -> Glyph.
Variable expand : Glyph -> Z -> Z -> Glyph.
Variable layout : list Glyph -> Z -> result (list Z).

Lemma attr_of_all_some {A} (f : Glyph -> A) (gs : list Glyph) :
  attr_of_all f (map Some gs) = Ok (map f gs).
Proof.
  induction gs as [|g gs IH]; cbn; [reflexivity|].
  rewrite IH. reflexivity.
Qed.

Lemma normalize_all_true (ib : Bounds) (gs : list Glyph) :
  (forall g, In g gs -> glyph_bool g = true) ->
  map (fun g => _normalize_glyph glyph_bool reduce expand g ib) gs
  = map Some (map (normalized reduce expand ib) gs).
Proof.
  induction gs as [|g gs IH]; intros Htrue; cbn; [reflexivity|].
  rewrite IH by (intros g' Hg'; apply Htrue; now right).
  unfold _normalize_glyph at 1. rewrite (Htrue g) by now left.
  reflexivity.
Qed.

(** A glyph object that is false is normalised to [None], and the kerning
    computation then fails on it. *)
Lemma normalize_metrics_false_glyph (ib : Bounds) (gs1 gs2 : list Glyph) (g : Glyph) :
  (forall g', In g' gs1 -> glyph_bool g' = true) ->
  glyph_bool g = false ->
  _normalize_metrics glyph_bool reduce expand (gs1 ++ g :: gs2) ib
  = Raise AttributeError.
Proof.
  intros Htrue Hfalse. unfold _normalize_metrics.
  rewrite map_app. cbn [map].
  rewrite (normalize_all_true ib gs1 Htrue).
  unfold _normalize_glyph at 1. rewrite Hfalse. cbn [negb].
  assert (H : forall l r, attr_of_all left_bearing (map Some l ++ None :: r)
                          = Raise AttributeError).
  { induction l as [|a l IH]; intros r; cbn; [reflexivity|].
    rewrite IH. reflexivity. }
  rewrite H. reflexivity.
Qed.

(** C8.  For a font with glyphs (all of them true as objects), let the
    glyphs be normalised and [kern] be the kerning the writer computes.
    If a normalised glyph has an advance of 255 or more, or an offset
    [left_bearing + kern] of 255 or more, [_normalize_metrics] raises
    [FileFormatError], and so does [_create_nfnt] without laying out a
    resource; otherwise [_normalize_metrics] returns every glyph with its
    [wo_offset] and [wo_width] set. *)
Theorem normalize_metrics_checks (ib : Bounds) (gs : list Glyph) :
  gs <> [] ->
  (forall g, In g gs -> glyph_bool g = true) ->
  let ngs := map (normalized reduce expand ib) gs in
  exists m,
    min_of (map left_bearing ngs) = Ok m /\
    let kern := Z.max 0 (- m) in
    ((exists g, In g ngs /\
                (255 <= advance_width g \/ 255 <= left_bearing g + kern)) ->
     exists msg, _normalize_metrics glyph_bool reduce expand gs ib
                 = Raise (FileFormatError msg)
                 /\ _create_nfnt glyph_bool reduce expand layout gs ib
                    = Raise (FileFormatError msg))
    /\
    ((forall g, In g ngs ->
                advance_width g < 255 /\ left_bearing g + kern < 255) ->
     _normalize_metrics glyph_bool reduce expand gs ib
     = Ok (map (add_metrics kern) ngs, kern)).
Proof.
  intros Hne Htrue ngs.
  assert (Hmin : exists m, min_of (map left_bearing ngs) = Ok m).
  { subst ngs. destruct gs as [|g gs']; [contradiction|]. cbn. now eexists. }
  destruct Hmin as [m Hm]. exists m. split; [exact Hm|].
  intros kern.
  assert (Hrun : _normalize_metrics glyph_bool reduce expand gs ib =
    if existsb (attr_ge_255 wo_width) (map (add_metrics kern) ngs)
    then Raise (FileFormatError "NFNT character width must be < 255")
    else if existsb (attr_ge_255 wo_offset) (map (add_metrics kern) ngs)
    then Raise (FileFormatError "NFNT character offset must be < 255")
    else Ok (map (add_metrics kern) ngs, kern)).
  { unfold _normalize_metrics.
    rewrite (normalize_all_true ib gs Htrue). fold ngs.
    rewrite attr_of_all_some. cbn [Py.bind]. rewrite Hm. cbn [Py.bind].
    rewrite attr_of_all_some. cbn [Py.bind]. reflexivity. }
  unfold _create_nfnt. rewrite Hrun. split.
  - intros (g & Hin & Hbad).
    destruct (existsb (attr_ge_255 wo_width) (map (add_metrics kern) ngs)) eqn:Hw;
      [eexists; split; reflexivity|].
    destruct (existsb (attr_ge_255 wo_offset) (map (add_metrics kern) ngs)) eqn:Ho;
      [eexists; split; reflexivity|].
    exfalso.
    destruct Hbad as [Hbad|Hbad].
    + assert (Hex : existsb (attr_ge_255 wo_width) (map (add_metrics kern) ngs) = true).
      { apply existsb_exists. exists (add_metrics kern g). split.
        - now apply in_map.
        - unfold attr_ge_255. cbn. now apply Z.leb_le. }
      congruence.
    + assert (Hex : existsb (attr_ge_255 wo_offset) (map (add_metrics kern) ngs) = true).
      { apply existsb_exists. exists (add_metrics kern g). split.
        - now apply in_map.
        - unfold attr_ge_255. cbn. now apply Z.leb_le. }
      congruence.
  - intros Hfit.
    destruct (existsb (attr_ge_255 wo_width) (map (add_metrics kern) ngs)) eqn:Hw.
    { apply existsb_exists in Hw. destruct Hw as (g' & Hin & Hge).
      apply in_map_iff in Hin. destruct Hin as (g & <- & Hin).
      unfold attr_ge_255 in Hge. cbn in Hge. apply Z.leb_le in Hge.
      destruct (Hfit g Hin). lia. }
    destruct (existsb (attr_ge_255 wo_offset) (map (add_metrics kern) ngs)) eqn:Ho.
    { apply existsb_exists in Ho. destruct Ho as (g' & Hin & Hge).
      apply in_map_iff in Hin. destruct Hin as (g & <- & Hin).
      unfold attr_ge_255 in Hge. cbn in Hge. apply Z.leb_le in Hge.
      destruct (Hfit g Hin). lia. }
    reflexivity.
Qed.

End Metrics.

(** A glyph with a narrow advance, and a wide one, through the checks. *)
Lemma normalize_metrics_checks_witness :
  _normalize_metrics always_true keep keep_rows [narrow_glyph] sample_bounds
    = Ok ([modify_wo narrow_glyph 0 6], 1)
  /\ exists msg,
       _create_nfnt always_true keep keep_rows no_layout
         [narrow_glyph; wide_glyph] sample_bounds
       = Raise (FileFormatError msg).
Proof.
  split.
  - destruct (normalize_metrics_checks always_true keep keep_rows no_layout
                sample_bounds [narrow_glyph])
      as (m & Hm & _ & Hok); [discriminate|reflexivity|].
    injection Hm as <-. apply Hok.
    intros g [<-|[]]. cbn. lia.
  - destruct (normalize_metrics_checks always_true keep keep_rows no_layout
                sample_bounds [narrow_glyph; wide_glyph])
      as (m & Hm & Hbad & _); [discriminate|reflexivity|].
    destruct Hbad as (msg & _ & Hmsg).
    + exists wide_glyph. split; [right; now left|left; cbn; lia].
    + now exists msg.
Defined.

End NFNTTheory.


(** ** Windows FNT *)

Module WinFntTheory.
Import WinFnt.

Lemma range_In (a b x : Z) : In x (range a b) <-> a <= x < b.
Proof.
  unfold range. rewrite in_map_iff. split.
  - intros (k & <- & Hk). apply in_seq in Hk. lia.
  - intros Hx. exists (Z.to_nat (x - a)). split; [lia|].
    apply in_seq. lia.
Qed.

Lemma range_length (a b : Z) : List.length (range a b) = Z.to_nat (b - a).
Proof. unfold range. now rewrite length_map, length_seq. Qed.

(** What a [for] loop that appends collects: the glyphs its body yields. *)
Lemma collect_In {A B} (body : A -> result (option B)) (l : list A) :
  forall out, collect body l = Ok out ->
  forall g, In g out <-> exists a, In a l /\ body a = Ok (Some g).
Proof.
  induction l as [|a l IH]; intros out H g; cbn in H.
  - injection H as <-. split; [intros []|intros (? & [] & _)].
  - destruct (body a) as [o| |] eqn:Ha; cbn in H; try discriminate.
    destruct (collect body l) as [rest| |] eqn:Hr; cbn in H; try discriminate.
    injection H as <-. specialize (IH rest eq_refl g).
    destruct o as [g0|].
    + split.
      * intros [<-|Hin]; [exists a; split; [now left|assumption]|].
        apply IH in Hin. destruct Hin as (a' & Hin & Hb).
        exists a'. split; [now right|assumption].
      * intros (a' & [<-|Hin] & Hb).
        -- rewrite Ha in Hb. injection Hb as <-. now left.
        -- right. apply IH. now exists a'.
    + split.
      * intros Hin. apply IH in Hin. destruct Hin as (a' & Hin & Hb).
        exists a'. split; [now right|assumption].
      * intros (a' & [<-|Hin] & Hb); [rewrite Ha in Hb; discriminate|].
        apply IH. now exists a'.
Qed.

Lemma mem_keep_empty (ord : Z) :
  mem ord _KEEP_EMPTY = true -> ord = 0x00 \/ ord = 0x20.
Proof.
  unfold mem, _KEEP_EMPTY. cbn [existsb]. rewrite !orb_true_iff.
  intros [H|[H|H]]; [left|right|discriminate]; now apply Z.eqb_eq in H.
Qed.

(** The version 2 and 3 reader keeps a character with a width, and keeps
    one whose bytes are all zero only at NUL and SPACE. *)
Lemma v2_body_kept (fnt : list Z) (h : Z) (oe : Z * glyph_entry) (k : kept_char) :
  v2_body fnt h oe = Ok (Some k) ->
  k_ord k = fst oe /\ k_width k <> 0 /\
  (forallb (Z.eqb 0) (k_data k) = true -> k_ord k = 0x00 \/ k_ord k = 0x20).
Proof.
  destruct oe as [ord entry]. unfold v2_body.
  destruct (geWidth entry =? 0) eqn:Hw; [discriminate|].
  apply Z.eqb_neq in Hw.
  destruct (v2_glyph_data fnt h entry) as [data| |]; cbn [Py.bind]; try discriminate.
  destruct (existsb (fun c => negb (c =? 0)) data || mem ord _KEEP_EMPTY) eqn:Hkeep;
    [|discriminate].
  intros [= <-]. cbn. repeat split; [assumption|].
  intros Hzero. apply mem_keep_empty.
  apply orb_true_iff in Hkeep. destruct Hkeep as [Hink|Hk]; [|assumption].
  exfalso. apply existsb_exists in Hink. destruct Hink as (c & Hin & Hc).
  rewrite forallb_forall in Hzero. specialize (Hzero c Hin).
  apply Z.eqb_eq in Hzero. subst c. discriminate.
Qed.

(** The version 1 reader, for a font with at least one row: a character is
    kept exactly when its width is not zero. *)
Lemma v1_body_kept (p : win_props) (offsets : list Z) (rows : list (list bool))
    (ord o1 o2 : Z) :
  rows <> [] ->
  index offsets ord = Ok o1 ->
  index offsets (ord + 1) = Ok o2 ->
  v1_body p offsets rows ord =
    if o2 - o1 =? 0 then Ok None
    else Ok (Some {| pixels := map (fun r => slice r o1 (o1 + (o2 - o1))) rows;
                     codepoint := Some (dfFirstChar p + ord) |}).
Proof.
  intros Hrows H1 H2. unfold v1_body. rewrite H1, H2. cbn [Py.bind].
  destruct (o2 - o1 =? 0); [reflexivity|].
  rewrite length_map.
  destruct rows as [|r rows']; [contradiction|]. reflexivity.
Qed.

Lemma v1_strikerows_nonempty (fnt : list Z) (p : win_props) :
  0 < dfPixHeight p -> v1_strikerows fnt p <> [].
Proof.
  intros Hh Hnil. apply (f_equal (@List.length _)) in Hnil.
  unfold v1_strikerows in Hnil. rewrite length_map, range_length in Hnil.
  cbn in Hnil. lia.
Qed.

(** C3 as stated fails for version 1: the blank strike of character 0x42 is
    decoded to a glyph without ink, and the glyph stays in the font. *)
Lemma v1_blank_glyph_is_kept :
  ~ (forall gs g,
       parse_fnt v1_fnt = Ok gs -> In g gs ->
       no_ink g = true ->
       codepoint g = Some 0x00 \/ codepoint g = Some 0x20).
Proof.
  intros H.
  specialize (H [ {| pixels := [[true; true; true; true; true; true; true; true];
                                [true; false; false; false; false; false; false; true]];
                     codepoint := Some 65 |};
                  {| pixels := [repeat false 8; repeat false 8];
                     codepoint := Some 66 |} ]
                {| pixels := [repeat false 8; repeat false 8];
                   codepoint := Some 66 |}
                eq_refl (or_intror (or_introl eq_refl)) eq_refl).
  destruct H as [H|H]; discriminate.
Qed.

(** What the character-table readers keep:
    - version 2 or 3: the glyphs are those of the kept characters; each has
      a width, and one whose stored bitmap bytes are all zero is at
      codepoint 0x00 or 0x20;
    - version 1, with at least one pixel row: a character whose width in
      the offset table is zero gives no glyph, and a character whose width
      is not zero gives a glyph cut from the strike, with or without ink. *)
Lemma parse_chartable_kept (fnt : list Z) (p : win_props) (gs : list Glyph) :
  _parse_chartable fnt p = Ok gs ->
  (dfVersion p <> 0x100 ->
   exists ks,
     v2_kept fnt p = Ok ks /\ gs = map glyph_of_kept ks /\
     forall k, In k ks ->
       codepoint (glyph_of_kept k) = Some (k_ord k) /\
       k_width k <> 0 /\
       (forallb (Z.eqb 0) (k_data k) = true -> k_ord k = 0x00 \/ k_ord k = 0x20))
  /\
  (dfVersion p = 0x100 -> 0 < dfPixHeight p ->
   exists offsets,
     v1_offsets fnt p (dfLastChar p - dfFirstChar p + 1) = Ok offsets /\
     forall ord o1 o2,
       0 <= ord < dfLastChar p - dfFirstChar p + 1 ->
       index offsets ord = Ok o1 -> index offsets (ord + 1) = Ok o2 ->
       (o2 = o1 -> forall g, In g gs -> codepoint g <> Some (dfFirstChar p + ord))
       /\
       (o2 <> o1 ->
        In {| pixels := map (fun r => slice r o1 o2) (v1_strikerows fnt p);
              codepoint := Some (dfFirstChar p + ord) |} gs)).
Proof.
  intros Hrun. unfold _parse_chartable in Hrun. split.
  - intros Hv. apply Z.eqb_neq in Hv. rewrite Hv in Hrun.
    unfold _parse_chartable_v2 in Hrun.
    destruct (v2_kept fnt p) as [ks| |] eqn:Hk; cbn [Py.bind] in Hrun; try discriminate.
    injection Hrun as <-. exists ks. repeat split; try reflexivity.
    + unfold v2_kept in Hk.
      destruct (from_buffer_copy _ _ _ _ _) as [entries| |]; cbn [Py.bind] in Hk;
        try discriminate.
      apply (collect_In _ _ _ Hk) in H. destruct H as (oe & _ & Hb).
      now apply v2_body_kept in Hb.
    + unfold v2_kept in Hk.
      destruct (from_buffer_copy _ _ _ _ _) as [entries| |]; cbn [Py.bind] in Hk;
        try discriminate.
      apply (collect_In _ _ _ Hk) in H. destruct H as (oe & _ & Hb).
      now apply v2_body_kept in Hb.
  - intros Hv Hh. apply Z.eqb_eq in Hv. rewrite Hv in Hrun.
    unfold _parse_chartable_v1 in Hrun.
    destruct (v1_offsets fnt p _) as [offsets| |]; cbn [Py.bind] in Hrun;
      try discriminate.
    exists offsets. split; [reflexivity|].
    intros ord o1 o2 Hord H1 H2.
    pose proof (v1_strikerows_nonempty fnt p Hh) as Hrows.
    split.
    + intros -> g Hin Hcp.
      apply (collect_In _ _ _ Hrun) in Hin. destruct Hin as (ord' & Hin' & Hb).
      apply range_In in Hin'.
      assert (ord' = ord).
      { unfold v1_body in Hb.
        destruct (index offsets ord') as [a| |]; cbn [Py.bind] in Hb; try discriminate.
        destruct (index offsets (ord' + 1)) as [b| |]; cbn [Py.bind] in Hb;
          try discriminate.
        destruct (b - a =? 0); [discriminate|].
        destruct (_ || _); [|discriminate].
        injection Hb as <-. cbn in Hcp. injection Hcp as Hcp. lia. }
      subst ord'.
      rewrite (v1_body_kept p offsets _ ord o1 o1 Hrows H1 H2) in Hb.
      rewrite Z.sub_diag in Hb. discriminate.
    + intros Hne.
      apply (collect_In _ _ _ Hrun). exists ord. split; [apply range_In; lia|].
      rewrite (v1_body_kept p offsets _ ord o1 o2 Hrows H1 H2).
      destruct (o2 - o1 =? 0) eqn:Hz; [apply Z.eqb_eq in Hz; lia|].
      replace (o1 + (o2 - o1)) with o2 by lia. reflexivity.
Qed.

Lemma parse_fnt_chartable (fnt : list Z) (gs : list Glyph) :
  parse_fnt fnt = Ok gs ->
  exists p type flags,
    _parse_header fnt = Ok (p, type, flags) /\ _parse_chartable fnt p = Ok gs.
Proof.
  unfold parse_fnt. intros H.
  destruct (_parse_header fnt) as [[[p type] flags]| |]; cbn [Py.bind] in H;
    try discriminate.
  destruct (_parse_win_props_checks _ _ _); cbn [Py.bind] in H; try discriminate.
  now exists p, type, flags.
Qed.

(** C3, amended.  For a resource that [parse_fnt] decodes, with the header
    fields [p]:
    - version 2 or 3: the font's glyphs are those of the kept characters;
      each has a width, and one whose stored bitmap bytes are all zero is
      at codepoint 0x00 or 0x20;
    - version 1, with at least one pixel row: a character whose width in
      the offset table is zero gives no glyph, and a character whose width
      is not zero gives a glyph cut from the strike, with or without ink. *)
Theorem chartable_empty_glyphs (fnt : list Z) (gs : list Glyph) :
  parse_fnt fnt = Ok gs ->
  exists p type flags,
  _parse_header fnt = Ok (p, type, flags) /\
  (dfVersion p <> 0x100 ->
   exists ks,
     v2_kept fnt p = Ok ks /\ gs = map glyph_of_kept ks /\
     forall k, In k ks ->
       codepoint (glyph_of_kept k) = Some (k_ord k) /\
       k_width k <> 0 /\
       (forallb (Z.eqb 0) (k_data k) = true -> k_ord k = 0x00 \/ k_ord k = 0x20))
  /\
  (dfVersion p = 0x100 -> 0 < dfPixHeight p ->
   exists offsets,
     v1_offsets fnt p (dfLastChar p - dfFirstChar p + 1) = Ok offsets /\
     forall ord o1 o2,
       0 <= ord < dfLastChar p - dfFirstChar p + 1 ->
       index offsets ord = Ok o1 -> index offsets (ord + 1) = Ok o2 ->
       (o2 = o1 -> forall g, In g gs -> codepoint g <> Some (dfFirstChar p + ord))
       /\
       (o2 <> o1 ->
        In {| pixels := map (fun r => slice r o1 o2) (v1_strikerows fnt p);
              codepoint := Some (dfFirstChar p + ord) |} gs)).
Proof.
  intros H. destruct (parse_fnt_chartable fnt gs H) as (p & type & flags & Hh & Hc).
  exists p, type, flags. split; [exact Hh|].
  exact (parse_chartable_kept fnt p gs Hc).
Qed.

(** The version 2 sample: the blank character 0x42 is dropped; and the
    version 1 sample: the blank character 0x42 is kept. *)
Lemma chartable_empty_glyphs_witness :
  (exists ks,
     v2_kept v2_fnt v2_props = Ok ks /\
     forall k, In k ks ->
       forallb (Z.eqb 0) (k_data k) = true -> k_ord k = 0x00 \/ k_ord k = 0x20)
  /\ exists gs,
       parse_fnt v1_fnt = Ok gs /\
       In {| pixels := [repeat false 8; repeat false 8]; codepoint := Some 0x42 |} gs.
Proof.
  split.
  - destruct (chartable_empty_glyphs v2_fnt
                [glyph_of_kept {| k_ord := 65; k_width := 8; k_data := [255; 129] |}]
                eq_refl) as (p & type & flags & Hh & H2 & _).
    injection Hh as <- _ _.
    destruct H2 as (ks & Hks & _ & Hall); [discriminate|].
    exists ks. split; [exact Hks|].
    intros k Hin. now apply Hall.
  - eexists. split; [reflexivity|].
    destruct (chartable_empty_glyphs v1_fnt _ eq_refl)
      as (p & type & flags & Hh & _ & H1).
    injection Hh as <- _ _.
    destruct H1 as (offsets & Hoff & Hords); [reflexivity|reflexivity|].
    injection Hoff as <-.
    exact (proj2 (Hords 1 8 16 ltac:(cbn; lia) eq_refl eq_refl) ltac:(lia)).
Defined.

(** With [Glyph.from_bytes] as the spec describes it, the version 2 and 3
    test on the stored bytes is weaker than a test on the pixels: a glyph of
    4 by 2 pixels stored as the bytes 0x0F, 0x0F has no ink, and is kept at
    codepoint 0x41 because the bits beyond its width are set. *)
Lemma v2_padding_bits_keep_blank_glyph :
  parse_fnt v2_padded_fnt
  = Ok [{| pixels := [repeat false 4; repeat false 4]; codepoint := Some 0x41 |}].
Proof. reflexivity. Qed.

(** *** The character range of the writer *)

Lemma dict_get_set (d : list (Z * nat)) (k k' : Z) (v : nat) :
  dict_get (dict_set d k v) k' = if k =? k' then Some v else dict_get d k'.
Proof.
  induction d as [|[k0 v0] d IH]; cbn.
  - reflexivity.
  - destruct (k0 =? k) eqn:E0; cbn.
    + apply Z.eqb_eq in E0. subst k0.
      destruct (k =? k'); reflexivity.
    + destruct (k0 =? k') eqn:E1.
      * apply Z.eqb_eq in E1. subst k0. rewrite Z.eqb_sym, E0. reflexivity.
      * apply IH.
Qed.

Lemma dict_set_keys (d : list (Z * nat)) (k c : Z) (v : nat) :
  In c (map fst (dict_set d k v)) <-> c = k \/ In c (map fst d).
Proof.
  induction d as [|[k0 v0] d IH]; cbn.
  - intuition.
  - destruct (k0 =? k) eqn:E0; cbn.
    + apply Z.eqb_eq in E0. subst k0. intuition.
    + rewrite IH. intuition.
Qed.

(** The keys of the table are the codepoints of the glyphs. *)
Lemma build_codepoints_keys (gs : list Glyph) (i : nat) (d : list (Z * nat)) (c : Z) :
  In c (map fst (build_codepoints gs i d)) <->
  In c (map fst d) \/ exists g, In g gs /\ codepoint g = Some c.
Proof.
  revert i d. induction gs as [|g gs IH]; intros i d; cbn.
  - split; [now left|]. intros [H|(? & [] & _)]. exact H.
  - rewrite IH. destruct (codepoint g) as [cp|] eqn:Hcp.
    + rewrite dict_set_keys. split.
      * intros [[->|H]|(g' & Hin & Hg')].
        -- right. exists g. split; [now left|assumption].
        -- now left.
        -- right. exists g'. split; [now right|assumption].
      * intros [H|(g' & [<-|Hin] & Hg')].
        -- left. now right.
        -- left. left. congruence.
        -- right. now exists g'.
    + split.
      * intros [H|(g' & Hin & Hg')]; [now left|].
        right. exists g'. split; [now right|assumption].
      * intros [H|(g' & [<-|Hin] & Hg')]; [now left|congruence|].
        right. now exists g'.
Qed.

(** Every entry of the table points at a glyph with that codepoint. *)
Lemma build_codepoints_sound (pre gs : list Glyph) (d : list (Z * nat)) :
  (forall k v, dict_get d k = Some v ->
     exists g, nth_error (pre ++ gs) v = Some g /\ codepoint g = Some k) ->
  forall k v, dict_get (build_codepoints gs (List.length pre) d) k = Some v ->
     exists g, nth_error (pre ++ gs) v = Some g /\ codepoint g = Some k.
Proof.
  revert pre d. induction gs as [|g gs IH]; intros pre d Hd k v; cbn.
  - apply Hd.
  - replace (S (List.length pre)) with (List.length (pre ++ [g]))
      by (rewrite length_app; cbn; lia).
    replace (pre ++ g :: gs) with ((pre ++ [g]) ++ gs) in *
      by (rewrite <- app_assoc; reflexivity).
    apply IH. intros k' v'.
    destruct (codepoint g) as [cp|] eqn:Hcp; [|apply Hd].
    rewrite dict_get_set. destruct (cp =? k') eqn:E; [|apply Hd].
    apply Z.eqb_eq in E. subst k'. intros [= <-].
    exists g. split; [|assumption].
    rewrite <- app_assoc. cbn. rewrite nth_error_app2 by lia.
    now rewrite Nat.sub_diag.
Qed.

Lemma get_codepoints_spec (gs : list Glyph) (c : Z) :
  In c (get_codepoints gs) <-> exists g, In g gs /\ codepoint g = Some c.
Proof.
  unfold get_codepoints, _codepoints. rewrite build_codepoints_keys. cbn.
  intuition.
Qed.









End WinFntTheory.

(** ** BMFont *)

Module BMFontTheory.
Import BMFont.

(** *** Ink and paper *)

Lemma two_elements {A} (l : list A) (a b : A) :
  NoDup l -> a <> b -> (forall t, In t l <-> t = a \/ t = b) ->
  l = [a; b] \/ l = [b; a].
Proof.
  intros Hnd Hab Hel.
  assert (Ha : In a l) by (apply Hel; now left).
  assert (Hb : In b l) by (apply Hel; now right).
  destruct l as [|u [|v [|w r]]].
  - destruct Ha.
  - destruct Ha as [<-|[]]. destruct Hb as [<-|[]]. contradiction.
  - inversion Hnd as [|? ? Hnotin _]; subst.
    assert (Huv : u <> v) by (intros ->; apply Hnotin; now left).
    destruct (proj1 (Hel u) (or_introl eq_refl)) as [-> | ->];
      destruct (proj1 (Hel v) (or_intror (or_introl eq_refl))) as [-> | ->];
      try contradiction; [now left|now right].
  - exfalso.
    inversion Hnd as [|? ? Hnu Hnd']; subst.
    inversion Hnd' as [|? ? Hnv _]; subst.
    assert (Huv : u <> v) by (intros ->; apply Hnu; now left).
    assert (Huw : u <> w) by (intros ->; apply Hnu; right; now left).
    assert (Hvw : v <> w) by (intros ->; apply Hnv; now left).
    destruct (proj1 (Hel u) (or_introl eq_refl)) as [-> | ->];
      destruct (proj1 (Hel v) (or_intror (or_introl eq_refl))) as [-> | ->];
      destruct (proj1 (Hel w) (or_intror (or_intror (or_introl eq_refl)))) as [-> | ->];
      contradiction.
Qed.

(** Any enumeration of a set has as many elements as the set. *)
Lemma enumeration_length (to_list : list tuple -> list tuple) (cs : list tuple) :
  NoDup (to_list cs) -> (forall t, In t (to_list cs) <-> In t cs) ->
  List.length (to_list cs) = List.length (nodup tuple_eq_dec cs).
Proof.
  intros Hnd Hel. apply Nat.le_antisymm.
  - apply NoDup_incl_length; [assumption|].
    intros t Ht. apply nodup_In. now apply Hel.
  - apply NoDup_incl_length; [apply NoDup_nodup|].
    intros t Ht. apply Hel. now apply nodup_In in Ht.
Qed.

Lemma pick_colours_many (l : list tuple) :
  (2 < List.length l)%nat ->
  pick_colours l = Raise (ValueError "Greyscale, colour and antialiased fonts not supported.").
Proof.
  destruct l as [|u [|v [|w r]]]; cbn; try lia. reflexivity.
Qed.

Lemma pick_colours_two (a b : tuple) :
  Py.sum a < Py.sum b ->
  pick_colours [a; b] = Ok {| bg := Some a; fg := Some (Some b) |}
  /\ pick_colours [b; a] = Ok {| bg := Some a; fg := Some (Some b) |}.
Proof.
  intros Hlt. unfold pick_colours. split.
  - destruct (Py.sum a >? Py.sum b) eqn:E; [apply Z.gtb_lt in E; lia|reflexivity].
  - destruct (Py.sum b >? Py.sum a) eqn:E; [reflexivity|].
    rewrite Z.gtb_ltb, Z.ltb_ge in E. lia.
Qed.

Lemma first_seen_enumerates (l : list tuple) :
  NoDup (first_seen l) /\ forall t, In t (first_seen l) <-> In t l.
Proof.
  unfold first_seen. split.
  - apply NoDup_rev, NoDup_nodup.
  - intros t. rewrite <- in_rev, nodup_In, <- in_rev. reflexivity.
Qed.

(** C4 as stated fails: of black and white, the darker would be the ink;
    but the reader makes white the ink and black the paper, in whichever
    order the set gives the two, and a sprite with a black and a white
    pixel is read as a blank pixel followed by an inked one. *)
Lemma darker_tuple_is_paper :
  Py.sum black < Py.sum white /\
  ~ (exists c, pick_colours [black; white] = Ok c /\ fg c = Some (Some black)) /\
  ~ (exists c, pick_colours [white; black] = Ok c /\ fg c = Some (Some black)) /\
  exists e,
    _extract first_seen [(0, black_on_white)] glyph_channels [char_two_pixels] = Ok e
    /\ map pixels (glyphs e) = [[[false; true]]].
Proof.
  split; [reflexivity|]. split; [|split].
  - intros (c & Hc & Hfg). vm_compute in Hc. injection Hc as <-. discriminate.
  - intros (c & Hc & Hfg). vm_compute in Hc. injection Hc as <-. discriminate.
  - eexists. split; [vm_compute; reflexivity|reflexivity].
Qed.

Lemma extract_sprites_length (sheets : list (Z * image)) (common : Common)
    (chars : list Char) :
  forall sprites, extract_sprites sheets common chars = Ok sprites ->
  List.length sprites = List.length chars.
Proof.
  induction chars as [|c cs IH]; intros sprites H; cbn in H.
  - now injection H as <-.
  - destruct (sheet_of sheets (page c)); cbn [Py.bind] in H; try discriminate.
    destruct (extract_sprites sheets common cs) as [rest| |]; cbn [Py.bind] in H;
      try discriminate.
    injection H as <-. cbn. f_equal. now apply IH.
Qed.

Lemma extract_glyphs_loop_nth (cols : colours) (mb ma mh : Z)
    (cs : list (Char * list tuple)) :
  forall n gs i c sprite g,
    extract_glyphs_loop cols mb ma mh n cs = Ok gs ->
    nth_error cs i = Some (c, sprite) -> nth_error gs i = Some g ->
    extract_glyph cols mb ma mh (n + Z.of_nat i) c sprite = Ok g.
Proof.
  induction cs as [|[c0 s0] cs IH]; intros n gs i c sprite g H Hc Hg.
  - destruct i; discriminate.
  - cbn in H.
    destruct (extract_glyph cols mb ma mh n c0 s0) as [g0| |] eqn:Hg0;
      cbn [Py.bind] in H; try discriminate.
    destruct (extract_glyphs_loop cols mb ma mh (n + 1) cs) as [rest| |] eqn:Hr;
      cbn [Py.bind] in H; try discriminate.
    injection H as <-. destruct i as [|i]; cbn in Hc, Hg.
    + injection Hc as -> ->. injection Hg as <-.
      now rewrite Z.add_0_r.
    + replace (n + Z.of_nat (S i)) with (n + 1 + Z.of_nat i) by lia.
      eapply IH; eauto.
Qed.

Lemma nth_error_combine {A B} (l1 : list A) (l2 : list B) (k : nat) (a : A) (b : B) :
  nth_error l1 k = Some a -> nth_error l2 k = Some b ->
  nth_error (combine l1 l2) k = Some (a, b).
Proof.
  revert l1 l2. induction k as [|k IH]; intros [|x l1] [|y l2] H1 H2;
    try discriminate; cbn in *.
  - congruence.
  - now apply IH.
Qed.

Lemma tuple_eqb_eq (a b : tuple) : tuple_eqb a b = true <-> a = b.
Proof.
  unfold tuple_eqb. revert b.
  induction a as [|u a IH]; intros [|v b]; cbn;
    try (split; [reflexivity|reflexivity]);
    try (split; discriminate).
  rewrite andb_true_iff, andb_true_iff, Z.eqb_eq. split.
  - intros (Hlen & Huv & Hall). subst v. f_equal.
    apply IH. apply andb_true_iff. now split.
  - intros H. injection H as -> ->.
    destruct (proj1 (andb_true_iff _ _) (proj2 (IH b) eq_refl)) as [Hlen Hall].
    now repeat split.
Qed.

(** With [fg] bound, the body of the glyph loop returns; for a record with
    a box, the raster handed to [Glyph] is the sprite compared with [fg],
    tuple by tuple. *)
Lemma extract_glyph_inked (cols : colours) (fgv : option tuple)
    (mb ma mh n : Z) (c : Char) (sprite : list tuple) :
  fg cols = Some fgv ->
  exists g,
    extract_glyph cols mb ma mh n c sprite = Ok g /\
    (width c <> 0 -> height c <> 0 ->
     g = set_annotations
           (expand {| pixels := chunks (List.length (map (is_fg fgv) sprite))
                                       (Z.to_nat (width c))
                                       (map (is_fg fgv) sprite);
                      codepoint := None |}
                   (xoffset c - mb) (yoffset c)
                   (xadvance c - xoffset c - width c - ma)
                   (mh - (height c + yoffset c)))
           n).
Proof.
  intros Hfg. unfold extract_glyph. rewrite Hfg.
  destruct (width c =? 0) eqn:Ew; [|destruct (height c =? 0) eqn:Eh];
    cbn [negb andb Py.bind].
  - eexists. split; [reflexivity|]. intros Hw. apply Z.eqb_eq in Ew. contradiction.
  - eexists. split; [reflexivity|]. intros _ Hh. apply Z.eqb_eq in Eh. contradiction.
  - destruct sprite as [|t sprite]; cbn [read_name Py.bind];
      eexists; (split; [reflexivity|]); intros _ _; reflexivity.
Qed.

Lemma extract_glyphs_loop_inked (cols : colours) (fgv : option tuple)
    (mb ma mh : Z) (cs : list (Char * list tuple)) :
  fg cols = Some fgv ->
  forall n, exists gs,
    extract_glyphs_loop cols mb ma mh n cs = Ok gs
    /\ List.length gs = List.length cs.
Proof.
  intros Hfg. induction cs as [|[c sprite] cs IH]; intros n; cbn [extract_glyphs_loop].
  - now exists [].
  - destruct (extract_glyph_inked cols fgv mb ma mh n c sprite Hfg) as (g & -> & _).
    destruct (IH (n + 1)) as (gs & -> & Hlen). cbn [Py.bind].
    exists (g :: gs). split; [reflexivity|]. cbn. now rewrite Hlen.
Qed.

Lemma Forall2_map_of {A B} (P : A -> B -> Prop) (f : A -> B) (l : list A) :
  (forall t, In t l -> P t (f t)) -> Forall2 P l (map f l).
Proof.
  induction l as [|t l IH]; intros H; cbn; constructor.
  - apply H. now left.
  - apply IH. intros u Hu. apply H. now right.
Qed.

(** C4, amended.  With the masked sprites taken from the sheets and the
    distinct tuples enumerated in any order: if there are more than two
    distinct tuples the reader fails with [ValueError]; if there are exactly
    two and their channel sums differ, the tuple with the larger sum (the
    brighter one) is the ink and the other the paper: [fg] is the brighter
    tuple, the reader returns a glyph for every char record, and in the
    raster [bits] from which the glyph of a record with a box is made
    ([bits = _c == fg], chunked by the record's width and then padded by
    [expand]) a pixel is set exactly where the sprite has the brighter
    tuple and clear exactly where it has the darker one. *)
Theorem colourset_choice (to_list : list tuple -> list tuple)
    (sheets : list (Z * image)) (common : Common) (chars : list Char)
    (sprites : list (list tuple)) :
  (forall l, NoDup (to_list l) /\ forall t, In t (to_list l) <-> In t l) ->
  chars <> [] ->
  extract_sprites sheets common chars = Ok sprites ->
  ((2 < List.length (nodup tuple_eq_dec (concat sprites)))%nat ->
     exists msg, _extract to_list sheets common chars = Raise (ValueError msg))
  /\
  (forall a b,
     (forall t, In t (concat sprites) <-> t = a \/ t = b) ->
     Py.sum a < Py.sum b ->
     pick_colours (to_list (concat sprites))
     = Ok {| bg := Some a; fg := Some (Some b) |}
     /\
     exists e,
       _extract to_list sheets common chars = Ok e
       /\ List.length (glyphs e) = List.length chars
       /\ forall i c sprite g,
            nth_error chars i = Some c ->
            nth_error sprites i = Some sprite ->
            nth_error (glyphs e) i = Some g ->
            width c <> 0 -> height c <> 0 ->
            exists bits,
              Forall2 (fun t bit => (bit = true <-> t = b) /\ (bit = false <-> t = a))
                      sprite bits
              /\ g = set_annotations
                       (expand {| pixels := chunks (List.length bits)
                                                   (Z.to_nat (width c)) bits;
                                  codepoint := None |}
                               (xoffset c - offset_x e) (yoffset c)
                               (xadvance c - xoffset c - width c - tracking e)
                               (base common - offset_y e - (height c + yoffset c)))
                       (Z.of_nat i)).
Proof.
  intros Henum Hne Hsprites. split.
  - intros Hmany.
    destruct (Henum (concat sprites)) as [Hnd Hel].
    pose proof (enumeration_length to_list _ Hnd Hel) as Hlen.
    unfold _extract. destruct chars as [|c r]; [contradiction|].
    cbn [map min_of max_of Py.bind]. rewrite Hsprites. cbn [Py.bind].
    rewrite pick_colours_many by lia. now eexists.
  - intros a b Hel Hlt.
    destruct (Henum (concat sprites)) as [Hnd Hel'].
    assert (Hab : a <> b) by (intros ->; lia).
    assert (Hpick : pick_colours (to_list (concat sprites))
                    = Ok {| bg := Some a; fg := Some (Some b) |}).
    { destruct (two_elements (to_list (concat sprites)) a b Hnd Hab) as [-> | ->].
      - intros t. rewrite Hel'. apply Hel.
      - now apply pick_colours_two.
      - now apply pick_colours_two. }
    split; [exact Hpick|].
    pose proof (extract_sprites_length _ _ _ _ Hsprites) as Hslen.
    unfold _extract. destruct chars as [|c0 r] eqn:Hchars; [contradiction|].
    rewrite <- Hchars in *.
    assert (Hmin : exists ma mb mh,
               min_of (map (fun c => xadvance c - xoffset c - width c) chars) = Ok ma
               /\ min_of (map xoffset chars) = Ok mb
               /\ max_of (map (fun c => height c + yoffset c) chars) = Ok mh).
    { rewrite Hchars. cbn [map min_of max_of]. now eexists; eexists; eexists. }
    destruct Hmin as (ma & mb & mh & -> & -> & ->). cbn [Py.bind].
    rewrite Hsprites. cbn [Py.bind]. rewrite Hpick. cbn [Py.bind].
    destruct (extract_glyphs_loop_inked
                {| bg := Some a; fg := Some (Some b) |} (Some b) mb ma mh
                (combine chars sprites) eq_refl 0) as (gs & Hgs & Hglen).
    rewrite Hgs. cbn [Py.bind].
    eexists. split; [reflexivity|]. cbn [glyphs tracking offset_x offset_y].
    split.
    { rewrite Hglen, length_combine, Hslen. apply Nat.min_id. }
    intros i c sprite g Hc Hs Hg Hw Hh.
    pose proof (extract_glyphs_loop_nth _ _ _ _ _ _ _ _ _ _ _ Hgs
                  (nth_error_combine chars sprites i c sprite Hc Hs) Hg) as Hone.
    destruct (extract_glyph_inked {| bg := Some a; fg := Some (Some b) |} (Some b)
                mb ma mh (0 + Z.of_nat i) c sprite eq_refl) as (g' & Hg' & Hshape).
    rewrite Hone in Hg'. injection Hg' as <-.
    exists (map (is_fg (Some b)) sprite). split.
    + apply Forall2_map_of. intros t Ht. cbn [is_fg].
      assert (Hin : In t (concat sprites)).
      { apply in_concat. exists sprite. split; [|exact Ht].
        eapply nth_error_In; eassumption. }
      destruct (tuple_eqb t b) eqn:E.
      * apply tuple_eqb_eq in E. subst t. split; split; try reflexivity;
          try discriminate. intros ->. contradiction.
      * assert (Hnb : t <> b).
        { intros ->. rewrite (proj2 (tuple_eqb_eq b b) eq_refl) in E. discriminate. }
        apply Hel in Hin. destruct Hin as [-> | ->]; [|contradiction].
        split; split; try reflexivity; try discriminate. intros ->. contradiction.
    + rewrite (Hshape Hw Hh). f_equal. f_equal; lia.
Qed.

Lemma colourset_choice_witness :
  exists e g bits,
    _extract first_seen [(0, black_on_white)] glyph_channels [char_two_pixels] = Ok e
    /\ nth_error (glyphs e) 0 = Some g
    /\ Forall2 (fun t bit => (bit = true <-> t = white) /\ (bit = false <-> t = black))
               [black; white] bits.
Proof.
  destruct (proj2 (colourset_choice first_seen [(0, black_on_white)] glyph_channels
                     [char_two_pixels] [[black; white]]
                     first_seen_enumerates
                     ltac:(discriminate) eq_refl) black white)
    as (_ & e & He & Hlen & Hpix).
  - intros t. cbn. intuition.
  - reflexivity.
  - destruct (glyphs e) as [|g rest] eqn:Hg; [discriminate Hlen|].
    destruct (Hpix 0%nat char_two_pixels [black; white] g eq_refl eq_refl)
      as (bits & Hbits & _).
    + reflexivity.
    + discriminate.
    + discriminate.
    + exists e, g, bits. rewrite Hg. repeat split; try assumption.
Defined.

(** *** Codepoints of the extracted glyphs *)

(** C7 (the code departs from the claim).  A descriptor with the single
    char record of id 65 over a page gives one glyph, and its advance is the
    record's [xadvance]; but the glyph is labelled with its position in the
    char list, codepoint 0, not with the id 65 of the record. *)
Theorem single_char_codepoint_is_index :
  exists e g,
    _extract first_seen [(0, black_on_white)] glyph_channels [char_A] = Ok e
    /\ glyphs e = [g]
    /\ codepoint g = Some 0
    /\ codepoint g <> Some (id char_A)
    /\ advance e g = xadvance char_A.
Proof.
  eexists. eexists. split; [vm_compute; reflexivity|].
  split; [reflexivity|]. split; [reflexivity|]. split; [discriminate|reflexivity].
Qed.

(** The label never depends on the ids: the n-th glyph gets codepoint n. *)
Lemma extract_glyphs_loop_codepoints (cols : colours) (mb ma mh : Z)
    (cs : list (Char * list tuple)) :
  forall n gs,
    extract_glyphs_loop cols mb ma mh n cs = Ok gs ->
    map codepoint gs
    = map (fun k => Some (n + Z.of_nat k)) (seq 0 (List.length cs)).
Proof.
  induction cs as [|[c sprite] cs IH]; intros n gs H; cbn in H.
  - injection H as <-. reflexivity.
  - destruct (extract_glyph cols mb ma mh n c sprite) as [g| |] eqn:Hg;
      cbn [Py.bind] in H; try discriminate.
    destruct (extract_glyphs_loop cols mb ma mh (n + 1) cs) as [rest| |] eqn:Hr;
      cbn [Py.bind] in H; try discriminate.
    injection H as <-. cbn [map List.length seq].
    f_equal.
    + unfold extract_glyph in Hg.
      destruct (if _ : bool then _ else _) as [g0| |]; cbn [Py.bind] in Hg;
        try discriminate.
      injection Hg as <-. cbn. f_equal. lia.
    + rewrite (IH (n + 1) rest Hr). rewrite <- seq_shift, map_map.
      apply map_ext. intros k. f_equal. lia.
Qed.

(** Whatever its id, the glyph of a descriptor with one char record is
    labelled 0. *)
Lemma single_char_any_id (to_list : list tuple -> list tuple)
    (sheets : list (Z * image)) (common : Common) (c : Char) (e : extracted) :
  _extract to_list sheets common [c] = Ok e ->
  map codepoint (glyphs e) = [Some 0].
Proof.
  unfold _extract. cbn [map min_of max_of fold_left Py.bind].
  destruct (extract_sprites sheets common [c]) as [sprites| |] eqn:Hs;
    cbn [Py.bind]; try discriminate.
  destruct (pick_colours _) as [cols| |]; cbn [Py.bind]; try discriminate.
  destruct (extract_glyphs_loop _ _ _ _ _ _) as [gs| |] eqn:Hg; cbn [Py.bind];
    try discriminate.
  intros [= <-]. cbn [glyphs].
  rewrite (extract_glyphs_loop_codepoints _ _ _ _ _ _ _ Hg).
  cbn in Hs.
  destruct (sheet_of sheets (page c)); cbn [Py.bind] in Hs; try discriminate.
  injection Hs as <-. reflexivity.
Qed.

(** *** The packer *)

Ltac ztests :=
  repeat match goal with
  | H : (_ || _) = false |- _ => apply orb_false_iff in H; destruct H
  | H : (_ && _) = true |- _ => apply andb_true_iff in H; destruct H
  | H : (_ >? _) = true |- _ => apply Z.gtb_lt in H
  | H : (_ >? _) = false |- _ => rewrite Z.gtb_ltb, Z.ltb_ge in H
  | H : (_ =? _) = true |- _ => apply Z.eqb_eq in H
  | H : (_ =? _) = false |- _ => apply Z.eqb_neq in H
  end.

Lemma boxes_overlap_sym (p q : box) : boxes_overlap p q = boxes_overlap q p.
Proof.
  destruct p as [[[xp yp] wp] hp], q as [[[xq yq] wq] hq]. cbn.
  now rewrite (Z.max_comm xp xq), (Z.max_comm yp yq),
    (Z.min_comm (xp + wp)), (Z.min_comm (yp + hp)).
Qed.

Lemma boxes_overlap_false (p q : box) :
  boxes_overlap p q = false <->
  let '(xp, yp, wp, hp) := p in
  let '(xq, yq, wq, hq) := q in
  Z.min (xp + wp) (xq + wq) <= Z.max xp xq
  \/ Z.min (yp + hp) (yq + hq) <= Z.max yp yq.
Proof.
  destruct p as [[[xp yp] wp] hp], q as [[[xq yq] wq] hq]. cbn.
  rewrite andb_false_iff, !Z.ltb_ge. reflexivity.
Qed.

(** A box without area overlaps nothing. *)
Lemma empty_box_no_overlap (p q : box) :
  (let '(_, _, wp, hp) := p in wp = 0 \/ hp = 0) ->
  boxes_overlap p q = false.
Proof.
  destruct p as [[[xp yp] wp] hp], q as [[[xq yq] wq] hq]. intros H.
  cbn in H. apply boxes_overlap_false. cbn. lia.
Qed.

(** Boxes in the two parts of a divided rectangle do not overlap. *)
Lemma divided_no_overlap (rect r0 r1 p q : box) :
  divides rect r0 r1 -> box_inside p r0 -> box_inside q r1 ->
  boxes_overlap p q = false.
Proof.
  destruct rect as [[[l t] r] b], r0 as [[[l0 t0] r0'] b0],
    r1 as [[[l1 t1] r1'] b1], p as [[[xp yp] wp] hp], q as [[[xq yq] wq] hq].
  intros Hd Hp Hq. cbn in Hd, Hp, Hq. apply boxes_overlap_false. cbn. lia.
Qed.

Lemma divided_inside (rect r0 r1 p : box) :
  divides rect r0 r1 -> box_inside p r0 \/ box_inside p r1 -> box_inside p rect.
Proof.
  destruct rect as [[[l t] r] b], r0 as [[[l0 t0] r0'] b0],
    r1 as [[[l1 t1] r1'] b1], p as [[[xp yp] wp] hp].
  cbn. lia.
Qed.

(** Every placed image lies within the rectangle of its tree. *)
Lemma placed_inside (n : SpriteNode) :
  well_formed n -> Forall (fun q => box_inside q (node_rect n)) (placed n).
Proof.
  induction n as [l t r b im|l t r b c0 IH0 c1 IH1 im]; cbn.
  - destruct im as [[w h]|]; intros Hwf; constructor; [|constructor].
    cbn. lia.
  - intros (H0 & H1 & Hd). apply Forall_app. split.
    + eapply Forall_impl; [|apply IH0, H0].
      intros q Hq. eapply divided_inside; [exact Hd|now left].
    + eapply Forall_impl; [|apply IH1, H1].
      intros q Hq. eapply divided_inside; [exact Hd|now right].
Qed.

(** Placing an image in an empty leaf that is large enough: whatever the
    fuel, the call does not raise; it places the image at the corner of the
    leaf, after at most two splits. *)
Lemma insert_fresh (fuel : nat) :
  forall l t r b w h,
    0 <= w <= r - l -> 0 <= h <= b - t ->
    (exists n', insert fuel (Leaf l t r b None) w h = (n', OutOfFuel))
    \/ (exists n',
          insert fuel (Leaf l t r b None) w h = (n', Ok (l, t))
          /\ well_formed n' /\ node_rect n' = (l, t, r, b)
          /\ placed n' = [(l, t, w, h)]).
Proof.
  induction fuel as [|fuel IH]; intros l t r b w h Hw Hh.
  - left. now eexists.
  - cbn [insert is_some orb].
    destruct (w >? r - l) eqn:E1; [ztests; lia|].
    destruct (h >? b - t) eqn:E2; [ztests; lia|]. cbn [orb].
    destruct ((w =? r - l) && (h =? b - t)) eqn:E3.
    + right. eexists. split; [reflexivity|]. ztests. cbn. repeat split; lia.
    + destruct (r - l - w >? b - t - h) eqn:E4; cbn -[insert]; unfold new_node.
      * destruct (IH l t (l + w) b w h ltac:(lia) ltac:(lia))
          as [(n' & ->)|(n' & -> & Hwf & Hrect & Hpl)].
        -- left. now eexists.
        -- right. eexists. split; [reflexivity|]. cbn [well_formed node_rect placed].
           rewrite Hrect, Hpl. repeat split; try assumption.
           cbn. left. ztests. lia.
      * destruct (IH l t r (t + h) w h ltac:(lia) ltac:(lia))
          as [(n' & ->)|(n' & -> & Hwf & Hrect & Hpl)].
        -- left. now eexists.
        -- right. eexists. split; [reflexivity|]. cbn [well_formed node_rect placed].
           rewrite Hrect, Hpl. repeat split; try assumption.
           cbn. right. ztests. lia.
Qed.

(** The fuel an empty leaf needs: one unit when the image fills it, two
    when it fills it in one direction, three otherwise. *)
Lemma insert_fresh_exact (fuel : nat) (l t r b w h : Z) :
  w = r - l -> h = b - t ->
  snd (insert (S fuel) (Leaf l t r b None) w h) = Ok (l, t).
Proof.
  intros Hw Hh. cbn [insert is_some orb].
  destruct (w >? r - l) eqn:E1; [ztests; lia|].
  destruct (h >? b - t) eqn:E2; [ztests; lia|]. cbn [orb].
  rewrite <- Hw, <- Hh, !Z.eqb_refl. reflexivity.
Qed.

Lemma insert_fresh_half (fuel : nat) (l t r b w h : Z) :
  0 <= w <= r - l -> 0 <= h <= b - t -> w = r - l \/ h = b - t ->
  snd (insert (S (S fuel)) (Leaf l t r b None) w h) = Ok (l, t).
Proof.
  intros Hw Hh Hor. remember (S fuel) as f1. cbn [insert is_some orb].
  destruct (w >? r - l) eqn:E1; [ztests; lia|].
  destruct (h >? b - t) eqn:E2; [ztests; lia|]. cbn [orb].
  destruct ((w =? r - l) && (h =? b - t)) eqn:E3; [reflexivity|].
  apply andb_false_iff in E3. subst f1.
  destruct (r - l - w >? b - t - h) eqn:E4; cbn -[insert]; unfold new_node.
  - pose proof (insert_fresh_exact fuel l t (l + w) b w h) as Hex.
    destruct (insert (S fuel) (Leaf l t (l + w) b None) w h) as [m rm].
    cbn in Hex |- *. apply Hex; [lia|]. destruct E3; ztests; lia.
  - pose proof (insert_fresh_exact fuel l t r (t + h) w h) as Hex.
    destruct (insert (S fuel) (Leaf l t r (t + h) None) w h) as [m rm].
    cbn in Hex |- *. apply Hex; [|lia]. destruct E3; ztests; lia.
Qed.

Lemma insert_fresh_fuel (fuel : nat) (l t r b w h : Z) :
  0 <= w <= r - l -> 0 <= h <= b - t ->
  snd (insert (S (S (S fuel))) (Leaf l t r b None) w h) = Ok (l, t).
Proof.
  intros Hw Hh. remember (S (S fuel)) as f2. cbn [insert is_some orb].
  destruct (w >? r - l) eqn:E1; [ztests; lia|].
  destruct (h >? b - t) eqn:E2; [ztests; lia|]. cbn [orb].
  destruct ((w =? r - l) && (h =? b - t)) eqn:E3; [reflexivity|].
  subst f2.
  destruct (r - l - w >? b - t - h) eqn:E4; cbn -[insert]; unfold new_node.
  - pose proof (insert_fresh_half fuel l t (l + w) b w h) as Hhalf.
    destruct (insert (S (S fuel)) (Leaf l t (l + w) b None) w h) as [m rm].
    cbn in Hhalf |- *. apply Hhalf; lia.
  - pose proof (insert_fresh_half fuel l t r (t + h) w h) as Hhalf.
    destruct (insert (S (S fuel)) (Leaf l t r (t + h) None) w h) as [m rm].
    cbn in Hhalf |- *. apply Hhalf; lia.
Qed.

(** A call that raises leaves the tree as it was. *)
Lemma insert_raise (fuel : nat) :
  forall n w h n' e,
    0 <= w -> 0 <= h ->
    insert fuel n w h = (n', Raise e) -> n' = n.
Proof.
  induction fuel as [|fuel IH]; intros n w h n' e Hw Hh H; [discriminate|].
  destruct n as [l t r b im|l t r b c0 c1 im]; cbn [insert] in H.
  - destruct (is_some im || (w >? r - l) || (h >? b - t)) eqn:E1.
    { now injection H as <- _. }
    destruct ((w =? r - l) && (h =? b - t)); [discriminate|].
    exfalso. ztests. destruct im; [discriminate|].
    destruct (r - l - w >? b - t - h); cbn -[insert] in H; unfold new_node in H.
    + destruct (insert_fresh fuel l t (l + w) b w h ltac:(lia) ltac:(lia))
        as [(m & Hm)|(m & Hm & _)]; rewrite Hm in H; discriminate.
    + destruct (insert_fresh fuel l t r (t + h) w h ltac:(lia) ltac:(lia))
        as [(m & Hm)|(m & Hm & _)]; rewrite Hm in H; discriminate.
  - destruct (insert fuel c0 w h) as [c0' [[x0 y0]|e0|]] eqn:H0;
      try discriminate.
    pose proof (IH c0 w h c0' e0 Hw Hh H0) as ->.
    destruct e0; try (now injection H as <- _).
    destruct (insert fuel c1 w h) as [c1' r1] eqn:H1.
    injection H as <- ->.
    now rewrite (IH c1 w h c1' e Hw Hh H1).
Qed.

(** A call that places the image keeps the tree well formed and puts the
    image inside the tree's rectangle, clear of every image placed before;
    the images of the new tree are the old ones and the new one. *)
Lemma insert_places (fuel : nat) :
  forall n w h n' px py,
    well_formed n -> 0 <= w -> 0 <= h ->
    insert fuel n w h = (n', Ok (px, py)) ->
    well_formed n' /\ node_rect n' = node_rect n
    /\ box_inside (px, py, w, h) (node_rect n)
    /\ Forall (fun q => boxes_overlap (px, py, w, h) q = false) (placed n)
    /\ (forall q, In q (placed n') <-> q = (px, py, w, h) \/ In q (placed n)).
Proof.
  induction fuel as [|fuel IH]; intros n w h n' px py Hwf Hw Hh H; [discriminate|].
  destruct n as [l t r b im|l t r b c0 c1 im]; cbn [insert] in H.
  - destruct (is_some im || (w >? r - l) || (h >? b - t)) eqn:E1; [discriminate|].
    ztests. destruct im; [discriminate|].
    destruct ((w =? r - l) && (h =? b - t)) eqn:E3.
    + injection H as <- <- <-. ztests.
      split; [|split; [|split; [|split]]].
      * cbn. lia.
      * reflexivity.
      * cbn. lia.
      * constructor.
      * intros q. cbn. intuition.
    + assert (Hsub : forall l0 t0 r0 b0 c1,
                0 <= w <= r0 - l0 -> 0 <= h <= b0 - t0 ->
                l0 = l -> t0 = t ->
                divides (l, t, r, b) (l0, t0, r0, b0) (node_rect c1) ->
                placed c1 = [] -> well_formed c1 ->
                (let '(c0', r0') := insert fuel (Leaf l0 t0 r0 b0 None) w h in
                 (Split l t r b c0' c1 None, r0')) = (n', Ok (px, py)) ->
                well_formed n' /\ node_rect n' = (l, t, r, b)
                /\ box_inside (px, py, w, h) (l, t, r, b)
                /\ Forall (fun q => boxes_overlap (px, py, w, h) q = false) []
                /\ (forall q, In q (placed n') <-> q = (px, py, w, h) \/ In q [])).
      { intros l0 t0 r0 b0 c1 Hw0 Hh0 -> -> Hdiv Hc1 Hwf1 Hins.
        destruct (insert_fresh fuel l t r0 b0 w h Hw0 Hh0)
          as [(m & Hm)|(m & Hm & Hwfm & Hrm & Hpm)]; rewrite Hm in Hins;
          [discriminate|].
        injection Hins as <- <- <-. cbn [well_formed node_rect placed].
        rewrite Hrm, Hpm, Hc1.
        split; [|split; [|split; [|split]]].
        - split; [assumption|]. split; assumption.
        - reflexivity.
        - eapply (divided_inside _ _ _ (l, t, w, h) Hdiv). left. cbn. lia.
        - constructor.
        - intros q. cbn. intuition. }
      destruct (r - l - w >? b - t - h) eqn:E4; cbn -[insert] in H;
        unfold new_node in H.
      * apply (Hsub l t (l + w) b (Leaf (l + w) t r b None)); try lia;
          try reflexivity; try exact I; try assumption.
        cbn. left. lia.
      * apply (Hsub l t r (t + h) (Leaf l (t + h) r b None)); try lia;
          try reflexivity; try exact I; try assumption.
        cbn. right. lia.
  - destruct Hwf as (Hwf0 & Hwf1 & Hdiv).
    destruct (insert fuel c0 w h) as [c0' [[x0 y0]|e0|]] eqn:H0;
      try discriminate.
    + injection H as <- <- <-.
      destruct (IH c0 w h c0' x0 y0 Hwf0 Hw Hh H0)
        as (Hwf' & Hrect & Hin & Hclear & Hpl).
      cbn [well_formed node_rect placed]. rewrite Hrect.
      split; [|split; [|split; [|split]]].
      * split; [assumption|]. split; assumption.
      * reflexivity.
      * eapply divided_inside; [exact Hdiv|now left].
      * apply Forall_app. split; [assumption|].
        eapply Forall_impl; [|apply placed_inside, Hwf1].
        intros q Hq. eapply divided_no_overlap; eassumption.
      * intros q. rewrite !in_app_iff, Hpl. intuition.
    + pose proof (insert_raise fuel c0 w h c0' e0 Hw Hh H0) as ->.
      destruct e0; try discriminate.
      destruct (insert fuel c1 w h) as [c1' r1] eqn:H1.
      injection H as <- ->.
      destruct (IH c1 w h c1' px py Hwf1 Hw Hh H1)
        as (Hwf' & Hrect & Hin & Hclear & Hpl).
      cbn [well_formed node_rect placed]. rewrite Hrect.
      split; [|split; [|split; [|split]]].
      * split; [assumption|]. split; assumption.
      * reflexivity.
      * eapply divided_inside; [exact Hdiv|now right].
      * apply Forall_app. split; [|assumption].
        eapply Forall_impl; [|apply placed_inside, Hwf0].
        intros q Hq. rewrite boxes_overlap_sym.
        eapply divided_no_overlap; eassumption.
      * intros q. rewrite !in_app_iff, Hpl. intuition.
Qed.

(** [tree_insert] gives the call the fuel it needs. *)
Lemma insert_enough_fuel (n : SpriteNode) :
  forall fuel w h,
    0 <= w -> 0 <= h -> (depth n + 3 <= fuel)%nat ->
    snd (insert fuel n w h) <> OutOfFuel.
Proof.
  induction n as [l t r b im|l t r b c0 IH0 c1 IH1 im]; intros fuel w h Hw Hh Hf.
  - destruct fuel as [|[|[|fuel]]]; cbn [depth] in Hf; try lia.
    destruct im as [[iw ih]|].
    + cbn. discriminate.
    + destruct (Z_le_gt_dec w (r - l)) as [Hwl|Hwl];
        [destruct (Z_le_gt_dec h (b - t)) as [Hhl|Hhl]|].
      * rewrite insert_fresh_fuel by lia. discriminate.
      * cbn [insert is_some orb].
        destruct (h >? b - t) eqn:E; [|ztests; lia].
        rewrite orb_true_r. discriminate.
      * cbn [insert is_some orb].
        destruct (w >? r - l) eqn:E; [|ztests; lia]. discriminate.
  - destruct fuel as [|fuel]; [lia|]. cbn [depth] in Hf. cbn [insert].
    specialize (IH0 fuel w h Hw Hh ltac:(lia)).
    specialize (IH1 fuel w h Hw Hh ltac:(lia)).
    destruct (insert fuel c0 w h) as [c0' [[x0 y0]|e0|]]; cbn in IH0 |- *;
      try discriminate; [|contradiction].
    destruct e0; cbn; try discriminate.
    destruct (insert fuel c1 w h) as [c1' r1]. cbn in IH1 |- *. assumption.
Qed.

Lemma tree_insert_returns (n : SpriteNode) (w h : Z) :
  0 <= w -> 0 <= h -> snd (tree_insert n w h) <> OutOfFuel.
Proof. intros Hw Hh. apply insert_enough_fuel; [assumption|assumption|lia]. Qed.

(** *** The sheet writer *)

(** A glyph labelled with more than one codepoint stops the pass with
    [NameError]: the warning that announces the skip cannot be formatted. *)
Lemma sheet_pass_cluster (font : SFont) (page_id channels : Z)
    (glyph : SGlyph) (rest : list SGlyph) (st : pass_state) :
  (1 < List.length (char glyph))%nat ->
  sheet_pass font page_id channels (glyph :: rest) st = Raise (NameError "label").
Proof.
  intros Hlen. cbn [sheet_pass].
  destruct (1 <? Z.of_nat (List.length (char glyph))) eqn:E.
  - reflexivity.
  - apply Z.ltb_ge in E. lia.
Qed.

(** C5 (the code departs from the claim).  For the font A, e + combining
    acute, B the writer does not skip the cluster and go on to B: it raises
    [NameError] for the name [label], packed or not. *)
Theorem cluster_glyph_aborts_writer :
  forall (fuel : nat) (packed : bool),
    _create_spritesheets (S fuel) cluster_font (256, 256) packed
    = Raise (NameError "label").
Proof. intros fuel [|]; reflexivity. Qed.

(** Whether a pass breaks, and the tree it leaves, do not depend on the
    page, the channels or the records collected so far. *)
Lemma sheet_pass_same_outcome (font : SFont) (gs : list SGlyph) :
  forall p1 c1 p2 c2 s1 s2,
    same_place s1 s2 ->
    same_outcome (sheet_pass font p1 c1 gs s1) (sheet_pass font p2 c2 gs s2).
Proof.
  induction gs as [|g gs IH]; intros p1 c1 p2 c2 s1 s2 Hs.
  - cbn. split; [reflexivity|assumption].
  - cbn [sheet_pass].
    destruct (1 <? Z.of_nat (List.length (char g))); [cbn; reflexivity|].
    destruct Hs as (Ht & Hx & Hy). rewrite <- Ht, <- Hx, <- Hy.
    destruct (negb (cropped_height g =? 0) && negb (cropped_width g =? 0)).
    + destruct (tree_insert (tree s1) (cropped_width g) (cropped_height g))
        as [t' [[x' y']|e|]]; cbn [Py.bind].
      * destruct (ord (char g)) as [i| |]; cbn [Py.bind]; try (cbn; reflexivity).
        apply IH. repeat split.
      * destruct e; cbn; try reflexivity. repeat split; assumption.
      * cbn. trivial.
    + cbn [Py.bind].
      destruct (ord (char g)) as [i| |]; cbn [Py.bind]; try (cbn; reflexivity).
      apply IH. repeat split.
Qed.

(** When the first sheet overflows, every later sheet overflows in the
    same way, because each pass starts again at the first glyph with an
    empty tree: the loop never ends. *)
Lemma sheets_loop_overflow_diverges (font : SFont) (w h : Z) (packed : bool)
    (n_layers : Z) (st0 : pass_state) :
  sheet_pass font 0 15 (sglyphs font)
    {| tree := new_node 0 0 w h; cur_x := 0; cur_y := 0; chars_out := [] |}
  = Ok (st0, false) ->
  forall fuel page_id layer n_pages chars,
    sheets_loop fuel font w h packed n_layers page_id layer n_pages chars
    = OutOfFuel.
Proof.
  intros Hfirst fuel. induction fuel as [|fuel IH]; intros page_id layer n_pages chars.
  - reflexivity.
  - cbn [sheets_loop].
    pose proof (sheet_pass_same_outcome font (sglyphs font)
                  0 15 page_id (if packed then Z.shiftl 1 layer else 15)
                  {| tree := new_node 0 0 w h; cur_x := 0; cur_y := 0; chars_out := [] |}
                  {| tree := new_node 0 0 w h; cur_x := 0; cur_y := 0; chars_out := chars |})
      as Hsame.
    rewrite Hfirst in Hsame.
    specialize (Hsame ltac:(repeat split)).
    destruct (sheet_pass font page_id _ (sglyphs font) _) as [[st r]| |];
      cbn in Hsame; try contradiction.
    destruct Hsame as [<- _]. cbn [Py.bind].
    destruct (layer =? n_layers - 1); apply IH.
Qed.

(** What a pass adds to a well-formed tree: a record for each glyph it
    gets to, on the pass's page and channels; the records are clear of the
    images placed before and of each other. *)
Lemma sheet_pass_packs (font : SFont) (p c : Z) (gs : list SGlyph) :
  forall st st' fin,
    well_formed (tree st) ->
    Forall (fun g => 0 <= cropped_width g /\ 0 <= cropped_height g) gs ->
    sheet_pass font p c gs st = Ok (st', fin) ->
    exists news,
      chars_out st' = chars_out st ++ news
      /\ well_formed (tree st')
      /\ (forall q, In q (placed (tree st)) -> In q (placed (tree st')))
      /\ Forall (fun r => Forall (fun q => boxes_overlap (char_box r) q = false)
                                (placed (tree st))) news
      /\ ForallOrdPairs (fun a b => rect_overlap a b = false) news
      /\ Forall (fun r => page r = p /\ chnl r = c) news
      /\ (fin = true ->
          Forall2 (fun g r => char g = [id r]
                              /\ width r = cropped_width g
                              /\ height r = cropped_height g) gs news).
Proof.
  induction gs as [|g gs IH]; intros st st' fin Hwf Hsizes H.
  - cbn in H. injection H as <- <-. exists [].
    rewrite app_nil_r. repeat split; try constructor; auto.
  - cbn [sheet_pass] in H.
    destruct (1 <? Z.of_nat (List.length (char g))); [discriminate|].
    inversion Hsizes as [|? ? [Hgw Hgh] Hrest]; subst.
    (* the step: the tree, the position and the record of this glyph *)
    assert (Hstep : forall tree' x' y',
      well_formed tree' ->
      (forall q, In q (placed (tree st)) -> In q (placed tree')) ->
      Forall (fun q => boxes_overlap (x', y', cropped_width g, cropped_height g) q = false)
             (placed (tree st)) ->
      (cropped_width g = 0 \/ cropped_height g = 0
       \/ In (x', y', cropped_width g, cropped_height g) (placed tree')) ->
      (i <- ord (char g) ;;
       sheet_pass font p c gs
         {| tree := tree'; cur_x := x'; cur_y := y';
            chars_out := chars_out st ++
              [{| id := i; x := x'; y := y';
                  width := cropped_width g; height := cropped_height g;
                  xoffset := font_offset_x font + ink_left g;
                  yoffset := font_bbox_y font - g_height g + ink_top g;
                  xadvance := font_offset_x font + g_width g + font_tracking font;
                  page := p; chnl := c |}] |}) = Ok (st', fin) ->
      exists news,
        chars_out st' = chars_out st ++ news
        /\ well_formed (tree st')
        /\ (forall q, In q (placed (tree st)) -> In q (placed (tree st')))
        /\ Forall (fun r => Forall (fun q => boxes_overlap (char_box r) q = false)
                                  (placed (tree st))) news
        /\ ForallOrdPairs (fun a b => rect_overlap a b = false) news
        /\ Forall (fun r => page r = p /\ chnl r = c) news
        /\ (fin = true ->
            Forall2 (fun g r => char g = [id r]
                                /\ width r = cropped_width g
                                /\ height r = cropped_height g) (g :: gs) news)).
    { intros tree' x' y' Hwf' Hmono Hclear Hbox Hrun.
      destruct (ord (char g)) as [i| |] eqn:Hord; cbn [Py.bind] in Hrun;
        try discriminate.
      assert (Hchar : char g = [i]).
      { unfold ord in Hord. destruct (char g) as [|a [|a' rest]]; try discriminate.
        now injection Hord as ->. }
      pose proof (fun Hw => IH _ st' fin Hw Hrest Hrun) as IH'.
      cbn [tree chars_out] in IH'.
      destruct (IH' Hwf')
        as (news & Hout & Hwf'' & Hmono' & Hclear' & Hpairs & Hpage & Hall).
      eexists (_ :: news). split; [rewrite Hout, <- app_assoc; reflexivity|].
      split; [assumption|]. split; [auto|]. split; [|split; [|split]].
      - constructor; [exact Hclear|].
        eapply Forall_impl; [|exact Hclear']. cbn beta.
        intros r Hr. rewrite Forall_forall in Hr |- *. auto.
      - constructor; [|assumption].
        rewrite Forall_forall in Hclear' |- *. intros r Hr.
        unfold rect_overlap. cbn [char_box x y width height].
        destruct Hbox as [Hz|[Hz|Hin]].
        + apply empty_box_no_overlap. cbn. now left.
        + apply empty_box_no_overlap. cbn. now right.
        + rewrite boxes_overlap_sym.
          specialize (Hclear' r Hr). rewrite Forall_forall in Hclear'. auto.
      - constructor; [now split|assumption].
      - intros Hfin. constructor; [|auto]. now repeat split. }
    destruct (negb (cropped_height g =? 0) && negb (cropped_width g =? 0)) eqn:Hink.
    + pose proof (tree_insert_returns (tree st) _ _ Hgw Hgh) as Hret.
      destruct (tree_insert (tree st) (cropped_width g) (cropped_height g))
        as [tree' [[x' y']|e|]] eqn:Hins; cbn [Py.bind] in H.
      * unfold tree_insert in Hins.
        destruct (insert_places _ _ _ _ _ _ _ Hwf Hgw Hgh Hins)
          as (Hwf' & _ & _ & Hclear & Hpl).
        apply (Hstep tree' x' y'); try assumption.
        -- intros q Hq. apply Hpl. now right.
        -- right. right. apply Hpl. now left.
      * destruct e; cbn [Py.bind] in H; try discriminate.
        injection H as <- <-. exists []. rewrite app_nil_r.
        repeat split; try constructor; auto. discriminate.
      * now cbn in Hret.
    + cbn [Py.bind] in H.
      apply (Hstep (tree st) (cur_x st) (cur_y st)); try assumption; auto.
      * assert (Hz : cropped_width g = 0 \/ cropped_height g = 0).
        { apply andb_false_iff in Hink.
          destruct Hink as [E|E]; apply negb_false_iff, Z.eqb_eq in E; auto. }
        rewrite Forall_forall. intros q _. apply empty_box_no_overlap. exact Hz.
      * apply andb_false_iff in Hink.
        destruct Hink as [E|E]; apply negb_false_iff, Z.eqb_eq in E; auto.
Qed.

(** What the writer does right: when it returns, everything is on the one
    page 0, every glyph has its record, in order and once, and no two
    records overlap.  (It returns only when the font fits one sheet.) *)
Lemma written_font_is_packed (fuel : nat) (font : SFont) (w h : Z)
    (packed : bool) (n_pages : Z) (chars : list Char) :
  Forall (fun g => 0 <= cropped_width g /\ 0 <= cropped_height g) (sglyphs font) ->
  _create_spritesheets fuel font (w, h) packed = Ok (n_pages, chars) ->
  n_pages = 1
  /\ ForallOrdPairs (fun a b => rect_overlap a b = false) chars
  /\ Forall (fun r => page r = 0
                      /\ chnl r = if packed then Z.shiftl 1 0 else 15) chars
  /\ Forall2 (fun g r => char g = [id r]
                         /\ width r = cropped_width g
                         /\ height r = cropped_height g) (sglyphs font) chars.
Proof.
  intros Hsizes. unfold _create_spritesheets.
  destruct fuel as [|fuel]; [discriminate|]. cbn [sheets_loop].
  destruct (sheet_pass font 0 _ (sglyphs font) _) as [[st fin]| |] eqn:Hpass;
    cbn [Py.bind]; try discriminate.
  destruct fin.
  - intros [= <- <-].
    pose proof (fun Hw => sheet_pass_packs font _ _ _ _ _ _ Hw Hsizes Hpass) as Hpacks.
    cbn [tree chars_out] in Hpacks.
    destruct (Hpacks I) as (news & Hout & _ & _ & _ & Hpairs & Hpage & Hall).
    cbn in Hout. rewrite Hout. repeat split; auto.
  - intros Hloop. exfalso.
    pose proof (sheet_pass_same_outcome font (sglyphs font)
                  0 15 0 (if packed then Z.shiftl 1 0 else 15)
                  {| tree := new_node 0 0 w h; cur_x := 0; cur_y := 0; chars_out := [] |}
                  {| tree := new_node 0 0 w h; cur_x := 0; cur_y := 0; chars_out := [] |}
                  ltac:(repeat split)) as Hsame.
    rewrite Hpass in Hsame.
    destruct (sheet_pass font 0 15 (sglyphs font) _) as [[st0 fin0]| |] eqn:Hfirst;
      cbn in Hsame; try contradiction.
    destruct Hsame as [-> _].
    replace (0 =? (if packed then 4 else 1) - 1) with (negb packed) in Hloop
      by (destruct packed; reflexivity).
    destruct (negb packed);
      rewrite (sheets_loop_overflow_diverges font w h packed _ st0 Hfirst) in Hloop;
      discriminate.
Qed.

(** C6 (the code departs from the claim).  Two glyphs of 200 by 200 pixels
    each fit a page of 256 by 256, so each should be placed once on a page
    of its own.  The writer places the first, finds that the second does
    not fit, opens the next sheet and starts again at the first glyph: it
    returns for no amount of fuel, packed or not. *)
Theorem overflowing_font_never_written :
  forall (fuel : nat) (packed : bool),
    _create_spritesheets fuel two_big_font (256, 256) packed = OutOfFuel.
Proof.
  intros fuel packed. unfold _create_spritesheets.
  eapply sheets_loop_overflow_diverges.
  vm_compute. reflexivity.
Qed.

End BMFontTheory.

(** ** BMFont: what the packer and the sheet writer keep *)

Module BMFontMore.
Import BMFont BMFontSamples BMFontTheory.

(** X1.  [SpriteNode.insert] on a well-formed tree, for an image of
    non-negative size: when it returns a position, the tree stays well
    formed, the image lies within the rectangle of the tree and overlaps no
    image placed before, and the images of the tree are the old ones and the
    new one; when it raises, the tree is as it was. *)
Theorem insert_keeps_images_apart (n n' : SpriteNode) (w h : Z) :
  well_formed n -> 0 <= w -> 0 <= h ->
  fst (tree_insert n w h) = n' ->
  match snd (tree_insert n w h) with
  | Ok (px, py) =>
    well_formed n'
    /\ box_inside (px, py, w, h) (node_rect n)
    /\ Forall (fun q => boxes_overlap (px, py, w, h) q = false) (placed n)
    /\ (forall q, In q (placed n') <-> q = (px, py, w, h) \/ In q (placed n))
  | Raise _ => n' = n
  | OutOfFuel => False
  end.
Proof.
  intros Hwf Hw Hh Hn'.
  pose proof (tree_insert_returns n w h Hw Hh) as Hret.
  unfold tree_insert in *.
  destruct (insert (depth n + 3) n w h) as [m [[px py]|e|]] eqn:Hins;
    cbn [fst snd] in *; subst m.
  - destruct (insert_places _ _ _ _ _ _ _ Hwf Hw Hh Hins)
      as (Hwf' & _ & Hin & Hclear & Hpl).
    split; [assumption|]. split; [assumption|]. split; assumption.
  - exact (insert_raise _ _ _ _ _ _ Hw Hh Hins).
  - now apply Hret.
Qed.

Lemma insert_keeps_images_apart_witness :
  match snd (tree_insert page_with_one 50 50) with
  | Ok (px, py) =>
    Forall (fun q => boxes_overlap (px, py, 50, 50) q = false) (placed page_with_one)
  | _ => False
  end.
Proof.
  pose proof (insert_keeps_images_apart page_with_one
                (fst (tree_insert page_with_one 50 50)) 50 50) as H.
  assert (Hwf : well_formed page_with_one).
  { cbn. intuition lia. }
  specialize (H Hwf ltac:(lia) ltac:(lia) eq_refl).
  destruct (snd (tree_insert page_with_one 50 50)) as [[px py]|e|] eqn:E.
  - exact (proj1 (proj2 (proj2 H))).
  - vm_compute in E. discriminate E.
  - exact H.
Defined.

(** X2.  [SpriteNode.insert] on a new node: an image of non-negative size
    that is no wider and no taller than the node is placed at the node's
    top-left corner; an image that is wider or taller raises [ValueError]
    and leaves the node as it is. *)
Theorem insert_into_new_node (l t r b w h : Z) :
  0 <= w -> 0 <= h ->
  (w <= r - l /\ h <= b - t ->
   snd (tree_insert (new_node l t r b) w h) = Ok (l, t))
  /\
  (r - l < w \/ b - t < h ->
   exists msg, tree_insert (new_node l t r b) w h
               = (new_node l t r b, Raise (ValueError msg))).
Proof.
  intros Hw Hh. split.
  - intros [Hfw Hfh]. unfold tree_insert, new_node. cbn [depth Nat.add].
    apply insert_fresh_fuel; lia.
  - intros Hbig. unfold tree_insert, new_node. cbn [depth Nat.add insert is_some orb].
    destruct (w >? r - l) eqn:E1; [now eexists|].
    destruct (h >? b - t) eqn:E2; [now eexists|].
    exfalso. rewrite Z.gtb_ltb, Z.ltb_ge in E1, E2. lia.
Qed.

Lemma insert_into_new_node_witness :
  snd (tree_insert (new_node 0 0 256 256) 200 100) = Ok (0, 0)
  /\ exists msg, tree_insert (new_node 0 0 256 256) 300 100
                 = (new_node 0 0 256 256, Raise (ValueError msg)).
Proof.
  split.
  - apply (proj1 (insert_into_new_node 0 0 256 256 200 100 ltac:(lia) ltac:(lia))).
    lia.
  - apply (proj2 (insert_into_new_node 0 0 256 256 300 100 ltac:(lia) ltac:(lia))).
    lia.
Defined.

(** X3.  [_create_spritesheets], when it returns: there is one page, page
    0; every glyph of the font has its record, in the order of the glyphs,
    with the glyph's character as id and the size of its cropped raster;
    and no two records overlap. *)
Theorem returned_sheet_is_packed (fuel : nat) (font : SFont) (w h : Z)
    (packed : bool) (n_pages : Z) (chars : list Char) :
  Forall (fun g => 0 <= cropped_width g /\ 0 <= cropped_height g) (sglyphs font) ->
  _create_spritesheets fuel font (w, h) packed = Ok (n_pages, chars) ->
  n_pages = 1
  /\ ForallOrdPairs (fun a b => rect_overlap a b = false) chars
  /\ Forall (fun r => page r = 0
                      /\ chnl r = if packed then Z.shiftl 1 0 else 15) chars
  /\ Forall2 (fun g r => char g = [id r]
                         /\ width r = cropped_width g
                         /\ height r = cropped_height g) (sglyphs font) chars.
Proof. apply written_font_is_packed. Qed.

Lemma returned_sheet_is_packed_witness :
  exists chars,
    _create_spritesheets 1 small_font (256, 256) true = Ok (1, chars)
    /\ ForallOrdPairs (fun a b => rect_overlap a b = false) chars
    /\ List.length chars = 2%nat.
Proof.
  eexists. split; [vm_compute; reflexivity|].
  refine ((fun H => conj (proj1 (proj2 H)) eq_refl)
            (returned_sheet_is_packed 1 small_font 256 256 true 1 _ _ eq_refl)).
  repeat constructor; cbn; lia.
Defined.

(** X4.  When [_create_spritesheets] returns at all.  It returns, for
    some number of turns of its [while True:] loop, exactly when the pass
    over the first sheet reaches the last glyph: if a glyph does not fit
    the first sheet, every later sheet is filled from the first glyph again
    and breaks at the same glyph, and an exception of the first pass ends
    the function. *)
Theorem spritesheets_return_iff_one_sheet (font : SFont) (w h : Z)
    (packed : bool) :
  (exists fuel r, _create_spritesheets fuel font (w, h) packed = Ok r)
  <-> exists st,
        sheet_pass font 0 15 (sglyphs font)
          {| tree := new_node 0 0 w h; cur_x := 0; cur_y := 0; chars_out := [] |}
        = Ok (st, true).
Proof.
  set (start := {| tree := new_node 0 0 w h; cur_x := 0; cur_y := 0;
                   chars_out := [] |}).
  set (channels := if packed then Z.shiftl 1 0 else 15).
  pose proof (sheet_pass_same_outcome font (sglyphs font)
                0 15 0 channels start start ltac:(repeat split)) as Hsame.
  assert (Hstep : forall fuel,
             _create_spritesheets (S fuel) font (w, h) packed
             = (r <- sheet_pass font 0 channels (sglyphs font) start ;;
                let '(st, ran_out) := r in
                if ran_out then Ok (1, chars_out st)
                else if 0 =? (if packed then 4 else 1) - 1
                then sheets_loop fuel font w h packed (if packed then 4 else 1)
                       (0 + 1) 0 (1 + 1) (chars_out st)
                else sheets_loop fuel font w h packed (if packed then 4 else 1)
                       0 (0 + 1) 1 (chars_out st))) by reflexivity.
  split.
  - intros (fuel & r & Hr).
    destruct (sheet_pass font 0 15 (sglyphs font) start) as [[st0 fin]| |] eqn:Hfirst.
    + destruct fin; [now exists st0|].
      unfold _create_spritesheets in Hr.
      rewrite (sheets_loop_overflow_diverges font w h packed _ st0 Hfirst) in Hr.
      discriminate.
    + destruct fuel as [|fuel]; [discriminate|]. rewrite Hstep in Hr.
      destruct (sheet_pass font 0 channels (sglyphs font) start) as [[? ?]| |];
        cbn in Hsame; try contradiction. discriminate.
    + destruct fuel as [|fuel]; [discriminate|]. rewrite Hstep in Hr.
      destruct (sheet_pass font 0 channels (sglyphs font) start) as [[? ?]| |];
        cbn in Hsame; try contradiction. discriminate.
  - intros (st & Hst). rewrite Hst in Hsame.
    exists 1%nat. rewrite Hstep.
    destruct (sheet_pass font 0 channels (sglyphs font) start) as [[st' fin]| |];
      cbn in Hsame; try contradiction.
    destruct Hsame as [<- _]. cbn [Py.bind]. eexists. reflexivity.
Qed.

Lemma spritesheets_return_iff_one_sheet_witness :
  (exists fuel r, _create_spritesheets fuel small_font (256, 256) true = Ok r)
  /\ ~ (exists fuel r, _create_spritesheets fuel two_big_font (256, 256) true = Ok r).
Proof.
  split.
  - apply (proj2 (spritesheets_return_iff_one_sheet small_font 256 256 true)).
    eexists. vm_compute. reflexivity.
  - intros H.
    apply (proj1 (spritesheets_return_iff_one_sheet two_big_font 256 256 true)) in H.
    destruct H as (st & H). vm_compute in H. discriminate H.
Defined.

(** *** Extraction *)

Lemma range_len (a b : Z) : List.length (range a b) = Z.to_nat (b - a).
Proof. unfold range. now rewrite length_map, length_seq. Qed.

Lemma flat_map_const_length {A B} (f : A -> list B) (l : list A) (k : nat) :
  (forall a, List.length (f a) = k) ->
  List.length (flat_map f l) = (List.length l * k)%nat.
Proof.
  intros Hk. induction l as [|a l IH]; cbn; [reflexivity|].
  rewrite length_app, Hk, IH. reflexivity.
Qed.

(** A sprite has a pixel for every position of its box. *)
Lemma extract_sprites_nth (sheets : list (Z * image)) (common : Common)
    (chars : list Char) :
  forall sprites i c sprite,
    extract_sprites sheets common chars = Ok sprites ->
    nth_error chars i = Some c -> nth_error sprites i = Some sprite ->
    0 < width c -> 0 < height c ->
    List.length sprite = (Z.to_nat (height c) * Z.to_nat (width c))%nat.
Proof.
  induction chars as [|c0 cs IH]; intros sprites i c sprite H Hc Hs Hw Hh.
  - destruct i; discriminate.
  - cbn in H.
    destruct (sheet_of sheets (page c0)) as [img| |]; cbn [Py.bind] in H;
      try discriminate.
    destruct (extract_sprites sheets common cs) as [rest| |] eqn:Hr;
      cbn [Py.bind] in H; try discriminate.
    injection H as <-. destruct i as [|i]; cbn in Hc, Hs.
    + injection Hc as ->. injection Hs as <-.
      destruct (width c =? 0) eqn:E1; [apply Z.eqb_eq in E1; lia|].
      destruct (height c =? 0) eqn:E2; [apply Z.eqb_eq in E2; lia|].
      cbn [negb andb]. rewrite length_map. unfold crop_data.
      rewrite (flat_map_const_length _ _ (Z.to_nat (width c))).
      * rewrite range_len. f_equal. lia.
      * intros a. rewrite length_map, range_len. f_equal. lia.
    + eapply IH; eauto.
Qed.

Lemma chunks_first_width (bits : list bool) (w : nat) :
  (0 < w <= List.length bits)%nat ->
  exists row rows,
    chunks (List.length bits) w bits = row :: rows /\ List.length row = w.
Proof.
  intros Hw. destruct bits as [|b bits]; [cbn in Hw; lia|].
  cbn [List.length chunks]. eexists. eexists. split; [reflexivity|].
  rewrite length_firstn. lia.
Qed.

Lemma glyph_width_expand (g : BMFont.Glyph) (row : list bool) (rows : list (list bool))
    (l t r b : Z) :
  pixels g = row :: rows -> 0 <= l -> 0 <= r ->
  glyph_width (expand g l t r b) = l + Z.of_nat (List.length row) + r.
Proof.
  intros Hp Hl Hr. unfold expand, glyph_width. rewrite Hp. cbn [pixels map].
  destruct (Z.to_nat t) as [|k]; cbn [repeat app].
  - rewrite !length_app, !repeat_length. lia.
  - rewrite repeat_length. lia.
Qed.

Lemma min_of_lower (l : list Z) (m x : Z) :
  min_of l = Ok m -> In x l -> m <= x.
Proof.
  destruct l as [|a l]; [discriminate|]. cbn. intros [= <-] [<-|Hin].
  - apply fold_min_le.
  - now apply fold_min_lower.
Qed.

(** X5.  [_extract], read with the writer's formula for [xadvance]
    (offset.x + glyph width + tracking): the glyph made from a char record
    with a box of positive width and height has the advance the record
    gives as [xadvance]. *)
Theorem extracted_advance_is_xadvance (to_list : list tuple -> list tuple)
    (sheets : list (Z * image)) (common : Common) (chars : list Char)
    (e : extracted) (i : nat) (c : Char) (g : BMFont.Glyph) :
  _extract to_list sheets common chars = Ok e ->
  nth_error chars i = Some c -> nth_error (glyphs e) i = Some g ->
  0 < width c -> 0 < height c ->
  advance e g = xadvance c.
Proof.
  intros He Hc Hg Hw Hh. unfold _extract in He.
  destruct chars as [|c0 cs] eqn:Hchars; [destruct i; discriminate|].
  rewrite <- Hchars in *.
  destruct (min_of (map (fun c => xadvance c - xoffset c - width c) chars))
    as [ma| |] eqn:Hma; cbn [Py.bind] in He; try discriminate.
  destruct (min_of (map xoffset chars)) as [mb| |] eqn:Hmb; cbn [Py.bind] in He;
    try discriminate.
  destruct (max_of _) as [mh| |]; cbn [Py.bind] in He; try discriminate.
  destruct (extract_sprites sheets common chars) as [sprites| |] eqn:Hs;
    cbn [Py.bind] in He; try discriminate.
  destruct (pick_colours _) as [cols| |]; cbn [Py.bind] in He; try discriminate.
  destruct (extract_glyphs_loop _ _ _ _ _ _) as [gs| |] eqn:Hgs;
    cbn [Py.bind] in He; try discriminate.
  injection He as <-. cbn [glyphs] in Hg. unfold advance. cbn [offset_x tracking].
  pose proof (extract_sprites_length _ _ _ _ Hs) as Hlen.
  destruct (nth_error sprites i) as [sprite|] eqn:Hsp.
  2:{ apply nth_error_None in Hsp.
      assert (i < List.length chars)%nat by (apply nth_error_Some; congruence). lia. }
  pose proof (extract_sprites_nth _ _ _ _ _ _ _ Hs Hc Hsp Hw Hh) as Hsize.
  assert (Hcomb : nth_error (combine chars sprites) i = Some (c, sprite)).
  { clear - Hc Hsp. revert sprites i Hc Hsp.
    induction chars as [|a l IH]; intros [|s ss] [|i] Hc Hs; try discriminate; cbn in *.
    - congruence.
    - now apply IH. }
  pose proof (extract_glyphs_loop_nth _ _ _ _ _ _ _ _ _ _ _ Hgs Hcomb Hg) as Hone.
  unfold extract_glyph in Hone.
  destruct (width c =? 0) eqn:E1; [apply Z.eqb_eq in E1; lia|].
  destruct (height c =? 0) eqn:E2; [apply Z.eqb_eq in E2; lia|].
  cbn [negb andb] in Hone.
  assert (Hpos : (0 < List.length sprite)%nat) by (rewrite Hsize; nia).
  destruct sprite as [|p sprite']; [cbn in Hpos; lia|].
  destruct (read_name "fg" (fg cols)) as [fgv| |]; cbn [Py.bind] in Hone;
    try discriminate.
  injection Hone as <-.
  assert (Hmb' : mb <= xoffset c).
  { eapply min_of_lower; [exact Hmb|]. apply in_map. eapply nth_error_In; eauto. }
  assert (Hma' : ma <= xadvance c - xoffset c - width c).
  { eapply min_of_lower; [exact Hma|].
    apply (in_map (fun c => xadvance c - xoffset c - width c)).
    eapply nth_error_In; eauto. }
  match goal with
  | |- context [expand ?g0 ?l ?t ?r ?b] =>
    pose proof (glyph_width_expand g0 _ _ l t r b eq_refl
                  ltac:(lia) ltac:(lia)) as Hgw
  end.
  unfold set_annotations, glyph_width at 1. cbn [pixels].
  unfold glyph_width in Hgw. rewrite Hgw, length_firstn.
  cbn [List.length] in Hsize |- *. rewrite length_map. nia.
Qed.

Lemma extracted_advance_is_xadvance_witness :
  exists e g,
    _extract first_seen [(0, black_on_white)] glyph_channels
      [char_A; char_two_pixels] = Ok e
    /\ nth_error (glyphs e) 1 = Some g
    /\ advance e g = 2.
Proof.
  eexists. eexists. split; [vm_compute; reflexivity|]. split; [reflexivity|].
  apply (extracted_advance_is_xadvance first_seen [(0, black_on_white)]
           glyph_channels [char_A; char_two_pixels] _ 1 char_two_pixels).
  - vm_compute. reflexivity.
  - reflexivity.
  - reflexivity.
  - reflexivity.
  - reflexivity.
Defined.

(** X6.  [_extract] makes one glyph for every char record and labels the
    glyphs with the codepoints 0, 1, 2, ... in the order of the records,
    whatever their ids. *)
Theorem extracted_labels_are_positions (to_list : list tuple -> list tuple)
    (sheets : list (Z * image)) (common : Common) (chars : list Char)
    (e : extracted) :
  _extract to_list sheets common chars = Ok e ->
  map codepoint (glyphs e)
  = map (fun k => Some (Z.of_nat k)) (seq 0 (List.length chars)).
Proof.
  unfold _extract. destruct chars as [|c0 cs] eqn:Hchars.
  - intros [= <-]. reflexivity.
  - rewrite <- Hchars.
    destruct (min_of _) as [ma| |]; cbn [Py.bind]; try discriminate.
    destruct (min_of _) as [mb| |]; cbn [Py.bind]; try discriminate.
    destruct (max_of _) as [mh| |]; cbn [Py.bind]; try discriminate.
    destruct (extract_sprites sheets common chars) as [sprites| |] eqn:Hs;
      cbn [Py.bind]; try discriminate.
    destruct (pick_colours _) as [cols| |]; cbn [Py.bind]; try discriminate.
    destruct (extract_glyphs_loop _ _ _ _ _ _) as [gs| |] eqn:Hgs;
      cbn [Py.bind]; try discriminate.
    intros [= <-]. cbn [glyphs].
    rewrite (extract_glyphs_loop_codepoints _ _ _ _ _ _ _ Hgs).
    rewrite length_combine, (extract_sprites_length _ _ _ _ Hs), Nat.min_id.
    apply map_ext. intros k. f_equal.
Qed.

Lemma extracted_labels_are_positions_witness :
  exists e,
    _extract first_seen [(0, black_on_white)] glyph_channels
      [char_A; char_two_pixels] = Ok e
    /\ map codepoint (glyphs e) = [Some 0; Some 1].
Proof.
  eexists. split; [vm_compute; reflexivity|].
  refine (extracted_labels_are_positions first_seen [(0, black_on_white)]
            glyph_channels [char_A; char_two_pixels] _ _).
  vm_compute. reflexivity.
Defined.

Lemma chunks_rows (w : nat) :
  (0 < w)%nat ->
  forall (h fuel : nat) (bits : list bool),
  List.length bits = (h * w)%nat -> (List.length bits <= fuel)%nat ->
  List.length (chunks fuel w bits) = h.
Proof.
  intros Hw. induction h as [|h IH]; intros fuel bits Hlen Hfuel.
  - destruct bits; [|discriminate]. now destruct fuel.
  - destruct bits as [|b bits]; [cbn in Hlen; lia|].
    destruct fuel as [|fuel]; [cbn in Hfuel; lia|].
    cbn [chunks List.length]. f_equal. apply IH.
    + rewrite length_skipn, Hlen. lia.
    + rewrite length_skipn. cbn [List.length] in *. lia.
Qed.

Lemma expand_rows (g : BMFont.Glyph) (l t r b : Z) :
  List.length (pixels (expand g l t r b))
  = (Z.to_nat t + List.length (pixels g) + Z.to_nat b)%nat.
Proof.
  unfold expand. cbn [pixels].
  rewrite !length_app, !repeat_length, length_map. lia.
Qed.

Lemma max_of_upper (l : list Z) (m x : Z) :
  max_of l = Ok m -> In x l -> x <= m.
Proof.
  destruct l as [|a l]; [discriminate|]. cbn. intros [= <-] [<-|Hin].
  - apply fold_max_ge.
  - now apply fold_max_upper.
Qed.

(** X7.  [_extract] brings the glyphs to equal height: when no char record
    has a negative size or a negative [yoffset], every glyph of the result
    has [max_height] rows, the [base - offset.y] of the font's properties,
    whether its record has a box or not. *)
Theorem extracted_glyphs_have_equal_height (to_list : list tuple -> list tuple)
    (sheets : list (Z * image)) (common : Common) (chars : list Char)
    (e : extracted) :
  _extract to_list sheets common chars = Ok e ->
  Forall (fun c => 0 <= width c /\ 0 <= height c /\ 0 <= yoffset c) chars ->
  Forall (fun g => Z.of_nat (List.length (pixels g)) = base common - offset_y e)
         (glyphs e).
Proof.
  intros He Hchars. unfold _extract in He.
  destruct chars as [|c0 cs] eqn:Hcs.
  { injection He as <-. constructor. }
  rewrite <- Hcs in *.
  destruct (min_of _) as [ma| |]; cbn [Py.bind] in He; try discriminate.
  destruct (min_of _) as [mb| |]; cbn [Py.bind] in He; try discriminate.
  destruct (max_of _) as [mh| |] eqn:Hmh; cbn [Py.bind] in He; try discriminate.
  destruct (extract_sprites sheets common chars) as [sprites| |] eqn:Hs;
    cbn [Py.bind] in He; try discriminate.
  destruct (pick_colours _) as [cols| |]; cbn [Py.bind] in He; try discriminate.
  destruct (extract_glyphs_loop _ _ _ _ _ _) as [gs| |] eqn:Hgs;
    cbn [Py.bind] in He; try discriminate.
  injection He as <-. cbn [glyphs offset_y].
  replace (base common - (base common - mh)) with mh by lia.
  pose proof (extract_sprites_length _ _ _ _ Hs) as Hlen.
  assert (Hglen : List.length gs = List.length chars).
  { pose proof (extract_glyphs_loop_codepoints _ _ _ _ _ _ _ Hgs) as Hc.
    apply (f_equal (@List.length _)) in Hc.
    rewrite !length_map, length_seq, length_combine, Hlen, Nat.min_id in Hc.
    exact Hc. }
  apply Forall_forall. intros g Hg.
  apply In_nth_error in Hg as (i & Hi).
  assert (Hlt : (i < List.length chars)%nat)
    by (rewrite <- Hglen; apply nth_error_Some; congruence).
  destruct (nth_error chars i) as [c|] eqn:Hc;
    [|apply nth_error_None in Hc; lia].
  destruct (nth_error sprites i) as [sprite|] eqn:Hsp;
    [|apply nth_error_None in Hsp; lia].
  rewrite Forall_forall in Hchars.
  destruct (Hchars c (nth_error_In _ _ Hc)) as (Hw & Hh & Hy).
  assert (Hmax : height c + yoffset c <= mh).
  { eapply max_of_upper; [exact Hmh|].
    apply (in_map (fun c => height c + yoffset c)). eapply nth_error_In; eauto. }
  pose proof (extract_glyphs_loop_nth _ _ _ _ _ _ _ _ _ _ _ Hgs
                (nth_error_combine chars sprites i c sprite Hc Hsp) Hi) as Hone.
  unfold extract_glyph in Hone.
  destruct (negb (width c =? 0) && negb (height c =? 0)) eqn:Ebox.
  - apply andb_prop in Ebox as [E1 E2].
    apply negb_true_iff, Z.eqb_neq in E1, E2.
    pose proof (extract_sprites_nth _ _ _ _ _ _ _ Hs Hc Hsp ltac:(lia) ltac:(lia))
      as Hsize.
    destruct sprite as [|p sprite']; [cbn in Hsize; nia|].
    destruct (read_name "fg" (fg cols)) as [fgv| |]; cbn [Py.bind] in Hone;
      try discriminate.
    injection Hone as <-. unfold set_annotations. cbn [pixels].
    rewrite expand_rows. cbn [pixels].
    pose proof (chunks_rows (Z.to_nat (width c)) ltac:(lia) (Z.to_nat (height c))
                  (List.length (map (is_fg fgv) (p :: sprite')))
                  (map (is_fg fgv) (p :: sprite'))
                  ltac:(now rewrite length_map) (le_n _)) as Hrows.
    cbn [map List.length chunks] in Hrows |- *. rewrite Hrows. lia.
  - cbn [Py.bind] in Hone. injection Hone as <-.
    unfold set_annotations, empty_glyph. cbn [pixels].
    rewrite repeat_length. lia.
Qed.

Lemma extracted_glyphs_have_equal_height_witness :
  exists e,
    _extract first_seen [(0, black_on_white)] glyph_channels
      [char_A; char_two_pixels] = Ok e
    /\ Forall (fun g => Z.of_nat (List.length (pixels g))
                        = base glyph_channels - offset_y e) (glyphs e).
Proof.
  eexists. split; [vm_compute; reflexivity|].
  apply (extracted_glyphs_have_equal_height first_seen [(0, black_on_white)]
           glyph_channels [char_A; char_two_pixels]).
  - vm_compute. reflexivity.
  - repeat constructor; cbn; lia.
Defined.

End BMFontMore.

(** ** Mac NFNT: reading the metrics back *)

Module NFNTReadTheory.
Import Py NFNTRead.

Lemma In_removelast {A} (l : list A) (x : A) : In x (removelast l) -> In x l.
Proof.
  induction l as [|a l IH]; [contradiction|].
  destruct l as [|b l]; [contradiction|].
  cbn [removelast]. intros [<-|H]; [now left|right; now apply IH].
Qed.

Lemma In_last {A} (l : list A) (d : A) : l <> [] -> In (last l d) l.
Proof.
  induction l as [|a l IH]; [congruence|]. intros _.
  destruct l as [|b l]; [now left|].
  right. apply IH. discriminate.
Qed.

Lemma In_enumerate {A} (l : list A) :
  forall s c a, In (c, a) (enumerate l s) ->
                In a l /\ s <= c < s + Z.of_nat (List.length l).
Proof.
  induction l as [|x l IH]; intros s c a H; [contradiction|].
  cbn [enumerate] in H. cbn [List.length]. destruct H as [H|H].
  - injection H as <- <-. split; [now left|lia].
  - destruct (IH _ _ _ H) as [Hin Hr]. split; [now right|lia].
Qed.

Lemma set_bearings_defined (fontrec : FontRec) (g : MacGlyph) :
  defined (set_bearings fontrec g) = defined g
  /\ width (set_bearings fontrec g) = width g
  /\ height (set_bearings fontrec g) = height g.
Proof. unfold set_bearings. destruct (defined g) eqn:E; auto. Qed.

Lemma kept_converted (fontrec : FontRec) (g : MacGlyph) (m : MacGlyph) :
  (exists c, m = modify_codepoint (set_bearings fontrec g) c)
  \/ m = modify_tag (set_bearings fontrec g) "missing"%string ->
  kept m = true -> converted_from fontrec g (drop_wo m).
Proof.
  intros Hm Hk. unfold converted_from.
  assert (Hsame : defined m = defined g /\ width m = width g /\ height m = height g
                  /\ left_bearing m = left_bearing (set_bearings fontrec g)
                  /\ right_bearing m = right_bearing (set_bearings fontrec g)).
  { destruct (set_bearings_defined fontrec g) as (Hd & Hw & Hh).
    destruct Hm as [[c ->] | ->]; unfold defined in *; cbn; auto. }
  destruct Hsame as (Hd & Hw & Hh & Hl & Hr).
  unfold kept in Hk. rewrite Hd, Hw, Hh in Hk.
  unfold advance_width. cbn [drop_wo g_width g_height g_left_bearing g_right_bearing].
  rewrite Hw, Hh, Hl, Hr. split; [reflexivity|]. split; [reflexivity|].
  unfold set_bearings. destruct (defined g) eqn:E; cbn.
  - split; lia.
  - cbn in Hk. apply andb_prop in Hk as [H1 H2].
    apply negb_true_iff in H1, H2. apply Z.eqb_neq in H1, H2. auto.
Qed.

(** The glyph-name encoding table changes tags only. *)
Lemma In_retag (properties : Properties) (l : list Glyph) (g' : Glyph) :
  In g' (retag properties l) ->
  exists g1, In g1 l
             /\ forall fontrec g, converted_from fontrec g g1 ->
                                  converted_from fontrec g g'.
Proof.
  unfold retag. destruct (encoding_table properties) as [tag_of|]; intros H.
  - apply in_map_iff in H as (g1 & <- & Hin). exists g1. split; [exact Hin|].
    intros fontrec g Hc. exact Hc.
  - exists g'. split; [exact H|]. auto.
Qed.

(** X8.  [_convert_nfnt]: every glyph of the converted font comes from a
    glyph of the resource and has its raster size.  If the width/offset
    entry of that glyph is not the 0xff marker, the converted glyph has the
    left bearing [wo_offset + kernMax] and its advance width is the entry's
    width; a glyph with a 0xff entry is in the font only if its raster is
    not empty, with the bearings it had. *)
Theorem converted_advance_is_wo_width (properties : Properties)
    (glyphs : list MacGlyph) (fontrec : FontRec) (g' : Glyph) :
  In g' (NFNTRead.glyphs (_convert_nfnt properties glyphs fontrec)) ->
  exists g, In g glyphs /\ converted_from fontrec g g'.
Proof.
  unfold _convert_nfnt. destruct glyphs as [|g0 gs] eqn:Hgs; [contradiction|].
  rewrite <- Hgs. cbn [NFNTRead.glyphs]. intros H.
  apply In_retag in H as (g1 & H & Hsame).
  enough (Hg1 : exists g, In g glyphs /\ converted_from fontrec g g1).
  { destruct Hg1 as (g & Hg & Hc). exists g. split; [exact Hg|].
    now apply Hsame. }
  clear Hsame g'. remember g1 as g' eqn:Hg'. clear Hg' g1.
  apply in_map_iff in H as (m & <- & Hm).
  apply filter_In in Hm as [Hm Hk].
  apply in_app_or in Hm as [Hm|Hm].
  - apply in_map_iff in Hm as ([c a] & <- & Hca). cbn [fst snd] in *.
    apply In_enumerate in Hca as [Ha _]. apply In_removelast in Ha.
    apply in_map_iff in Ha as (g & <- & Hg).
    exists g. split; [exact Hg|]. apply (kept_converted fontrec g); eauto.
  - destruct Hm as [<-|[]].
    assert (Hl : In (last (map (set_bearings fontrec) glyphs)
                          (set_bearings fontrec g0))
                    (map (set_bearings fontrec) glyphs)).
    { apply In_last. rewrite Hgs. discriminate. }
    apply in_map_iff in Hl as (g & Hg & Hin).
    exists g. split; [exact Hin|].
    apply (kept_converted fontrec g); [|exact Hk].
    right. now rewrite Hg.
Qed.

Lemma converted_advance_is_wo_width_witness :
  exists g', nth_error (NFNTRead.glyphs
                          (_convert_nfnt no_tables sample_glyphs sample_fontrec)) 1
             = Some g'
             /\ exists g, In g sample_glyphs /\ converted_from sample_fontrec g g'.
Proof.
  eexists. split; [reflexivity|].
  apply (converted_advance_is_wo_width no_tables sample_glyphs sample_fontrec).
  cbn. right. left. reflexivity.
Defined.

(** The codepoints given to the coded glyphs that are kept. *)
Lemma labelled_codepoints (fontrec : FontRec) (l : list MacGlyph) :
  forall s,
  exists cs,
    map g_codepoint
      (map drop_wo
         (filter kept (map (fun cg => modify_codepoint (snd cg) (fst cg))
                           (enumerate l s))))
    = map Some cs
    /\ StronglySorted Z.lt cs
    /\ Forall (fun c => s <= c < s + Z.of_nat (List.length l)) cs.
Proof.
  induction l as [|g l IH]; intros s.
  - exists []. cbn. repeat split; constructor.
  - destruct (IH (s + 1)) as (cs & Hmap & Hsort & Hrange).
    cbn [enumerate map filter fst snd List.length].
    assert (Hrange' : Forall (fun c => s <= c < s + Z.of_nat (S (List.length l))) cs).
    { eapply Forall_impl; [|exact Hrange]. cbn beta. intros c Hc. lia. }
    destruct (kept (modify_codepoint g s)).
    + exists (s :: cs). cbn [map]. rewrite Hmap. split; [reflexivity|]. split.
      * constructor; [exact Hsort|].
        eapply Forall_impl; [|exact Hrange]. cbn beta. intros c Hc. lia.
      * constructor; [lia|exact Hrange'].
    + exists cs. auto.
Qed.

(** The glyphs handed to the constructor, before the glyph-name encoding
    table is looked at: the coded glyphs that are kept, with increasing
    codepoints, and then the last glyph of the resource if it is kept. *)
Lemma kept_glyphs_shape (glyphs : list MacGlyph) (fontrec : FontRec) (g0 : MacGlyph) :
  Forall (fun g => codepoint g = None) glyphs ->
  glyphs <> [] ->
  let gl := map (set_bearings fontrec) glyphs in
  exists cs rest cps,
    map drop_wo
      (filter kept
         (map (fun cg => modify_codepoint (snd cg) (fst cg))
              (enumerate (removelast gl) (firstChar fontrec))
          ++ [modify_tag (last gl (set_bearings fontrec g0)) "missing"%string]))
    = cs ++ rest
    /\ map g_codepoint cs = map Some cps
    /\ StronglySorted Z.lt cps
    /\ Forall (fun c => firstChar fontrec <= c
                        < firstChar fontrec + Z.of_nat (List.length glyphs) - 1) cps
    /\ (rest = []
        \/ exists g, rest = [g] /\ g_codepoint g = None
                     /\ g_tag g = "missing"%string).
Proof.
  intros Hnone Hgs gl.
  set (lastg := modify_tag (last gl (set_bearings fontrec g0)) "missing"%string).
  destruct (labelled_codepoints fontrec (removelast gl) (firstChar fontrec))
    as (cps & Hmap & Hsort & Hrange).
  assert (Hne : gl <> []).
  { unfold gl. destruct glyphs; [contradiction|discriminate]. }
  assert (Hlen : Z.of_nat (List.length (removelast gl))
                 = Z.of_nat (List.length glyphs) - 1).
  { assert (H : List.length gl = List.length glyphs)
      by (unfold gl; apply length_map).
    rewrite <- H.
    rewrite (app_removelast_last (set_bearings fontrec g0) Hne) at 2.
    rewrite length_app. cbn [List.length]. lia. }
  rewrite filter_app, map_app.
  eexists. eexists. exists cps. split; [reflexivity|].
  split; [exact Hmap|]. split; [exact Hsort|]. split.
  - eapply Forall_impl; [|exact Hrange]. cbn beta. intros c Hc. lia.
  - cbn [filter]. destruct (kept lastg); [|now left].
    right. eexists. split; [reflexivity|]. split; [|reflexivity].
    unfold lastg. cbn [drop_wo modify_tag g_codepoint codepoint].
    assert (Hl : In (last gl (set_bearings fontrec g0)) gl) by now apply In_last.
    apply in_map_iff in Hl as (g & <- & Hin).
    rewrite Forall_forall in Hnone. specialize (Hnone g Hin).
    unfold set_bearings. destruct (defined g); cbn; exact Hnone.
Qed.

(** What the glyph-name encoding table and the constructor's [_add_labels]
    make of such a list of glyphs. *)
Lemma labels_after (properties : Properties) (encoder : option (Glyph -> Glyph))
    (cs rest : list Glyph) (cps : list Z) :
  (forall add_labels g, encoder = Some add_labels ->
     g_codepoint (add_labels g) = g_codepoint g
     /\ g_tag (add_labels g) = g_tag g) ->
  map g_codepoint cs = map Some cps ->
  (rest = []
   \/ exists g, rest = [g] /\ g_codepoint g = None /\ g_tag g = "missing"%string) ->
  exists cs' rest',
    _add_labels encoder (retag properties (cs ++ rest)) = cs' ++ rest'
    /\ map g_codepoint cs' = map Some cps
    /\ (rest' = []
        \/ exists g, rest' = [g]
             /\ g_codepoint g = match cs' with [] => Some 0 | _ :: _ => None end
             /\ g_tag g = match encoding_table properties with
                          | None => "missing"%string
                          | Some tag_of => tag_of None
                          end).
Proof.
  intros Henc Hcs Hrest.
  (* the encoding table *)
  assert (Hretag : exists cs1 rest1,
             retag properties (cs ++ rest) = cs1 ++ rest1
             /\ map g_codepoint cs1 = map Some cps
             /\ (rest1 = []
                 \/ exists g, rest1 = [g] /\ g_codepoint g = None
                      /\ g_tag g = match encoding_table properties with
                                   | None => "missing"%string
                                   | Some tag_of => tag_of None
                                   end)).
  { unfold retag. destruct (encoding_table properties) as [tag_of|].
    - rewrite map_app. eexists. eexists. split; [reflexivity|]. split.
      + rewrite map_map. cbn [set_tag g_codepoint]. exact Hcs.
      + destruct Hrest as [-> | (g & -> & Hg & _)]; [now left|].
        right. eexists. split; [reflexivity|]. cbn [set_tag g_codepoint g_tag].
        rewrite Hg. split; reflexivity.
    - exists cs, rest. auto. }
  destruct Hretag as (cs1 & rest1 & -> & Hcs1 & Hrest1).
  clear Hcs Hrest cs rest.
  (* the encoder *)
  set (enc := fun l : list Glyph =>
                match encoder with Some add_labels => map add_labels l | None => l end).
  assert (Henc_app : forall a b, enc (a ++ b) = enc a ++ enc b).
  { intros a b. unfold enc. destruct encoder; [apply map_app|reflexivity]. }
  assert (Henc_cp : forall l, map g_codepoint (enc l) = map g_codepoint l).
  { intros l. unfold enc. destruct encoder as [f|] eqn:E; [|reflexivity].
    rewrite map_map. apply map_ext. intros g. apply (Henc f g eq_refl). }
  assert (Henc_one : forall g, exists g', enc [g] = [g']
                       /\ g_codepoint g' = g_codepoint g /\ g_tag g' = g_tag g).
  { intros g. unfold enc. destruct encoder as [f|] eqn:E.
    - exists (f g). split; [reflexivity|]. apply (Henc f g eq_refl).
    - exists g. auto. }
  assert (Henc_nil : enc [] = []) by (unfold enc; now destruct encoder).
  unfold _add_labels. fold (enc
    (if negb (existsb (fun g => match g_codepoint g with
                                | Some _ => true | None => false end)
                      (cs1 ++ rest1)) && negb false
     then map (fun ig => set_codepoint (snd ig) (fst ig)) (enumerate (cs1 ++ rest1) 0)
     else cs1 ++ rest1)).
  destruct cps as [|c cps].
  - (* no coded glyph is kept *)
    destruct cs1 as [|g1 cs1]; [|discriminate Hcs1]. cbn [app].
    destruct Hrest1 as [-> | (g & -> & Hg & Ht)].
    + cbn. rewrite Henc_nil. exists [], []. cbn. auto.
    + cbn [existsb]. rewrite Hg. cbn [orb negb andb enumerate map fst snd].
      destruct (Henc_one (set_codepoint g 0)) as (g' & -> & Hc' & Ht').
      exists [], [g']. split; [reflexivity|]. split; [reflexivity|].
      right. exists g'. split; [reflexivity|]. rewrite Hc', Ht'.
      cbn [set_codepoint g_codepoint g_tag]. split; [reflexivity|exact Ht].
  - (* a coded glyph is kept *)
    destruct cs1 as [|g1 cs1]; [discriminate Hcs1|].
    assert (Hg1 : g_codepoint g1 = Some c) by (cbn in Hcs1; congruence).
    cbn [app existsb]. rewrite Hg1. cbn [orb negb andb].
    change (g1 :: cs1 ++ rest1) with ((g1 :: cs1) ++ rest1).
    rewrite Henc_app.
    exists (enc (g1 :: cs1)), (enc rest1). split; [reflexivity|].
    split; [now rewrite Henc_cp|].
    assert (Hnot : enc (g1 :: cs1) <> []).
    { intros H. apply (f_equal (map g_codepoint)) in H.
      rewrite Henc_cp in H. discriminate H. }
    destruct (enc (g1 :: cs1)) as [|e es]; [contradiction|].
    destruct Hrest1 as [-> | (g & -> & Hg & Ht)]; [left; exact Henc_nil|].
    destruct (Henc_one g) as (g' & -> & Hc' & Ht').
    right. exists g'. split; [reflexivity|]. rewrite Hc', Ht'. auto.
Qed.

(** X9.  The labels of the font [_convert_nfnt] returns, on glyphs
    without labels as [_extract_nfnt] makes them, and with an encoder (if
    the encoding of the font has a charmap) that leaves the codepoint and
    the tags of a glyph as they are.  The coded glyphs that are kept are
    labelled with strictly increasing codepoints out of
    [firstChar .. firstChar + n - 2], where [n] is the number of glyphs of
    the resource.  The last glyph of the resource, if kept, comes last.  It
    is tagged 'missing' unless the resource has a glyph-name encoding table,
    which gives every glyph the tag it holds for the glyph's codepoint; and
    it has no codepoint, unless no coded glyph is kept: then the
    constructor of the font labels it with its index, the codepoint 0. *)
Theorem converted_codepoints_increase (properties : Properties)
    (encoder : option (Glyph -> Glyph)) (glyphs : list MacGlyph)
    (fontrec : FontRec) :
  Forall (fun g => codepoint g = None) glyphs ->
  (forall add_labels g, encoder = Some add_labels ->
     g_codepoint (add_labels g) = g_codepoint g
     /\ g_tag (add_labels g) = g_tag g) ->
  let out := Font_glyphs encoder (_convert_nfnt properties glyphs fontrec) in
  exists cs rest,
    out = cs ++ rest
    /\ (exists cps, map g_codepoint cs = map Some cps
                    /\ StronglySorted Z.lt cps
                    /\ Forall (fun c => firstChar fontrec <= c
                                  < firstChar fontrec
                                    + Z.of_nat (List.length glyphs) - 1) cps)
    /\ (rest = []
        \/ exists g, rest = [g]
             /\ g_codepoint g = match cs with [] => Some 0 | _ :: _ => None end
             /\ g_tag g = match encoding_table properties with
                          | None => "missing"%string
                          | Some tag_of => tag_of None
                          end).
Proof.
  intros Hnone Henc. unfold Font_glyphs, _convert_nfnt.
  destruct glyphs as [|g0 gs] eqn:Hgs.
  - exists [], []. cbn [NFNTRead.glyphs]. split.
    + unfold _add_labels. cbn. now destruct encoder.
    + split; [|now left]. exists []. cbn. repeat split; constructor.
  - rewrite <- Hgs in *. cbn [NFNTRead.glyphs].
    destruct (kept_glyphs_shape glyphs fontrec g0 Hnone)
      as (cs & rest & cps & -> & Hcs & Hsort & Hrange & Hrest).
    { rewrite Hgs. discriminate. }
    destruct (labels_after properties encoder cs rest cps Henc Hcs Hrest)
      as (cs' & rest' & -> & Hcs' & Hrest').
    exists cs', rest'. split; [reflexivity|]. split; [|exact Hrest'].
    exists cps. auto.
Qed.

Lemma converted_codepoints_increase_witness :
  exists cs rest,
    Font_glyphs None (_convert_nfnt no_tables sample_glyphs sample_fontrec)
    = cs ++ rest
    /\ (exists cps, map g_codepoint cs = map Some cps
                    /\ StronglySorted Z.lt cps
                    /\ Forall (fun c => 65 <= c < 65 + 4 - 1) cps)
    /\ (rest = []
        \/ exists g, rest = [g]
             /\ g_codepoint g = match cs with [] => Some 0 | _ :: _ => None end
             /\ g_tag g = "missing"%string).
Proof.
  apply (converted_codepoints_increase no_tables None sample_glyphs sample_fontrec).
  - repeat constructor.
  - discriminate.
Defined.

End NFNTReadTheory.

(** ** Mac NFNT: the writer's metrics as the reader takes them *)

Module NFNTRoundTrip.
Import Py.

Lemma attr_of_all_ok {A} (f : NFNT.Glyph -> A) (l : list (option NFNT.Glyph)) :
  forall r, NFNT.attr_of_all f l = Ok r ->
  exists gs, l = map Some gs /\ r = map f gs.
Proof.
  induction l as [|[g|] l IH]; intros r H; cbn in H.
  - injection H as <-. now exists [].
  - destruct (NFNT.attr_of_all f l) as [rest| |]; cbn [bind] in H; try discriminate.
    injection H as <-. destruct (IH rest eq_refl) as (gs & -> & ->).
    now exists (g :: gs).
  - discriminate.
Qed.

Lemma existsb_false_In {A} (p : A -> bool) (l : list A) (x : A) :
  existsb p l = false -> In x l -> p x = false.
Proof.
  intros H Hin. destruct (p x) eqn:E; [|reflexivity].
  rewrite <- H. symmetry. apply existsb_exists. now exists x.
Qed.

Section Metrics.

Variable glyph_bool : NFNT.Glyph -> bool.
Variable reduce : NFNT.Glyph -> NFNT.Glyph.
Variable expand : NFNT.Glyph -> Z -> Z -> NFNT.Glyph.

(** X10.  Writer and reader agree on the metrics of the glyphs with an
    advance width that is not negative.  When [_normalize_metrics] accepts
    a font, every glyph [g] it returns carries a width/offset entry with
    [0 <= wo_offset < 255] and [wo_width < 255], and [kern] is not
    negative.  If the advance width [wo_width] is not negative either, the
    two bytes of the entry hold the two values as they are, the reader does
    not take the entry for the 0xff marker, and from the entry and the
    [kernMax = -kern] of the header (an [int16], so for [kern] up to 2^15)
    the reader's conversion gives back the left and right bearing of [g],
    whatever the size of the rows cut from the strike is as long as their
    width is the glyph's.  A glyph with the advance width -1 is accepted as
    well, but its width is stored as 0xff and the reader takes its entry for
    the marker of a missing glyph. *)
Theorem written_metrics_read_back (font_glyphs : list NFNT.Glyph)
    (ink_bounds : NFNT.Bounds) (glyphs : list NFNT.Glyph) (kern : Z)
    (g : NFNT.Glyph) :
  NFNT._normalize_metrics glyph_bool reduce expand font_glyphs ink_bounds
  = Ok (glyphs, kern) ->
  In g glyphs ->
  exists o w,
    NFNT.wo_offset g = Some o /\ NFNT.wo_width g = Some w
    /\ 0 <= o < 255 /\ w < 255 /\ 0 <= kern
    /\ (0 <= w ->
        NFNTRead.uint8 o = o /\ NFNTRead.uint8 w = w
        /\ forall (fontrec : NFNTRead.FontRec) (h : Z),
             NFNTRead.kernMax fontrec = NFNTRead.int16 (- kern) ->
             kern <= 2 ^ 15 ->
             let g' := NFNTRead.set_bearings fontrec
                         (NFNTRead.read_glyph (NFNT.width g) h
                            (NFNTRead.uint8 o) (NFNTRead.uint8 w)) in
             NFNTRead.defined g' = true
             /\ NFNTRead.left_bearing g' = NFNT.left_bearing g
             /\ NFNTRead.right_bearing g' = NFNT.right_bearing g)
    /\ (w = -1 ->
        NFNTRead.uint8 w = 255
        /\ forall h : Z,
             NFNTRead.defined (NFNTRead.read_glyph (NFNT.width g) h
                                 (NFNTRead.uint8 o) (NFNTRead.uint8 w)) = false).
Proof.
  unfold NFNT._normalize_metrics. intros H Hin.
  destruct (NFNT.attr_of_all NFNT.left_bearing _) as [lbs| |] eqn:Hl;
    cbn [bind] in H; try discriminate.
  destruct (attr_of_all_ok _ _ _ Hl) as (ngs & Hngs & ->).
  rewrite Hngs in H.
  destruct (min_of (map NFNT.left_bearing ngs)) as [m| |] eqn:Hm;
    cbn [bind] in H; try discriminate.
  rewrite NFNTTheory.attr_of_all_some in H. cbn [bind] in H.
  destruct (existsb _ _) eqn:E1; [discriminate|].
  destruct (existsb (NFNT.attr_ge_255 NFNT.wo_offset) _) eqn:E2; [discriminate|].
  injection H as <- <-.
  pose proof (existsb_false_In _ _ _ E1 Hin) as Hw.
  pose proof (existsb_false_In _ _ _ E2 Hin) as Ho.
  apply in_map_iff in Hin as (n & <- & Hn).
  unfold NFNT.attr_ge_255 in Hw, Ho. cbn in Hw, Ho.
  apply Z.leb_gt in Hw, Ho.
  assert (Hmin : m <= NFNT.left_bearing n).
  { destruct ngs as [|a l]; [contradiction|]. cbn in Hm. injection Hm as <-.
    destruct Hn as [<-|Hn]; [apply fold_min_le|].
    apply fold_min_lower. now apply in_map. }
  exists (NFNT.left_bearing n + Z.max 0 (- m)), (NFNT.advance_width n).
  cbn [NFNT.add_metrics NFNT.wo_offset NFNT.wo_width NFNT.width
       NFNT.left_bearing NFNT.right_bearing].
  split; [reflexivity|]. split; [reflexivity|].
  split; [lia|]. split; [lia|]. split; [lia|].
  unfold NFNTRead.uint8, NFNTRead.int16.
  change (2 ^ 8) with 256. change (2 ^ 15) with 32768. change (2 ^ 16) with 65536.
  split.
  - intros Hw0.
    rewrite (Z.mod_small (NFNT.left_bearing n + Z.max 0 (- m))) by lia.
    rewrite (Z.mod_small (NFNT.advance_width n)) by lia.
    split; [reflexivity|]. split; [reflexivity|].
    intros fontrec h Hk Hkern.
    rewrite Z.mod_small in Hk by lia.
    unfold NFNTRead.set_bearings, NFNTRead.defined.
    cbn [NFNTRead.read_glyph NFNTRead.wo_width NFNTRead.wo_offset NFNTRead.width].
    destruct (NFNT.advance_width n =? 255) eqn:Ea; [apply Z.eqb_eq in Ea; lia|].
    destruct (NFNT.left_bearing n + Z.max 0 (- m) =? 255) eqn:Eb;
      [apply Z.eqb_eq in Eb; lia|].
    cbn. rewrite ?Ea, ?Eb, Hk. unfold NFNT.advance_width in *.
    split; [reflexivity|]. lia.
  - intros Hneg. rewrite Hneg. split; [reflexivity|]. intros h.
    unfold NFNTRead.defined. cbn [NFNTRead.read_glyph NFNTRead.wo_width].
    reflexivity.
Qed.

End Metrics.

Lemma written_metrics_read_back_witness :
  exists o w,
    NFNT.wo_offset (NFNT.add_metrics 1 NFNT.narrow_glyph) = Some o
    /\ NFNT.wo_width (NFNT.add_metrics 1 NFNT.narrow_glyph) = Some w
    /\ 0 <= o < 255 /\ 0 <= w < 255
    /\ forall (fontrec : NFNTRead.FontRec) (h : Z),
         NFNTRead.kernMax fontrec = NFNTRead.int16 (- 1) ->
         let g' := NFNTRead.set_bearings fontrec
                     (NFNTRead.read_glyph 6 h (NFNTRead.uint8 o) (NFNTRead.uint8 w)) in
         NFNTRead.left_bearing g' = -1 /\ NFNTRead.right_bearing g' = 1.
Proof.
  destruct (written_metrics_read_back NFNT.always_true NFNT.keep NFNT.keep_rows
              [NFNT.narrow_glyph] NFNT.sample_bounds
              [NFNT.add_metrics 1 NFNT.narrow_glyph] 1
              (NFNT.add_metrics 1 NFNT.narrow_glyph))
    as (o & w & Ho & Hw & Hob & Hwb & _ & Hpos & _).
  - reflexivity.
  - now left.
  - exists o, w. split; [exact Ho|]. split; [exact Hw|]. split; [exact Hob|].
    assert (H0 : 0 <= w) by (vm_compute in Hw; injection Hw as <-; lia).
    split; [lia|].
    intros fontrec h Hk. destruct (Hpos H0) as (_ & _ & Hback).
    destruct (Hback fontrec h Hk ltac:(lia)) as (_ & Hl & Hr).
    split; [exact Hl|exact Hr].
Defined.

(** *** The width/offset table *)

Import NFNTRead.

Lemma high_low_word (n : Z) :
  0 <= n -> Z.land n 65535 + Z.shiftl (Z.shiftr n 16) 16 = n.
Proof.
  intros Hn. change 65535 with (Z.ones 16).
  rewrite Z.land_ones, Z.shiftr_div_pow2, Z.shiftl_mul_pow2 by lia.
  pose proof (Z.div_mod n (2 ^ 16)). lia.
Qed.

(** X11.  Where the writer puts the width/offset table and where the
    reader looks for it, the reader being given no high word (the default
    [owt_loc_high = 0]) when the writer is to store it in [nDescent]
    ([ndescent_is_high]), and the high word that the writer returns
    otherwise.  The reader finds the table exactly when the ink bottom of
    the font is not positive, or the high word is stored in [nDescent], or
    the ink bottom happens to be the high word: a positive [nDescent] is
    taken for the high word of the offset. *)
Theorem wo_table_found (font_strike_len loc_table_len ink_bottom offset : Z)
    (ndescent_is_high : bool) :
  0 <= font_strike_len -> 0 <= loc_table_len ->
  Z.even (font_strike_len + loc_table_len) = true ->
  let lay := _create_nfnt_layout font_strike_len loc_table_len ink_bottom
               ndescent_is_high in
  let given := if ndescent_is_high then 0 else owt_loc_high lay in
  _extract_nfnt_wo_table_at offset (owTLoc lay) (nDescent lay) given
  = offset + wo_table_at lay
  <-> (ink_bottom <= 0
       \/ (ndescent_is_high = true /\ owt_loc_high lay <> 0)
       \/ ink_bottom = owt_loc_high lay).
Proof.
  intros HS HL Heven lay given.
  set (n := font_strike_len + loc_table_len + 10).
  set (owt := Z.shiftr n 1).
  assert (Hn : n = 2 * owt).
  { unfold owt. rewrite Z.shiftr_div_pow2 by lia. change (2 ^ 1) with 2.
    assert (He : Z.even n = true).
    { unfold n. rewrite Z.even_add, Heven. reflexivity. }
    apply Z.even_spec in He as [k Hk]. rewrite Hk.
    rewrite Z.mul_comm, Z.div_mul by lia. lia. }
  assert (Howt : 0 <= owt) by (unfold n in Hn; lia).
  assert (Hhi : 0 <= Z.shiftr owt 16) by (apply Z.shiftr_nonneg; lia).
  pose proof (high_low_word owt Howt) as Hsplit.
  assert (Hinj : forall a, Z.shiftl a 16 = Z.shiftl (Z.shiftr owt 16) 16
                           <-> a = Z.shiftr owt 16).
  { intros a. rewrite !Z.shiftl_mul_pow2 by lia. lia. }
  unfold _extract_nfnt_wo_table_at, given, lay, _create_nfnt_layout, NFNTHeader_size.
  cbn [owTLoc nDescent owt_loc_high wo_table_at].
  fold n. fold owt.
  destruct ndescent_is_high; cbn [andb].
  - destruct (Z.shiftr owt 16 =? 0) eqn:E0; cbn [negb].
    + apply Z.eqb_eq in E0.
      destruct (0 <? ink_bottom) eqn:Eb;
        [apply Z.ltb_lt in Eb | apply Z.ltb_ge in Eb].
      * split; [intros H | intros [H|[[_ H]|H]]; try lia].
        exfalso. assert (Z.shiftl ink_bottom 16 = Z.shiftl (Z.shiftr owt 16) 16) by lia.
        apply Hinj in H0. lia.
      * rewrite <- E0 at 1. split; [intros _; now left | intros _; lia].
    + apply Z.eqb_neq in E0.
      assert (Hpos : (0 <? Z.shiftr owt 16) = true) by (apply Z.ltb_lt; lia).
      rewrite Hpos. split; [intros _; right; left; auto | intros _; lia].
  - destruct (0 <? ink_bottom) eqn:Eb;
      [apply Z.ltb_lt in Eb | apply Z.ltb_ge in Eb].
    + split.
      * intros H. right. right. apply Hinj. lia.
      * intros [H|[[H _]|H]]; [lia|discriminate|]. rewrite H. lia.
    + split; [intros _; now left | intros _; lia].
Qed.

Lemma wo_table_found_witness :
  _extract_nfnt_wo_table_at 0 (owTLoc (_create_nfnt_layout 32 12 (-2) true))
    (nDescent (_create_nfnt_layout 32 12 (-2) true)) 0
  = 0 + wo_table_at (_create_nfnt_layout 32 12 (-2) true)
  <-> (-2 <= 0
       \/ (true = true /\ owt_loc_high (_create_nfnt_layout 32 12 (-2) true) <> 0)
       \/ -2 = owt_loc_high (_create_nfnt_layout 32 12 (-2) true)).
Proof.
  apply (wo_table_found 32 12 (-2) 0 true); [lia | lia | reflexivity].
Defined.

End NFNTRoundTrip.

(** ** Windows FNT: what the reader makes of what the writer stores *)

Module WinFntWriteTheory.
Import Py WinFnt WinFntWrite.

(** *** Strings *)

Lemma before_nul_app (name rest : list Z) :
  ~ In 0 name -> before_nul (name ++ 0 :: rest) = name.
Proof.
  induction name as [|b name IH]; intros Hno; cbn.
  - reflexivity.
  - destruct (b =? 0) eqn:E.
    + apply Z.eqb_eq in E. exfalso. apply Hno. now left.
    + f_equal. apply IH. intros H. apply Hno. now right.
Qed.

Lemma bytes_to_str_terminated (name rest : list Z) :
  ~ In 0 name -> bytes_to_str (name ++ 0 :: rest) = name.
Proof.
  intros Hno. unfold bytes_to_str.
  assert (H : existsb (fun b => b =? 0) (name ++ 0 :: rest) = true).
  { apply existsb_exists. exists 0. split; [|reflexivity].
    apply in_or_app. right. now left. }
  rewrite H. now apply before_nul_app.
Qed.

Lemma from_pos_app (pre rest : list Z) :
  from_pos (pre ++ rest) (Z.of_nat (List.length pre)) = rest.
Proof.
  unfold from_pos, slice, clamp.
  rewrite length_app.
  destruct (Z.of_nat (List.length pre) <? 0) eqn:E1; [apply Z.ltb_lt in E1; lia|].
  destruct (Z.of_nat (List.length pre + List.length rest) <? 0) eqn:E2;
    [apply Z.ltb_lt in E2; lia|].
  rewrite Z.min_id, Z.min_l by lia.
  rewrite Nat2Z.id, skipn_app, skipn_all, Nat.sub_diag. cbn [skipn app].
  apply firstn_all2. lia.
Qed.

(** X12.  The family and device names of [create_fnt] as [_parse_win_props]
    reads them.  For a file whose first byte is zero (the low byte of
    [dfVersion]) and names without a NUL, the string read at [dfFace] is
    the family and the string read at [dfDevice] is the device name, also
    when the device name is empty and the pointer is set to zero. *)
Theorem names_read_back (body family device : list Z) :
  nth_error body 0 = Some 0 ->
  ~ In 0 family -> ~ In 0 device ->
  let '(names, dfFace, dfDevice) :=
    create_fnt_names (Z.of_nat (List.length body)) family device in
  let fnt := body ++ names in
  bytes_to_str (from_pos fnt dfFace) = family
  /\ bytes_to_str (from_pos fnt dfDevice) = device.
Proof.
  intros Hfirst Hfam Hdev. unfold create_fnt_names. cbv zeta. split.
  - rewrite from_pos_app, <- app_assoc. cbn [app].
    now apply bytes_to_str_terminated.
  - destruct device as [|d device].
    + cbn [app Z.eqb]. destruct body as [|b body]; [discriminate|].
      injection Hfirst as ->.
      pose proof (from_pos_app [] ((0 :: body) ++ (family ++ [0]) ++ [0])) as H0.
      cbn [List.length app Z.of_nat] in H0 |- *. rewrite H0.
      apply (bytes_to_str_terminated [] _). intros [].
    + cbn [app].
      replace (Z.of_nat (List.length body) + Z.of_nat (List.length (family ++ [0])))
        with (Z.of_nat (List.length (body ++ family ++ [0])))
        by (rewrite !length_app; lia).
      replace (body ++ (family ++ [0]) ++ d :: device ++ [0])
        with ((body ++ family ++ [0]) ++ (d :: device) ++ 0 :: [])
        by (rewrite <- !app_assoc; reflexivity).
      assert (Hd : exists x l, device ++ [0] = x :: l)
        by (destruct device; cbn; eauto).
      destruct Hd as (x & l & Hd). rewrite Hd. rewrite from_pos_app.
      now apply bytes_to_str_terminated.
Qed.

Lemma names_read_back_witness :
  let '(names, dfFace, dfDevice) := create_fnt_names 3 [70; 111] [] in
  let fnt := [0; 2; 9] ++ names in
  bytes_to_str (from_pos fnt dfFace) = [70; 111]
  /\ bytes_to_str (from_pos fnt dfDevice) = [].
Proof.
  apply (names_read_back [0; 2; 9] [70; 111] []).
  - reflexivity.
  - cbn. intuition lia.
  - intros [].
Defined.

(** *** Weight and style *)

Lemma round_hundreds_range (w : Z) :
  100 <= w <= 900 ->
  exists q, 1 <= q <= 9 /\ round_hundreds w = 100 * q.
Proof.
  intros Hw. unfold round_hundreds.
  pose proof (Z.div_mod w 100 ltac:(lia)) as Hdm.
  pose proof (Z.mod_pos_bound w 100 ltac:(lia)) as Hr.
  assert (Hq : 1 <= w / 100 <= 9) by lia.
  assert (Hq9 : w / 100 = 9 -> w mod 100 = 0) by lia.
  destruct (w mod 100 <? 50) eqn:E1; [exists (w / 100); lia|].
  apply Z.ltb_ge in E1.
  destruct (50 <? w mod 100) eqn:E2; [exists (w / 100 + 1); lia|].
  destruct (Z.even (w / 100)); [exists (w / 100); lia | exists (w / 100 + 1); lia].
Qed.

(** X13.  The weight of the header.  Whatever non-zero [dfWeight] the
    header holds, the reader finds a weight name for it: the look-up in
    [_WEIGHT_MAP] never fails.  Each weight name of the table but the
    empty one is stored by the writer as its weight and read back as
    itself; the empty name of the table's entry [(0, '')] is stored as 0
    and read back as no weight at all; and a name that is not in the table
    is stored, and read back, as 'regular'. *)
Theorem weight_read_back :
  (forall dfWeight, dfWeight <> 0 ->
     exists name, _parse_win_props_weight dfWeight = Ok (Some name)
                  /\ In (round_hundreds (Z.max 100 (Z.min 900 dfWeight)), name)
                        _WEIGHT_MAP
                  /\ name <> ""%string)
  /\ (forall w name, In (w, name) _WEIGHT_MAP ->
        create_fnt_weight name = w
        /\ _parse_win_props_weight (create_fnt_weight name)
           = Ok (if w =? 0 then None else Some name))
  /\ (create_fnt_weight "" = 0
      /\ _parse_win_props_weight (create_fnt_weight "") = Ok None)
  /\ (forall name, (forall w, ~ In (w, name) _WEIGHT_MAP) ->
        _parse_win_props_weight (create_fnt_weight name) = Ok (Some "regular"%string)).
Proof.
  split; [|split; [|split]].
  - intros w Hw. unfold _parse_win_props_weight.
    destruct (w =? 0) eqn:E; [apply Z.eqb_eq in E; contradiction|].
    destruct (round_hundreds_range (Z.max 100 (Z.min 900 w)) ltac:(lia))
      as (q & Hq & ->).
    assert (Hcases : q = 1 \/ q = 2 \/ q = 3 \/ q = 4 \/ q = 5 \/ q = 6 \/ q = 7
                     \/ q = 8 \/ q = 9) by lia.
    repeat (destruct Hcases as [-> | Hcases]); try subst q;
      (eexists; split; [reflexivity|]; split; [cbn; tauto | discriminate]).
  - intros w name Hin. cbn in Hin.
    repeat (destruct Hin as [Hin|Hin]; [injection Hin as <- <-|]);
      try contradiction; split; reflexivity.
  - split; reflexivity.
  - intros name Hno. unfold create_fnt_weight.
    assert (H : reversed_get name _WEIGHT_MAP None = None).
    { assert (G : forall d found,
                 (forall w, ~ In (w, name) d) ->
                 reversed_get name d found = found).
      { induction d as [|[k v] d IH]; intros found Hd; cbn; [reflexivity|].
        destruct (String.eqb v name) eqn:E.
        - apply String.eqb_eq in E. subst v. exfalso. apply (Hd k). now left.
        - apply IH. intros w Hin. apply (Hd w). now right. }
      now apply G. }
    rewrite H. reflexivity.
Qed.

Lemma weight_read_back_witness :
  (exists name, _parse_win_props_weight 650 = Ok (Some name)
                /\ In (round_hundreds (Z.max 100 (Z.min 900 650)), name) _WEIGHT_MAP
                /\ name <> ""%string)
  /\ _parse_win_props_weight (create_fnt_weight "bold") = Ok (Some "bold"%string)
  /\ _parse_win_props_weight (create_fnt_weight "") = Ok None
  /\ _parse_win_props_weight (create_fnt_weight "book") = Ok (Some "regular"%string).
Proof.
  split; [|split; [|split]].
  - apply (proj1 weight_read_back 650). lia.
  - apply (proj2 (proj1 (proj2 weight_read_back) 700 "bold"%string ltac:(cbn; tauto))).
  - apply (proj2 (proj1 (proj2 (proj2 weight_read_back)))).
  - apply (proj2 (proj2 (proj2 weight_read_back)) "book"%string).
    intros w H. cbn in H.
    repeat (destruct H as [H|H]; [discriminate H|]). exact H.
Defined.

(** X14.  The style of the header.  [dfPitchAndFamily] is a byte, and the
    reader masks it with 0xff00: whatever the byte is, the style it reads
    is the empty one, so that none of the styles the writer stores
    ('serif', 'sans serif', ...) is read back. *)
Theorem style_is_never_read (dfPitchAndFamily : Z) :
  0 <= dfPitchAndFamily < 256 ->
  _parse_win_props_style dfPitchAndFamily = Ok ""%string.
Proof.
  intros Hb. unfold _parse_win_props_style.
  assert (H : Z.land dfPitchAndFamily 0xff00 = 0).
  { apply Z.bits_inj'. intros n Hn. rewrite Z.land_spec, Z.bits_0.
    destruct (Z.ltb n 8) eqn:E.
    - apply Z.ltb_lt in E.
      assert (Hc : n = 0 \/ n = 1 \/ n = 2 \/ n = 3 \/ n = 4 \/ n = 5 \/ n = 6
                   \/ n = 7) by lia.
      repeat (destruct Hc as [-> | Hc]); try subst n; apply andb_false_r.
    - apply Z.ltb_ge in E.
      assert (Hz : Z.testbit dfPitchAndFamily n = false).
      { destruct (Z.eq_dec dfPitchAndFamily 0) as [->|Hne];
          [apply Z.bits_0|].
        apply Z.bits_above_log2; [lia|].
        assert (Z.log2 dfPitchAndFamily < 8); [|lia].
        apply Z.log2_lt_pow2; lia. }
      now rewrite Hz. }
  rewrite H. reflexivity.
Qed.

Lemma style_is_never_read_witness :
  pitch_and_family true "serif" = 17
  /\ _parse_win_props_style (pitch_and_family true "serif") = Ok ""%string.
Proof.
  split; [reflexivity|].
  apply (style_is_never_read (pitch_and_family true "serif")).
  cbn. lia.
Defined.

(** *** Bitmaps *)

Lemma every_nth (step : nat) :
  (0 < step)%nat ->
  forall fuel l k, (List.length l <= fuel)%nat ->
  nth_error (every fuel step l) k = nth_error l (k * step).
Proof.
  intros Hs. induction fuel as [|fuel IH]; intros l k Hl.
  - destruct l; [|cbn in Hl; lia]. cbn. now rewrite !nth_error_nil.
  - destruct l as [|b l]; [cbn; now rewrite !nth_error_nil|].
    cbn [every]. destruct k as [|k]; [reflexivity|].
    cbn [nth_error]. rewrite IH.
    + rewrite nth_error_skipn. f_equal; lia.
    + rewrite length_skipn. cbn [List.length] in *. lia.
Qed.

Lemma slice_step_nth (bm : list Z) (col step k : nat) :
  (0 < step)%nat ->
  nth_error (slice_step bm col step) k = nth_error bm (col + k * step).
Proof.
  intros Hs. unfold slice_step. rewrite every_nth.
  - apply nth_error_skipn.
  - exact Hs.
  - rewrite length_skipn. lia.
Qed.

Lemma length_from_nth {A} (l : list A) (h : nat) :
  (forall r, (r < h)%nat <-> nth_error l r <> None) -> List.length l = h.
Proof.
  intros H.
  assert (H1 : forall r, (r < h)%nat <-> (r < List.length l)%nat).
  { intros r. rewrite H. apply nth_error_Some. }
  destruct (Nat.lt_trichotomy (List.length l) h) as [Hlt|[Heq|Hgt]]; [|exact Heq|].
  - apply H1 in Hlt. lia.
  - apply H1 in Hgt. lia.
Qed.

Lemma slice_step_length (bm : list Z) (H B col : nat) :
  List.length bm = (H * B)%nat -> (col < B)%nat ->
  List.length (slice_step bm col B) = H.
Proof.
  intros Hlen Hc. apply length_from_nth. intros r.
  rewrite slice_step_nth by lia. rewrite nth_error_Some, Hlen. nia.
Qed.

Lemma nth_error_concat_const {A} (ls : list (list A)) (h : nat) :
  Forall (fun l => List.length l = h) ls ->
  forall c r, (r < h)%nat ->
  nth_error (concat ls) (c * h + r)
  = match nth_error ls c with Some l => nth_error l r | None => None end.
Proof.
  induction 1 as [|l ls Hl Hls IH]; intros c r Hr.
  - cbn. now rewrite !nth_error_nil.
  - cbn [concat]. destruct c as [|c]; cbn [nth_error].
    + rewrite nth_error_app1 by lia. reflexivity.
    + rewrite nth_error_app2 by lia.
      replace (S c * h + r - List.length l)%nat with (c * h + r)%nat by lia.
      now apply IH.
Qed.

(** The byte of column [c] and row [r] after the transposition. *)
Lemma transposed_nth (bm : list Z) (H B c r : nat) :
  List.length bm = (H * B)%nat -> (c < B)%nat -> (r < H)%nat ->
  nth_error (concat (map (fun _col => slice_step bm _col B) (seq 0 B))) (c * H + r)
  = nth_error bm (c + r * B).
Proof.
  intros Hlen Hc Hr. rewrite (nth_error_concat_const _ H).
  - rewrite nth_error_map, nth_error_seq.
    destruct (Nat.ltb_spec c B) as [_|Hge]; [|lia]. cbn.
    apply slice_step_nth. lia.
  - apply Forall_forall. intros l Hin. apply in_map_iff in Hin as (c' & <- & Hc').
    apply in_seq in Hc'. apply slice_step_length; [exact Hlen|lia].
  - exact Hr.
Qed.

Lemma transposed_length (bm : list Z) (H B : nat) :
  List.length bm = (H * B)%nat ->
  List.length (concat (map (fun _col => slice_step bm _col B) (seq 0 B)))
  = (B * H)%nat.
Proof.
  intros Hlen.
  assert (G : forall cols, Forall (fun c => (c < B)%nat) cols ->
            List.length (concat (map (fun _col => slice_step bm _col B) cols))
            = (List.length cols * H)%nat).
  { induction 1 as [|c cols Hc _ IH]; cbn; [reflexivity|].
    rewrite length_app, IH, (slice_step_length bm H B c Hlen Hc). lia. }
  rewrite G, length_seq; [reflexivity|].
  apply Forall_forall. intros c Hc. apply in_seq in Hc. lia.
Qed.

Lemma read_all_Forall2 (fnt ps vs : list Z) :
  Forall2 (fun p v => index fnt p = Ok v) ps vs -> read_all fnt ps = Ok vs.
Proof.
  induction 1 as [|p v ps vs Hpv _ IH]; cbn; [reflexivity|].
  now rewrite Hpv, IH.
Qed.

Lemma index_middle (pre mid post : list Z) (k : nat) (x : Z) :
  nth_error mid k = Some x ->
  index (pre ++ mid ++ post) (Z.of_nat (List.length pre) + Z.of_nat k) = Ok x.
Proof.
  intros Hk. assert (Hlt : (k < List.length mid)%nat)
    by (apply nth_error_Some; congruence).
  unfold index. cbv zeta. rewrite !length_app.
  destruct (Z.of_nat (List.length pre) + Z.of_nat k <? 0) eqn:E0;
    [apply Z.ltb_lt in E0; lia|].
  destruct (_ || _) eqn:E1.
  { apply orb_true_iff in E1 as [E|E];
      [apply Z.ltb_lt in E | apply Z.leb_le in E]; lia. }
  replace (Z.to_nat (Z.of_nat (List.length pre) + Z.of_nat k))
    with (List.length pre + k)%nat by lia.
  rewrite nth_error_app2 by lia.
  replace (List.length pre + k - List.length pre)%nat with k by lia.
  rewrite nth_error_app1 by lia. now rewrite Hk.
Qed.

Lemma Forall2_map_seq {A} (R : Z -> A -> Prop) (P : nat -> Z) (l : list A) :
  forall s,
  (forall c x, nth_error l c = Some x -> R (P (s + c)%nat) x) ->
  Forall2 R (map P (seq s (List.length l))) l.
Proof.
  induction l as [|a l IH]; intros s H; cbn; constructor.
  - specialize (H 0%nat a eq_refl). now rewrite Nat.add_0_r in H.
  - apply IH. intros c x Hc. specialize (H (S c) x Hc).
    now replace (S s + c)%nat with (s + S c)%nat by lia.
Qed.

Lemma Forall2_flat_map {A B C} (R : B -> C -> Prop) (F : A -> list B)
    (G : A -> list C) (l : list A) :
  (forall a, In a l -> Forall2 R (F a) (G a)) ->
  Forall2 R (flat_map F l) (flat_map G l).
Proof.
  induction l as [|a l IH]; intros H; cbn; [constructor|].
  apply Forall2_app; [apply H; now left|].
  apply IH. intros a' Ha'. apply H. now right.
Qed.

Lemma flat_map_map_in {A B C} (f : B -> list C) (g : A -> B) (l : list A) :
  flat_map f (map g l) = flat_map (fun a => f (g a)) l.
Proof. induction l as [|a l IH]; cbn; [reflexivity|]. now rewrite IH. Qed.

(** A byte string of [H] rows of [B] bytes is the concatenation of its rows. *)
Lemma rows_concat (B : nat) :
  forall (H : nat) (bm : list Z),
  List.length bm = (H * B)%nat ->
  flat_map (fun r => firstn B (skipn (r * B) bm)) (seq 0 H) = bm.
Proof.
  induction H as [|H IH]; intros bm Hlen.
  - destruct bm; [reflexivity|discriminate].
  - cbn [seq flat_map]. rewrite <- seq_shift, flat_map_map_in.
    cbn [Nat.mul Nat.add skipn].
    transitivity (firstn B bm ++ skipn B bm); [|apply firstn_skipn]. f_equal.
    rewrite <- (IH (skipn B bm)) by (rewrite length_skipn; lia).
    apply flat_map_ext. intros r.
    now rewrite skipn_skipn, Nat.add_comm.
Qed.

(** The reader's transposition undoes the writer's. *)
Lemma transposition_read_back (pre post bm t : list Z) (width height : Z) :
  0 < height ->
  Z.of_nat (List.length bm) = height * ceildiv width 8 ->
  transposed bm height = Some t ->
  v2_glyph_data (pre ++ t ++ post) height
    {| geWidth := width; geOffset := Z.of_nat (List.length pre) |} = Ok bm.
Proof.
  intros Hh Hlen Ht. unfold transposed in Ht.
  destruct (height =? 0) eqn:E; [apply Z.eqb_eq in E; lia|].
  injection Ht as <-.
  set (bw := ceildiv width 8) in *.
  assert (Hbw : 0 <= bw) by nia.
  assert (Hstep : Z.of_nat (List.length bm) / height = bw).
  { rewrite Hlen, Z.mul_comm. apply Z.div_mul. lia. }
  rewrite Hstep.
  set (H := Z.to_nat height). set (B := Z.to_nat bw).
  assert (HlenN : List.length bm = (H * B)%nat) by (unfold H, B; nia).
  unfold v2_glyph_data. cbn [geWidth geOffset]. fold bw.
  apply read_all_Forall2.
  remember (concat (map (fun _col => slice_step bm _col B) (seq 0 B))) as t eqn:Et.
  rewrite <- (rows_concat B H bm HlenN) at 1.
  unfold range. rewrite !Z.sub_0_r. fold H B.
  rewrite flat_map_map_in.
  apply Forall2_flat_map. intros r Hr. apply in_seq in Hr.
  rewrite map_map.
  assert (Hrow : List.length (firstn B (skipn (r * B) bm)) = B).
  { rewrite length_firstn, length_skipn. nia. }
  rewrite <- Hrow at 1.
  apply Forall2_map_seq. intros c x Hc.
  assert (HcB : (c < B)%nat).
  { rewrite <- Hrow. apply nth_error_Some. congruence. }
  rewrite nth_error_firstn in Hc.
  destruct (Nat.ltb_spec c B) as [_|Hge]; [|lia].
  rewrite nth_error_skipn in Hc.
  replace (Z.of_nat (List.length pre) + (0 + Z.of_nat (0 + c)) * height
           + (0 + Z.of_nat r))
    with (Z.of_nat (List.length pre) + Z.of_nat (c * H + r))
    by (unfold H; nia).
  apply index_middle. rewrite Et, (transposed_nth bm H B c r HlenN HcB); [|lia].
  rewrite <- Hc. f_equal. lia.
Qed.

Lemma accumulate_from_nth (l : list Z) :
  forall acc k, (k <= List.length l)%nat ->
  nth_error (acc :: accumulate_from acc l) k
  = Some (acc + fold_right Z.add 0 (firstn k l)).
Proof.
  induction l as [|x l IH]; intros acc k Hk.
  - destruct k; [|cbn in Hk; lia]. cbn. f_equal. lia.
  - destruct k as [|k]; [cbn; f_equal; lia|].
    cbn [accumulate_from nth_error firstn fold_right].
    rewrite IH by (cbn in Hk; lia). f_equal. lia.
Qed.

Lemma concat_length_sum (ls : list (list Z)) :
  Z.of_nat (List.length (concat ls))
  = fold_right Z.add 0 (map (fun bm => Z.of_nat (List.length bm)) ls).
Proof.
  induction ls as [|l ls IH]; cbn; [reflexivity|].
  rewrite length_app. lia.
Qed.

Lemma bitmaps_of_nth (ord_glyphs : list WGlyph) :
  forall bitmaps k g,
  bitmaps_of ord_glyphs = Some bitmaps ->
  nth_error ord_glyphs k = Some g ->
  exists t, nth_error bitmaps k = Some t
            /\ transposed (w_bytes g) (w_height g) = Some t
            /\ List.length bitmaps = List.length ord_glyphs.
Proof.
  induction ord_glyphs as [|g0 gs IH]; intros bitmaps k g Hb Hk.
  - destruct k; discriminate.
  - cbn in Hb.
    destruct (transposed (w_bytes g0) (w_height g0)) as [t0|] eqn:Ht0;
      [|discriminate].
    destruct (bitmaps_of gs) as [ts|] eqn:Hts; [|discriminate].
    injection Hb as <-. destruct k as [|k]; cbn in Hk.
    + injection Hk as <-. exists t0. cbn. repeat split; auto.
      destruct gs; [cbn in Hts; now injection Hts as <-|].
      f_equal. destruct (IH ts 0%nat w eq_refl eq_refl) as (_ & _ & _ & H). exact H.
    + destruct (IH ts k g eq_refl Hk) as (t & Hn & Ht & Hl).
      exists t. cbn. repeat split; auto.
Qed.

Lemma nth_error_zip {A B} (l1 : list A) (l2 : list B) (k : nat) (a : A) (b : B) :
  nth_error l1 k = Some a -> nth_error l2 k = Some b ->
  nth_error (combine l1 l2) k = Some (a, b).
Proof.
  revert l1 l2. induction k as [|k IH]; intros [|x l1] [|y l2] H1 H2;
    try discriminate; cbn in *.
  - congruence.
  - now apply IH.
Qed.

(** The bitmap of the glyph at place [k] of the writer's table, read
    through an entry that holds the glyph's width and the offset the
    writer computes for it. *)
Lemma bitmap_read_at (head tail : list Z)
    (ord_glyphs : list WGlyph) (bitmaps : list (list Z)) (height : Z)
    (k : nat) (g : WGlyph) :
  0 < height ->
  Forall (fun g => w_height g = height
                   /\ Z.of_nat (List.length (w_bytes g))
                      = height * ceildiv (w_width g) 8) ord_glyphs ->
  bitmaps_of ord_glyphs = Some bitmaps ->
  nth_error ord_glyphs k = Some g ->
  exists off,
    nth_error (combine ord_glyphs (glyph_offsets bitmaps)) k = Some (g, off)
    /\ 0 <= Z.of_nat (List.length head) + off
         <= Z.of_nat (List.length (head ++ concat bitmaps))
    /\ v2_glyph_data (head ++ concat bitmaps ++ tail) height
         {| geWidth := w_width g;
            geOffset := Z.of_nat (List.length head) + off |}
       = Ok (w_bytes g).
Proof.
  intros Hh Hall Hb Hk.
  destruct (bitmaps_of_nth _ _ _ _ Hb Hk) as (t & Hnt & Ht & Hlen).
  rewrite Forall_forall in Hall.
  destruct (Hall g (nth_error_In _ _ Hk)) as [Hgh Hgl].
  assert (Hkl : (k < List.length bitmaps)%nat)
    by (apply nth_error_Some; congruence).
  set (lens := map (fun bm => Z.of_nat (List.length bm)) bitmaps).
  assert (Hoff : nth_error (glyph_offsets bitmaps) k
                 = Some (fold_right Z.add 0 (firstn k lens))).
  { unfold glyph_offsets, accumulate. rewrite accumulate_from_nth.
    - reflexivity.
    - unfold lens. rewrite length_map. lia. }
  assert (Hcomb : nth_error (combine ord_glyphs (glyph_offsets bitmaps)) k
                  = Some (g, fold_right Z.add 0 (firstn k lens))).
  { now apply nth_error_zip. }
  (* the file around the bitmap of the glyph *)
  assert (Hsplit : bitmaps = firstn k bitmaps ++ t :: skipn (S k) bitmaps).
  { clear - Hnt. revert k Hnt. induction bitmaps as [|b bs IH]; intros [|k] Hn;
      try discriminate; cbn in *.
    - congruence.
    - f_equal. now apply IH. }
  assert (Hpre : Z.of_nat (List.length head) + fold_right Z.add 0 (firstn k lens)
                 = Z.of_nat (List.length (head ++ concat (firstn k bitmaps)))).
  { rewrite length_app, Nat2Z.inj_add, concat_length_sum.
    unfold lens. now rewrite firstn_map. }
  exists (fold_right Z.add 0 (firstn k lens)). split; [exact Hcomb|]. split.
  { rewrite Hpre. split; [lia|]. apply inj_le.
    rewrite Hsplit at 2. rewrite concat_app, !length_app. lia. }
  rewrite Hpre.
  replace (head ++ concat bitmaps ++ tail)
    with ((head ++ concat (firstn k bitmaps))
          ++ t ++ (concat (skipn (S k) bitmaps) ++ tail)).
  - apply transposition_read_back; [exact Hh | exact Hgl | now rewrite <- Hgh].
  - rewrite Hsplit at 3. rewrite concat_app. cbn [concat].
    now rewrite <- !app_assoc.
Qed.

(** X15.  The bitmaps of [create_fnt] as [_parse_chartable_v2] reads
    them, for the versions 2.0 and 3.0.  Let the glyphs of the writer's
    table all have the height that is stored as [dfPixHeight], not zero,
    and [as_bytes()] give [height * ceildiv(width, 8)] bytes for each; let
    the bitmaps end before the first offset that [geOffset] cannot hold
    (byte 65536 of the file in version 2.0, where the field is a word, byte
    2^32 in version 3.0) and let the width of the glyph fit the word
    [geWidth].  Then the entry of the glyph in the character table holds
    its width and points at its transposed bitmap among the
    [offset_bitmaps] bytes before the bitmaps and whatever follows them,
    and the reader's transposition gives back the bytes of the glyph. *)
Theorem written_bitmaps_read_back (version : Z) (head tail : list Z)
    (ord_glyphs : list WGlyph) (bitmaps : list (list Z)) (height : Z)
    (k : nat) (g : WGlyph) :
  version = 0x200 \/ version = 0x300 ->
  0 < height ->
  Forall (fun g => w_height g = height
                   /\ Z.of_nat (List.length (w_bytes g))
                      = height * ceildiv (w_width g) 8) ord_glyphs ->
  bitmaps_of ord_glyphs = Some bitmaps ->
  Z.of_nat (List.length (head ++ concat bitmaps)) < 2 ^ geOffset_bits version ->
  nth_error ord_glyphs k = Some g ->
  0 <= w_width g < 2 ^ 16 ->
  exists e,
    nth_error (char_table version (Z.of_nat (List.length head)) ord_glyphs bitmaps) k
    = Some e
    /\ geWidth e = w_width g
    /\ v2_glyph_data (head ++ concat bitmaps ++ tail) height e
       = Ok (w_bytes g).
Proof.
  intros _ Hh Hall Hb Hfit Hk Hw.
  destruct (bitmap_read_at head tail ord_glyphs bitmaps height k g Hh Hall Hb Hk)
    as (off & Hcomb & Hoff & Hread).
  eexists. split.
  { unfold char_table. rewrite nth_error_map, Hcomb. reflexivity. }
  cbn [fst snd]. unfold make_glyph_entry.
  rewrite (Z.mod_small (w_width g)) by exact Hw.
  rewrite (Z.mod_small (Z.of_nat (List.length head) + off)) by lia.
  split; [reflexivity|exact Hread].
Qed.

Lemma written_bitmaps_read_back_witness :
  exists e,
    nth_error (char_table 0x200 20 [two_rows_wide; two_rows_narrow]
                 [[1; 3; 2; 4]; [5; 6]]) 0 = Some e
    /\ geWidth e = 9
    /\ v2_glyph_data sample_file 2 e = Ok [1; 2; 3; 4].
Proof.
  apply (written_bitmaps_read_back 0x200 sample_head [70; 0; 0]
           [two_rows_wide; two_rows_narrow] [[1; 3; 2; 4]; [5; 6]] 2 0
           two_rows_wide).
  - now left.
  - lia.
  - repeat constructor.
  - reflexivity.
  - reflexivity.
  - reflexivity.
  - cbn. lia.
Defined.

End WinFntWriteTheory.

(** ** The font: raster and spacing *)

Module FontRasterTheory.
Import FontProps FontRaster.

Lemma min_over_lower (l : list Z) (d x : Z) : In x l -> min_over l d <= x.
Proof.
  destruct l as [|a l]; [contradiction|]. cbn. intros [<-|Hin].
  - apply fold_min_le.
  - now apply fold_min_lower.
Qed.

Lemma max_over_upper (l : list Z) (d x : Z) : In x l -> x <= max_over l d.
Proof.
  destruct l as [|a l]; [contradiction|]. cbn. intros [<-|Hin].
  - apply fold_max_ge.
  - now apply fold_max_upper.
Qed.

(** X16.  The raster of a font encloses the matrix of each of its glyphs,
    placed by its left bearing and its shift, so that the raster size is
    at least the width and the height of every glyph. *)
Theorem raster_encloses_glyphs (f : Font) (g : Glyph) :
  In g (glyphs f) ->
  left (raster f) <= left_bearing g
  /\ left_bearing g + width g <= right (raster f)
  /\ bottom (raster f) <= shift_up g
  /\ shift_up g + height g <= top (raster f)
  /\ width g <= cx (raster_size f)
  /\ height g <= cy (raster_size f).
Proof.
  intros Hin. unfold raster_size, raster.
  destruct (glyphs f) as [|g0 gs] eqn:Hgs; [contradiction|].
  cbn [left right bottom top cx cy].
  pose proof (min_over_lower (map left_bearing (g0 :: gs)) 0 _
                (in_map left_bearing _ _ Hin)) as H1.
  pose proof (max_over_upper (map (fun g => left_bearing g + width g) (g0 :: gs)) 0 _
                (in_map (fun g => left_bearing g + width g) _ _ Hin)) as H2.
  pose proof (min_over_lower (map shift_up (g0 :: gs)) 0 _
                (in_map shift_up _ _ Hin)) as H3.
  pose proof (max_over_upper (map (fun g => shift_up g + height g) (g0 :: gs)) 0 _
                (in_map (fun g => shift_up g + height g) _ _ Hin)) as H4.
  cbv beta in H2, H4. lia.
Qed.

Lemma raster_encloses_glyphs_witness :
  left (raster cell_font) <= 0
  /\ 0 + 0 <= right (raster cell_font)
  /\ bottom (raster cell_font) <= -2
  /\ -2 + 8 <= top (raster cell_font)
  /\ 0 <= cx (raster_size cell_font)
  /\ 8 <= cy (raster_size cell_font).
Proof.
  apply (raster_encloses_glyphs cell_font space_glyph).
  cbn. tauto.
Defined.

(** X17.  The ink bounds of a font enclose the ink bounds of each glyph that
    has ink, moved by the font's left bearing and shift; the bounding box
    of the font is at least as wide and as high as the ink of each such
    glyph. *)
Theorem ink_bounds_enclose_glyphs (f : Font) (g : Glyph) :
  In g (glyphs f) ->
  cx (bounding_box g) <> 0 -> cy (bounding_box g) <> 0 ->
  left (font_ink_bounds f) <= left_bearing_of f + left (ink_bounds g)
  /\ left_bearing_of f + right (ink_bounds g) <= right (font_ink_bounds f)
  /\ bottom (font_ink_bounds f) <= shift_up_of f + bottom (ink_bounds g)
  /\ shift_up_of f + top (ink_bounds g) <= top (font_ink_bounds f)
  /\ right (ink_bounds g) - left (ink_bounds g) <= cx (font_bounding_box f)
  /\ top (ink_bounds g) - bottom (ink_bounds g) <= cy (font_bounding_box f).
Proof.
  intros Hin Hx Hy. unfold font_bounding_box, font_ink_bounds.
  set (nonempty := filter (fun g => negb (cx (bounding_box g) =? 0)
                                    && negb (cy (bounding_box g) =? 0)) (glyphs f)).
  assert (Hg : In g nonempty).
  { apply filter_In. split; [exact Hin|].
    apply andb_true_intro. split; now apply negb_true_iff, Z.eqb_neq. }
  destruct nonempty as [|g0 gs] eqn:Hne; [contradiction|].
  cbn [left right bottom top cx cy].
  pose proof (min_over_lower (map (fun g => left (ink_bounds g)) (g0 :: gs)) 0 _
                (in_map (fun g => left (ink_bounds g)) _ _ Hg)) as H1.
  pose proof (max_over_upper (map (fun g => right (ink_bounds g)) (g0 :: gs)) 0 _
                (in_map (fun g => right (ink_bounds g)) _ _ Hg)) as H2.
  pose proof (min_over_lower (map (fun g => bottom (ink_bounds g)) (g0 :: gs)) 0 _
                (in_map (fun g => bottom (ink_bounds g)) _ _ Hg)) as H3.
  pose proof (max_over_upper (map (fun g => top (ink_bounds g)) (g0 :: gs)) 0 _
                (in_map (fun g => top (ink_bounds g)) _ _ Hg)) as H4.
  cbv beta in H1, H2, H3, H4. lia.
Qed.

Lemma ink_bounds_enclose_glyphs_witness :
  left (font_ink_bounds cell_font) <= left_bearing_of cell_font + 1
  /\ left_bearing_of cell_font + 7 <= right (font_ink_bounds cell_font)
  /\ bottom (font_ink_bounds cell_font) <= shift_up_of cell_font + 2
  /\ shift_up_of cell_font + 7 <= top (font_ink_bounds cell_font)
  /\ 7 - 1 <= cx (font_bounding_box cell_font)
  /\ 7 - 2 <= cy (font_bounding_box cell_font).
Proof.
  apply (ink_bounds_enclose_glyphs cell_font one_glyph).
  - cbn. tauto.
  - discriminate.
  - discriminate.
Defined.

(** X18.  The pixel size of a font for which neither ascent nor descent is
    set holds the ink of every glyph: it is at least the height of the
    glyph less its padding at the top and at the bottom, whatever the
    shift of the font is. *)
Theorem default_pixel_size_holds_ink (f : Font) (g : Glyph) :
  lookup "ascent" (props f) = None ->
  lookup "descent" (props f) = None ->
  In g (glyphs f) ->
  height g - top (padding g) - bottom (padding g) <= pixel_size f.
Proof.
  intros Ha Hd Hin. unfold pixel_size, ascent, descent, writable_property.
  rewrite Ha, Hd.
  destruct (glyphs f) as [|g0 gs] eqn:Hgs; [contradiction|].
  pose proof (max_over_upper (map (fun g => height g - top (padding g)) (g0 :: gs)) 0 _
                (in_map (fun g => height g - top (padding g)) _ _ Hin)) as H1.
  pose proof (min_over_lower (map (fun g => bottom (padding g)) (g0 :: gs)) 0 _
                (in_map (fun g => bottom (padding g)) _ _ Hin)) as H2.
  cbv beta in H1, H2. lia.
Qed.

Lemma default_pixel_size_holds_ink_witness :
  8 - 1 - 2 <= pixel_size cell_font.
Proof.
  apply (default_pixel_size_holds_ink cell_font one_glyph).
  - reflexivity.
  - reflexivity.
  - cbn. tauto.
Defined.

(** *** Spacing *)

Lemma distinct_one (l : list Z) :
  List.length (distinct l) = 1%nat <->
  exists a, In a l /\ forall x, In x l -> x = a.
Proof.
  unfold distinct. split.
  - intros H. destruct (nodup Z.eq_dec l) as [|a [|b r]] eqn:E; try discriminate.
    exists a. split.
    + apply (nodup_In Z.eq_dec). rewrite E. now left.
    + intros x Hx. apply (proj2 (nodup_In Z.eq_dec l x)) in Hx. rewrite E in Hx.
      destruct Hx as [<-|[]]. reflexivity.
  - intros (a & Ha & Hall).
    pose proof (NoDup_nodup Z.eq_dec l) as Hnd.
    assert (Hin : forall x, In x (nodup Z.eq_dec l) -> x = a).
    { intros x Hx. apply Hall. now apply (proj1 (nodup_In Z.eq_dec l x)) in Hx. }
    apply (proj2 (nodup_In Z.eq_dec l a)) in Ha.
    destruct (nodup Z.eq_dec l) as [|b [|c r]]; [contradiction|reflexivity|].
    exfalso. inversion Hnd as [|? ? Hnot _]; subst. apply Hnot.
    rewrite (Hin b) by now left. rewrite (Hin c) by (right; now left).
    now left.
Qed.

Lemma one_advance_iff (f : Font) :
  List.length
    (distinct (filter (fun a => negb (a =? 0)) (map advance_width (glyphs f))))
  = 1%nat <-> one_advance f.
Proof.
  rewrite distinct_one. unfold one_advance. split.
  - intros (a & Ha & Hall). apply filter_In in Ha as [Ha Hnz].
    apply in_map_iff in Ha as (g & Hg & Hin).
    exists a. split; [|split].
    + apply negb_true_iff, Z.eqb_neq in Hnz. exact Hnz.
    + now exists g.
    + intros g' Hg'. destruct (Z.eq_dec (advance_width g') 0) as [Hz|Hz];
        [now left|right].
      apply Hall. apply filter_In. split; [now apply in_map|].
      now apply negb_true_iff, Z.eqb_neq.
  - intros (a & Hnz & (g & Hin & Hg) & Hall). exists a. split.
    + apply filter_In. split; [rewrite <- Hg; now apply in_map|].
      now apply negb_true_iff, Z.eqb_neq.
    + intros x Hx. apply filter_In in Hx as [Hx Hxz].
      apply negb_true_iff, Z.eqb_neq in Hxz.
      apply in_map_iff in Hx as (g' & <- & Hin').
      destruct (Hall g' Hin') as [H0|H0]; [contradiction|exact H0].
Qed.

Lemma no_negative_iff (f : Font) :
  existsb (fun g => (advance_width g <? 0)
                    || negb (Nat.eqb (List.length (kern_to g)) 0)) (glyphs f)
  = false <-> no_negative_advance_or_kerning f.
Proof.
  unfold no_negative_advance_or_kerning. split.
  - intros H g Hin.
    assert (Hg : (advance_width g <? 0)
                 || negb (Nat.eqb (List.length (kern_to g)) 0) = false).
    { destruct (_ || _) eqn:E; [|reflexivity].
      rewrite <- H. symmetry. apply existsb_exists. now exists g. }
    apply orb_false_iff in Hg as [H1 H2]. apply Z.ltb_ge in H1.
    apply negb_false_iff, Nat.eqb_eq in H2.
    split; [exact H1|]. now destruct (kern_to g).
  - intros H. destruct (existsb _ _) eqn:E; [|reflexivity].
    apply existsb_exists in E as (g & Hin & Hg).
    destruct (H g Hin) as [H1 H2]. rewrite H2 in Hg. cbn in Hg.
    rewrite orb_false_r in Hg. apply Z.ltb_lt in Hg. lia.
Qed.

Lemma ink_contained_iff (f : Font) :
  forallb (fun g => cx (bounding_box g) <=? advance_width g) (glyphs f)
  && (cy (font_bounding_box f) <=? line_height f) = true
  <-> ink_contained f.
Proof.
  unfold ink_contained. rewrite andb_true_iff, forallb_forall, Z.leb_le.
  split; intros [H1 H2]; (split; [|exact H2]); intros g Hg.
  - apply Z.leb_le. now apply H1.
  - apply Z.leb_le. now apply H1.
Qed.

(** X19.  What [spacing] says of a font with glyphs.  It is
    'character-cell' exactly when no glyph has a negative advance or
    kerning, the glyphs that have an advance all have the same, and the
    ink is contained: every glyph's ink is no wider than its advance and
    the font's bounding box is no higher than the line.  It is 'monospace'
    exactly when the first two hold and the ink is not contained. *)
Theorem spacing_of_fixed_pitch (f : Font) :
  glyphs f <> [] ->
  (spacing f = "character-cell"%string
   <-> no_negative_advance_or_kerning f /\ one_advance f /\ ink_contained f)
  /\ (spacing f = "monospace"%string
      <-> no_negative_advance_or_kerning f /\ one_advance f
          /\ ~ ink_contained f).
Proof.
  intros Hne. unfold spacing.
  destruct (glyphs f) as [|g0 gs] eqn:Hgs; [contradiction|].
  rewrite <- Hgs.
  pose proof (no_negative_iff f) as Hneg.
  pose proof (one_advance_iff f) as Hone.
  pose proof (ink_contained_iff f) as Hink.
  destruct (existsb _ (glyphs f)) eqn:E1.
  { split; (split; [discriminate|]); intros (H & _); apply Hneg in H;
      discriminate. }
  assert (Hn : no_negative_advance_or_kerning f) by now apply Hneg.
  cbv zeta.
  set (advances := distinct (filter (fun a => negb (a =? 0))
                                    (map advance_width (glyphs f)))) in *.
  rewrite (andb_comm (forallb _ _)) in *.
  rewrite (andb_comm (cy _ <=? _)) in *.
  destruct (forallb _ (glyphs f) && (cy (font_bounding_box f) <=? line_height f))
    eqn:E2.
  - assert (Hi : ink_contained f) by now apply Hink.
    destruct (Nat.eqb (List.length advances) 1) eqn:E3; cbn [andb].
    + apply Nat.eqb_eq in E3. apply Hone in E3.
      split; split; try tauto; try discriminate.
    + assert (Hno : ~ one_advance f).
      { intros H. apply Hone in H. apply Nat.eqb_neq in E3. contradiction. }
      destruct (Nat.eqb (List.length advances) 2);
        split; split; try discriminate; tauto.
  - assert (Hi : ~ ink_contained f).
    { intros H. apply Hink in H. discriminate. }
    cbn [andb].
    destruct (Nat.eqb (List.length advances) 1) eqn:E3.
    + apply Nat.eqb_eq in E3. apply Hone in E3.
      split; split; try tauto; try discriminate.
    + assert (Hno : ~ one_advance f).
      { intros H. apply Hone in H. apply Nat.eqb_neq in E3. contradiction. }
      split; split; try discriminate; tauto.
Qed.

Lemma spacing_of_fixed_pitch_witness :
  (spacing cell_font = "character-cell"%string
   <-> no_negative_advance_or_kerning cell_font /\ one_advance cell_font
       /\ ink_contained cell_font)
  /\ (spacing cell_font = "monospace"%string
      <-> no_negative_advance_or_kerning cell_font /\ one_advance cell_font
          /\ ~ ink_contained cell_font).
Proof.
  apply (spacing_of_fixed_pitch cell_font). discriminate.
Defined.

End FontRasterTheory.

(** ** The font: the table of codepoints *)

Module CodepointTable.
Import Py WinFnt FontTable.

Lemma last_wins_step (pre : list Glyph) (d : list (Z * nat)) (g : Glyph) :
  last_wins pre d ->
  last_wins (pre ++ [g])
    (match codepoint g with
     | Some cp => dict_set d cp (List.length pre)
     | None => d
     end).
Proof.
  intros Hinv c. specialize (Hinv c).
  assert (Hold : forall i,
             dict_get d c = Some i -> codepoint g <> Some c ->
             exists g0, nth_error (pre ++ [g]) i = Some g0 /\ codepoint g0 = Some c
               /\ forall j g', (i < j)%nat -> nth_error (pre ++ [g]) j = Some g' ->
                               codepoint g' <> Some c).
  { intros i Hi Hg. rewrite Hi in Hinv. destruct Hinv as (g0 & Hn & Hc & Hlater).
    assert (Hlt : (i < List.length pre)%nat) by (apply nth_error_Some; congruence).
    exists g0. split; [now rewrite nth_error_app1|]. split; [exact Hc|].
    intros j g' Hj Hnj.
    destruct (Nat.lt_ge_cases j (List.length pre)) as [Hjl|Hjl].
    - rewrite nth_error_app1 in Hnj by exact Hjl. eapply Hlater; eauto.
    - rewrite nth_error_app2 in Hnj by exact Hjl.
      destruct (j - List.length pre)%nat as [|n]; cbn in Hnj.
      + injection Hnj as <-. exact Hg.
      + now destruct n. }
  assert (Hnone : dict_get d c = None -> codepoint g <> Some c ->
                  forall g0, In g0 (pre ++ [g]) -> codepoint g0 <> Some c).
  { intros Hn Hg g0 Hin. rewrite Hn in Hinv.
    apply in_app_or in Hin as [Hin|[<-|[]]]; [now apply Hinv|exact Hg]. }
  destruct (codepoint g) as [cp|] eqn:Hcp.
  - rewrite WinFntTheory.dict_get_set. destruct (cp =? c) eqn:E.
    + apply Z.eqb_eq in E. subst cp. exists g. split; [|split; [exact Hcp|]].
      * rewrite nth_error_app2 by lia. now rewrite Nat.sub_diag.
      * intros j g' Hj Hnj. exfalso.
        assert (j < List.length (pre ++ [g]))%nat
          by (apply nth_error_Some; congruence).
        rewrite length_app in H. cbn in H. lia.
    + apply Z.eqb_neq in E.
      assert (Hg : Some cp <> Some c) by congruence.
      destruct (dict_get d c) as [i|] eqn:Hd.
      * now apply Hold.
      * now apply Hnone.
  - destruct (dict_get d c) as [i|] eqn:Hd.
    + apply Hold; [reflexivity|discriminate].
    + apply Hnone; [reflexivity|discriminate].
Qed.

Lemma last_wins_build (gs : list Glyph) :
  forall pre d,
  last_wins pre d ->
  last_wins (pre ++ gs) (build_codepoints gs (List.length pre) d).
Proof.
  induction gs as [|g gs IH]; intros pre d Hinv.
  - rewrite app_nil_r. exact Hinv.
  - cbn [build_codepoints].
    replace (pre ++ g :: gs) with ((pre ++ [g]) ++ gs)
      by (rewrite <- app_assoc; reflexivity).
    replace (S (List.length pre)) with (List.length (pre ++ [g]))
      by (rewrite length_app; cbn; lia).
    apply IH. now apply last_wins_step.
Qed.

Lemma dict_set_NoDup (d : list (Z * nat)) (k : Z) (v : nat) :
  NoDup (map fst d) -> NoDup (map fst (dict_set d k v)).
Proof.
  induction d as [|[k0 v0] d IH]; intros Hnd; cbn.
  - constructor; [intros []|constructor].
  - inversion Hnd as [|? ? Hnot Hrest]; subst.
    destruct (k0 =? k) eqn:E; cbn; [exact Hnd|].
    constructor; [|now apply IH].
    intros Hin. apply WinFntTheory.dict_set_keys in Hin as [->|Hin].
    + rewrite Z.eqb_refl in E. discriminate.
    + contradiction.
Qed.

Lemma build_codepoints_NoDup (gs : list Glyph) :
  forall i d, NoDup (map fst d) -> NoDup (map fst (build_codepoints gs i d)).
Proof.
  induction gs as [|g gs IH]; intros i d Hnd; cbn; [exact Hnd|].
  apply IH. destruct (codepoint g); [now apply dict_set_NoDup|exact Hnd].
Qed.

(** X20.  The table [_codepoints] that [Font.__init__] builds and
    [get_codepoints] lists (the property is about the table, not about the
    look-up methods of the font).  No codepoint is listed twice; the table
    has an entry for a codepoint exactly when a glyph has it, and the entry
    is then the index of the last glyph with the codepoint: a later glyph
    shadows an earlier one with the same codepoint. *)
Theorem codepoint_lookup_is_last (gs : list Glyph) (c : Z) :
  NoDup (get_codepoints gs)
  /\ match dict_get (_codepoints gs) c with
     | Some i =>
       exists g, nth_error gs i = Some g /\ codepoint g = Some c
                 /\ forall j g', (i < j)%nat -> nth_error gs j = Some g' ->
                                 codepoint g' <> Some c
     | None => forall g, In g gs -> codepoint g <> Some c
     end.
Proof.
  split.
  - unfold get_codepoints, _codepoints. apply build_codepoints_NoDup. constructor.
  - assert (H0 : last_wins [] []) by (intros c' g []).
    exact (last_wins_build gs [] [] H0 c).
Qed.

Lemma codepoint_lookup_is_last_witness :
  NoDup (get_codepoints [glyph_A; glyph_300; glyph_A])
  /\ match dict_get (_codepoints [glyph_A; glyph_300; glyph_A]) 65 with
     | Some i =>
       exists g, nth_error [glyph_A; glyph_300; glyph_A] i = Some g
                 /\ codepoint g = Some 65
                 /\ forall j g', (i < j)%nat ->
                                 nth_error [glyph_A; glyph_300; glyph_A] j = Some g' ->
                                 codepoint g' <> Some 65
     | None => forall g, In g [glyph_A; glyph_300; glyph_A] -> codepoint g <> Some 65
     end.
Proof. exact (codepoint_lookup_is_last [glyph_A; glyph_300; glyph_A] 65). Defined.

End CodepointTable.

(** ** OS/2 LX: the EXEPACK2 unpacker *)

Module LX2Theory.
Import Py LX2.

(** *** [_copy_byte_seq] *)

Lemma index_from_end (target : list Z) (k : nat) :
  (1 <= k <= List.length target)%nat ->
  exists b, index target (- Z.of_nat k) = Ok b
            /\ nth_error target (List.length target - k) = Some b.
Proof.
  intros Hk. unfold index. cbv zeta.
  destruct (- Z.of_nat k <? 0) eqn:E; [|apply Z.ltb_ge in E; lia].
  destruct (_ || _) eqn:E1.
  { apply orb_true_iff in E1 as [H|H];
      [apply Z.ltb_lt in H | apply Z.leb_le in H]; lia. }
  replace (Z.to_nat (- Z.of_nat k + Z.of_nat (List.length target)))
    with (List.length target - k)%nat by lia.
  destruct (nth_error target (List.length target - k)) as [b|] eqn:Hn.
  - now exists b.
  - apply nth_error_None in Hn. lia.
Qed.

Lemma copy_loop_back (k : nat) :
  forall count target,
  (1 <= k <= List.length target)%nat ->
  exists out,
    copy_loop target (- Z.of_nat k) count = Ok out
    /\ List.length out = (List.length target + count)%nat
    /\ firstn (List.length target) out = target
    /\ forall i, (List.length target <= i < List.length out)%nat ->
                 nth_error out i = nth_error out (i - k).
Proof.
  induction count as [|count IH]; intros target Hk.
  - exists target. cbn. split; [reflexivity|]. split; [lia|].
    split; [apply firstn_all|]. intros i Hi. lia.
  - destruct (index_from_end target k Hk) as (b & Hb & Hnth).
    destruct (IH (target ++ [b])) as (out & Hout & Hlen & Hpre & Hper).
    { rewrite length_app. cbn. lia. }
    exists out. cbn [copy_loop]. rewrite Hb. cbn [bind].
    rewrite length_app in *. cbn [List.length] in *.
    split; [exact Hout|]. split; [lia|].
    assert (Hpre' : forall i, (i < List.length target + 1)%nat ->
                              nth_error out i = nth_error (target ++ [b]) i).
    { intros i Hi. rewrite <- Hpre. rewrite nth_error_firstn.
      destruct (Nat.ltb_spec i (List.length target + 1)); [reflexivity|lia]. }
    split.
    + apply nth_error_ext. intros i.
      rewrite nth_error_firstn.
      destruct (Nat.ltb_spec i (List.length target)) as [Hi|Hi].
      * rewrite Hpre' by lia. now rewrite nth_error_app1.
      * symmetry. apply nth_error_None. lia.
    + intros i Hi.
      destruct (Nat.eq_dec i (List.length target)) as [->|Hne].
      * rewrite !Hpre' by lia.
        rewrite nth_error_app2, Nat.sub_diag by lia. cbn.
        rewrite nth_error_app1 by lia. now rewrite Hnth.
      * apply Hper. lia.
Qed.

(** X21.  [_copy_byte_seq] with a reference of [distance] bytes back into
    a target that has at least that many bytes: it returns the target
    followed by [count] bytes, each of them the byte [distance] places
    before it, also when the source runs into the bytes just written. *)
Theorem copy_byte_seq_back_reference (target : list Z) (distance count : Z) :
  1 <= distance <= Z.of_nat (List.length target) -> 0 <= count ->
  exists out,
    _copy_byte_seq target (- distance) count = Ok out
    /\ List.length out = (List.length target + Z.to_nat count)%nat
    /\ firstn (List.length target) out = target
    /\ forall i, (List.length target <= i < List.length out)%nat ->
                 nth_error out i = nth_error out (i - Z.to_nat distance).
Proof.
  intros Hd Hc. unfold _copy_byte_seq.
  pose proof (copy_loop_back (Z.to_nat distance) (Z.to_nat count) target
                ltac:(lia)) as H.
  rewrite Z2Nat.id in H by lia. exact H.
Qed.

Lemma copy_byte_seq_back_reference_witness :
  exists out,
    _copy_byte_seq [97; 98] (- 2) 5 = Ok out
    /\ List.length out = (2 + Z.to_nat 5)%nat
    /\ firstn 2 out = [97; 98]
    /\ forall i, (2 <= i < List.length out)%nat ->
                 nth_error out i = nth_error out (i - Z.to_nat 2).
Proof.
  apply (copy_byte_seq_back_reference [97; 98] 2 5); cbn; lia.
Defined.

Lemma copy_loop_first (b : Z) (t : list Z) :
  forall count done,
  copy_loop ((b :: t) ++ done) 0 count = Ok ((b :: t) ++ done ++ repeat b count).
Proof.
  induction count as [|count IH]; intros done; cbn [copy_loop repeat].
  - now rewrite app_nil_r.
  - assert (Hi : index ((b :: t) ++ done) 0 = Ok b).
    { unfold index. cbv zeta. cbn [Z.ltb Z.compare].
      destruct (_ || _) eqn:E; [|reflexivity].
      apply orb_true_iff in E as [E|E]; [discriminate|].
      apply Z.leb_le in E. cbn [List.length app] in E. lia. }
    rewrite Hi. cbn [bind].
    rewrite <- app_assoc. rewrite (IH (done ++ [b])).
    rewrite <- !app_assoc. cbn [app]. reflexivity.
Qed.

(** X22.  The edges of [_copy_byte_seq].  A reference of distance zero
    does not read the byte being written: [target[-0]] is the first byte of
    the target, which is repeated.  A reference further back than the
    target is long raises [IndexError] if a byte is asked for; and a count
    that is not positive leaves the target as it is. *)
Theorem copy_byte_seq_edges (target : list Z) (distance count : Z) :
  (forall b t, target = b :: t -> distance = 0 ->
     _copy_byte_seq target (- distance) count
     = Ok (target ++ repeat b (Z.to_nat count)))
  /\ (Z.of_nat (List.length target) < distance -> 0 < count ->
      _copy_byte_seq target (- distance) count = Raise IndexError)
  /\ (count <= 0 -> _copy_byte_seq target (- distance) count = Ok target).
Proof.
  unfold _copy_byte_seq. split; [|split].
  - intros b t -> ->. cbn [Z.opp].
    pose proof (copy_loop_first b t (Z.to_nat count) []) as H.
    rewrite !app_nil_r in H. cbn [app] in *. exact H.
  - intros Hd Hc. destruct (Z.to_nat count) as [|c] eqn:Ec; [lia|].
    cbn [copy_loop]. unfold index. cbv zeta.
    destruct (- distance <? 0) eqn:E; [|apply Z.ltb_ge in E; lia].
    destruct (_ || _) eqn:E1; [reflexivity|].
    apply orb_false_iff in E1 as [H _]. apply Z.ltb_ge in H. lia.
  - intros Hc. replace (Z.to_nat count) with 0%nat by lia. reflexivity.
Qed.

Lemma copy_byte_seq_edges_witness :
  _copy_byte_seq [7; 8] (- 0) 3 = Ok ([7; 8] ++ repeat 7 (Z.to_nat 3))
  /\ _copy_byte_seq [7; 8] (- 5) 3 = Raise IndexError
  /\ _copy_byte_seq [7; 8] (- 1) 0 = Ok [7; 8].
Proof.
  split; [|split].
  - apply (proj1 (copy_byte_seq_edges [7; 8] 0 3) 7 [8]); reflexivity.
  - apply (proj1 (proj2 (copy_byte_seq_edges [7; 8] 5 3))); cbn; lia.
  - apply (proj2 (proj2 (copy_byte_seq_edges [7; 8] 1 0))). lia.
Defined.

Lemma copy_loop_returns (offset : Z) :
  forall count target, copy_loop target offset count <> OutOfFuel.
Proof.
  induction count as [|count IH]; intros target; cbn; [discriminate|].
  pose proof (index_returns target offset) as Hi.
  destruct (index target offset); cbn [bind]; [apply IH|discriminate|contradiction].
Qed.

(** *** [_lx_unpack2] *)

Section Unpack2.

Variable uint16_from_bytes : list Z -> Z -> result Z.
Variable uint32_from_bytes : list Z -> Z -> result Z.

Lemma land_nonneg_r (a b : Z) : 0 <= b -> 0 <= Z.land a b.
Proof. intros Hb. apply Z.land_nonneg. now right. Qed.

(** A record that does not end the page moves [ofIn] forward. *)
Lemma unpack2_record_advances (pBuf : list Z) (ofIn : Z) (abOut : list Z) :
  (forall buf i, uint16_from_bytes buf i <> OutOfFuel) ->
  (forall buf i, uint32_from_bytes buf i <> OutOfFuel) ->
  unpack2_record uint16_from_bytes uint32_from_bytes pBuf ofIn abOut <> OutOfFuel
  /\ forall ofIn' abOut',
       unpack2_record uint16_from_bytes uint32_from_bytes pBuf ofIn abOut = Ok (Some (ofIn', abOut')) ->
       ofIn < ofIn'.
Proof.
  intros H16 H32. unfold unpack2_record.
  pose proof (H16 pBuf ofIn) as Hu.
  destruct (uint16_from_bytes pBuf ofIn) as [c| |]; cbn [bind];
    [|split; [discriminate|intros; discriminate]|contradiction].
  destruct (Z.land c 3 =? 0).
  { destruct (Z.land c 255 =? 0).
    - destruct (Z.shiftr c 8 =? 0); [split; [discriminate|intros; discriminate]|].
      pose proof (index_returns pBuf (ofIn + 2)) as Hi.
      destruct (index pBuf (ofIn + 2)); cbn [bind];
        [|split; [discriminate|intros; discriminate]|contradiction].
      split; [discriminate|]. intros o' a' [= <- _]. lia.
    - split; [discriminate|]. intros o' a' [= <- _].
      assert (0 <= Z.shiftr (Z.land c 255) 2).
      { apply Z.shiftr_nonneg. now apply land_nonneg_r. }
      lia. }
  unfold _copy_byte_seq.
  destruct (Z.land c 3 =? 1).
  { match goal with
    | |- context [copy_loop ?t ?o ?n] =>
      pose proof (copy_loop_returns o n t) as Hc;
      destruct (copy_loop t o n); cbn [bind];
        [|split; [discriminate|intros; discriminate]|contradiction]
    end.
    split; [discriminate|]. intros o' a' [= <- _].
    assert (0 <= Z.land (Z.shiftr c 2) 3) by (apply land_nonneg_r; lia).
    lia. }
  destruct (Z.land c 3 =? 2).
  { match goal with
    | |- context [copy_loop ?t ?o ?n] =>
      pose proof (copy_loop_returns o n t) as Hc;
      destruct (copy_loop t o n); cbn [bind];
        [|split; [discriminate|intros; discriminate]|contradiction]
    end.
    split; [discriminate|]. intros o' a' [= <- _]. lia. }
  pose proof (H32 pBuf ofIn) as Hv.
  destruct (uint32_from_bytes pBuf ofIn) as [c'| |]; cbn [bind];
    [|split; [discriminate|intros; discriminate]|contradiction].
  match goal with
  | |- context [copy_loop ?t ?o ?n] =>
    pose proof (copy_loop_returns o n t) as Hc;
    destruct (copy_loop t o n); cbn [bind];
      [|split; [discriminate|intros; discriminate]|contradiction]
  end.
  split; [discriminate|]. intros o' a' [= <- _].
  assert (0 <= Z.land (Z.shiftr c' 2) 15) by (apply land_nonneg_r; lia).
  lia.
Qed.

Lemma unpack2_loop_returns (pBuf : list Z) (cbPage : Z) :
  (forall buf i, uint16_from_bytes buf i <> OutOfFuel) ->
  (forall buf i, uint32_from_bytes buf i <> OutOfFuel) ->
  forall fuel ofIn abOut,
  (Z.to_nat (cbPage - ofIn) < fuel)%nat ->
  unpack2_loop uint16_from_bytes uint32_from_bytes fuel pBuf cbPage ofIn abOut <> OutOfFuel.
Proof.
  intros H16 H32. induction fuel as [|fuel IH]; intros ofIn abOut Hf; [lia|].
  cbn [unpack2_loop].
  destruct (unpack2_record_advances pBuf ofIn abOut H16 H32) as [Hr Hadv].
  destruct (unpack2_record uint16_from_bytes uint32_from_bytes pBuf ofIn abOut) as [[[o a]|]| |]; cbn [bind];
    try discriminate; [|contradiction].
  specialize (Hadv o a eq_refl).
  destruct (o >=? cbPage) eqn:E; [discriminate|].
  rewrite Z.geb_leb in E. apply Z.leb_gt in E.
  apply IH. lia.
Qed.

(** X23.  [_lx_unpack2] comes to an end on every page: each record that
    does not end the page moves the read position forward by at least one
    byte, so that the loop makes at most one turn per byte of the page
    (provided the two readings of [le.uint16] and [le.uint32] return or
    raise). *)
Theorem unpack2_terminates (pBuf : list Z) :
  (forall buf i, uint16_from_bytes buf i <> OutOfFuel) ->
  (forall buf i, uint32_from_bytes buf i <> OutOfFuel) ->
  _lx_unpack2 uint16_from_bytes uint32_from_bytes pBuf <> OutOfFuel.
Proof.
  intros H16 H32. unfold _lx_unpack2.
  destruct (_ >? 4096); [discriminate|].
  apply unpack2_loop_returns; [exact H16|exact H32|lia].
Qed.

(** *** Pages of literal blocks, runs and back references *)

Lemma slice_middle (pre mid post : list Z) :
  slice (pre ++ mid ++ post) (Z.of_nat (List.length pre))
        (Z.of_nat (List.length pre) + Z.of_nat (List.length mid)) = mid.
Proof.
  unfold slice, clamp. rewrite !length_app.
  destruct (Z.of_nat (List.length pre) <? 0) eqn:E1; [apply Z.ltb_lt in E1; lia|].
  destruct (Z.of_nat (List.length pre) + Z.of_nat (List.length mid) <? 0) eqn:E2;
    [apply Z.ltb_lt in E2; lia|].
  rewrite !Z.min_l by lia.
  replace (Z.to_nat (Z.of_nat (List.length pre) + Z.of_nat (List.length mid)
                     - Z.of_nat (List.length pre)))
    with (List.length mid) by lia.
  rewrite Nat2Z.id, skipn_app, skipn_all, Nat.sub_diag. cbn [skipn app].
  rewrite firstn_app, firstn_all, Nat.sub_diag. cbn. apply app_nil_r.
Qed.

Lemma index_after (pre post : list Z) (k : nat) (x : Z) :
  nth_error post k = Some x ->
  index (pre ++ post) (Z.of_nat (List.length pre) + Z.of_nat k) = Ok x.
Proof.
  intros Hk. assert (Hlt : (k < List.length post)%nat)
    by (apply nth_error_Some; congruence).
  unfold index. cbv zeta. rewrite length_app.
  destruct (Z.of_nat (List.length pre) + Z.of_nat k <? 0) eqn:E0;
    [apply Z.ltb_lt in E0; lia|].
  destruct (_ || _) eqn:E1.
  { apply orb_true_iff in E1 as [E|E];
      [apply Z.ltb_lt in E | apply Z.leb_le in E]; lia. }
  replace (Z.to_nat (Z.of_nat (List.length pre) + Z.of_nat k))
    with (List.length pre + k)%nat by lia.
  rewrite nth_error_app2 by lia.
  replace (List.length pre + k - List.length pre)%nat with k by lia.
  now rewrite Hk.
Qed.

Lemma land_low (c : Z) :
  Z.land c 3 = c mod 4 /\ Z.land c 255 = c mod 256.
Proof.
  change 3 with (Z.ones 2). change 255 with (Z.ones 8).
  rewrite !Z.land_ones by lia. split; reflexivity.
Qed.

Lemma field_2 (c : Z) : Z.land (Z.shiftr c 2) 3 = (c / 4) mod 4.
Proof.
  change 3 with (Z.ones 2).
  rewrite Z.land_ones, Z.shiftr_div_pow2 by lia. reflexivity.
Qed.

Lemma field_4 (c : Z) : Z.land (Z.shiftr c 4) 4095 = (c / 16) mod 4096.
Proof.
  change 4095 with (Z.ones 12).
  rewrite Z.land_ones, Z.shiftr_div_pow2 by lia. reflexivity.
Qed.

Hypothesis uint16_le :
  forall pre b0 b1 post,
    uint16_from_bytes (pre ++ b0 :: b1 :: post) (Z.of_nat (List.length pre))
    = Ok (b0 + 256 * b1).

Ltac same_position :=
  match goal with
  | |- Ok (Some (?a, _)) = Ok (Some (?b, _)) => replace b with a; [reflexivity|]
  end.

(** What the unpacker makes of one record at the read position. *)
Lemma unpack2_record_expands (pre rest : list Z) (r : record) (out out' : list Z) :
  well_formed r -> expand out r = Ok out' ->
  unpack2_record uint16_from_bytes uint32_from_bytes
    (pre ++ encode r ++ rest) (Z.of_nat (List.length pre)) out
  = Ok (Some (Z.of_nat (List.length (pre ++ encode r)), out')).
Proof.
  intros Hwf Hex. unfold unpack2_record.
  destruct r as [data|n b|distance len]; cbn [encode well_formed expand] in *.
  - (* block copy *)
    destruct data as [|d0 data]; [cbn in Hwf; lia|].
    cbn [app]. rewrite uint16_le. cbn [bind].
    set (n := Z.of_nat (List.length (d0 :: data))) in *.
    assert (Hn : 1 <= n <= 63) by (unfold n; lia).
    destruct (land_low (4 * n + 256 * d0)) as [-> ->].
    assert (H4 : (4 * n + 256 * d0) mod 4 = 0)
      by (Z.div_mod_to_equations; lia).
    assert (H256 : (4 * n + 256 * d0) mod 256 = 4 * n)
      by (Z.div_mod_to_equations; lia).
    rewrite H4, H256. cbn [Z.eqb].
    destruct (4 * n =? 0) eqn:E; [apply Z.eqb_eq in E; lia|].
    rewrite Z.shiftr_div_pow2 by lia. change (2 ^ 2) with 4.
    replace (4 * n / 4) with n by (Z.div_mod_to_equations; lia).
    injection Hex as <-.
    pose proof (slice_middle (pre ++ [4 * n]) (d0 :: data) rest) as Hs.
    rewrite <- app_assoc in Hs. cbn [app] in Hs.
    rewrite length_app in Hs. cbn [List.length] in Hs.
    replace (Z.of_nat (List.length pre + 1)) with (Z.of_nat (List.length pre) + 1)
      in Hs by lia.
    change (Z.of_nat (S (List.length data))) with n in Hs. rewrite Hs.
    same_position. unfold n. rewrite length_app. cbn [List.length]. lia.
  - (* fill *)
    cbn [app]. rewrite uint16_le. cbn [bind].
    destruct (land_low (0 + 256 * n)) as [-> ->].
    assert (H4 : (0 + 256 * n) mod 4 = 0)
      by (Z.div_mod_to_equations; lia).
    assert (H256 : (0 + 256 * n) mod 256 = 0)
      by (Z.div_mod_to_equations; lia).
    rewrite H4, H256. cbn [Z.eqb].
    rewrite Z.shiftr_div_pow2 by lia. change (2 ^ 8) with 256.
    replace ((0 + 256 * n) / 256) with n by (Z.div_mod_to_equations; lia).
    destruct (n =? 0) eqn:E; [apply Z.eqb_eq in E; lia|].
    pose proof (index_after pre (0 :: n :: b :: rest) 2 b eq_refl) as Hi.
    change (Z.of_nat 2) with 2 in Hi. rewrite Hi. cbn [bind].
    injection Hex as <-. same_position. rewrite length_app. cbn [List.length]. lia.
  - (* back reference *)
    destruct Hwf as [Hd Hl].
    set (c := 2 + 4 * (len - 3) + 16 * distance) in *.
    cbn [app]. rewrite uint16_le. cbn [bind].
    assert (Hc : c mod 256 + 256 * (c / 256) = c)
      by (Z.div_mod_to_equations; lia).
    rewrite Hc.
    destruct (land_low c) as [-> _].
    assert (H4 : c mod 4 = 2)
      by (unfold c; Z.div_mod_to_equations; lia).
    rewrite H4. cbn [Z.eqb Pos.eqb].
    rewrite field_2, field_4.
    assert (Hlen : (c / 4) mod 4 + 3 = len)
      by (unfold c; Z.div_mod_to_equations; lia).
    assert (Hdist : (c / 16) mod 4096 = distance)
      by (unfold c; Z.div_mod_to_equations; lia).
    rewrite Hlen, Hdist, Hex. cbn [bind].
    same_position. rewrite length_app. cbn [List.length]. lia.
Qed.

Lemma encode_length (r : record) :
  well_formed r -> (2 <= List.length (encode r))%nat.
Proof. destruct r; cbn; lia. Qed.

Lemma unpack2_loop_expands (rs : list record) :
  forall pre out out' fuel,
  Forall well_formed rs ->
  expand_all out rs = Ok out' ->
  (List.length rs < fuel)%nat ->
  unpack2_loop uint16_from_bytes uint32_from_bytes fuel (pre ++ page_of rs)
    (Z.of_nat (List.length (pre ++ page_of rs))) (Z.of_nat (List.length pre)) out
  = Ok out'.
Proof.
  induction rs as [|r rs IH]; intros pre out out' fuel Hwf Hex Hfuel.
  - destruct fuel as [|fuel]; [cbn in Hfuel; lia|].
    cbn in Hex. injection Hex as <-.
    cbn [unpack2_loop page_of flat_map app]. unfold unpack2_record.
    rewrite uint16_le. reflexivity.
  - destruct fuel as [|fuel]; [cbn in Hfuel; lia|].
    inversion Hwf as [|? ? Hr Hrs]; subst.
    cbn [expand_all] in Hex.
    destruct (expand out r) as [mid| |] eqn:Hmid; cbn [bind] in Hex;
      try discriminate.
    cbn [unpack2_loop]. unfold page_of. cbn [flat_map].
    rewrite <- (app_assoc (encode r)).
    rewrite (unpack2_record_expands pre _ r out mid Hr Hmid). cbn [bind].
    fold (page_of rs).
    destruct (_ >=? _) eqn:E.
    { rewrite Z.geb_leb in E. apply Z.leb_le in E.
      rewrite !length_app in E. unfold page_of in E.
      rewrite length_app in E. cbn [List.length] in E. lia. }
    rewrite (app_assoc pre (encode r)).
    apply IH; [exact Hrs|exact Hex|cbn in Hfuel; lia].
Qed.

Lemma page_length (rs : list record) :
  Forall well_formed rs -> (List.length rs < List.length (page_of rs))%nat.
Proof.
  unfold page_of. induction 1 as [|r rs Hr _ IH]; cbn [flat_map].
  - cbn. lia.
  - pose proof (encode_length r Hr). rewrite !length_app in *.
    cbn [List.length] in *. lia.
Qed.

(** X24.  [_lx_unpack2] on a page made of blocks of literal bytes, runs
    of a byte and references back, followed by the end record (with
    [le.uint16] reading two bytes as a little-endian number): if the bytes
    these records stand for are [out], each reference being resolved by
    [_copy_byte_seq] in what was unpacked before it, the unpacker returns
    [out]. *)
Theorem unpack2_expands_records (rs : list record) (out : list Z) :
  Forall well_formed rs ->
  (List.length (page_of rs) <= 4096)%nat ->
  expand_all [] rs = Ok out ->
  _lx_unpack2 uint16_from_bytes uint32_from_bytes (page_of rs) = Ok out.
Proof.
  intros Hwf Hlen Hex. unfold _lx_unpack2.
  destruct (_ >? 4096) eqn:E; [apply Z.gtb_lt in E; lia|].
  apply (unpack2_loop_expands rs [] [] out _ Hwf Hex).
  pose proof (page_length rs Hwf). lia.
Qed.

End Unpack2.

Lemma le_bytes_returns (n : nat) (buf : list Z) (i : Z) :
  le_bytes n buf i <> OutOfFuel.
Proof.
  unfold le_bytes. destruct (_ || _); [discriminate|].
  revert i. induction n as [|n IH]; intros i; cbn; [discriminate|].
  pose proof (index_returns buf i) as Hi.
  destruct (index buf i); cbn [bind]; [|discriminate|contradiction].
  specialize (IH (i + 1)).
  destruct (WinFnt.le_uint n buf (i + 1)); cbn [bind];
    [discriminate|discriminate|contradiction].
Qed.

Lemma le_bytes_two (pre : list Z) (b0 b1 : Z) (post : list Z) :
  le_bytes 2 (pre ++ b0 :: b1 :: post) (Z.of_nat (List.length pre))
  = Ok (b0 + 256 * b1).
Proof.
  unfold le_bytes. rewrite length_app. cbn [List.length].
  destruct (_ || _) eqn:E.
  { apply orb_true_iff in E as [E|E]; apply Z.ltb_lt in E; lia. }
  cbn [WinFnt.le_uint].
  pose proof (index_after pre (b0 :: b1 :: post) 0 b0 eq_refl) as H0.
  pose proof (index_after pre (b0 :: b1 :: post) 1 b1 eq_refl) as H1.
  rewrite Z.add_0_r in H0. change (Z.of_nat 1) with 1 in H1.
  rewrite H0, H1. cbn [bind]. f_equal. lia.
Qed.

Lemma unpack2_terminates_witness :
  _lx_unpack2 (le_bytes 2) (le_bytes 4) [4; 97; 33] <> OutOfFuel.
Proof.
  apply (unpack2_terminates (le_bytes 2) (le_bytes 4) [4; 97; 33]).
  - apply le_bytes_returns.
  - apply le_bytes_returns.
Defined.

Lemma unpack2_expands_records_witness :
  _lx_unpack2 (le_bytes 2) (le_bytes 4) (page_of sample_records)
  = Ok [97; 98; 120; 120; 120; 120; 120; 120; 120].
Proof.
  apply (unpack2_expands_records (le_bytes 2) (le_bytes 4) le_bytes_two
           sample_records).
  - repeat constructor; cbn; lia.
  - cbn. lia.
  - reflexivity.
Defined.

End LX2Theory.

(** ** Apple IIgs font files: the headers before the FontRec *)

Module IIgsTheory.
Import Py IIgs.

Lemma slice_backwards (l : list Z) (a b : Z) :
  0 <= b <= a -> slice l a b = [].
Proof.
  intros H. unfold slice, clamp.
  destruct (a <? 0) eqn:Ea; [apply Z.ltb_lt in Ea; lia|].
  destruct (b <? 0) eqn:Eb; [apply Z.ltb_lt in Eb; lia|].
  replace (Z.to_nat (Z.min b (Z.of_nat (List.length l))
                     - Z.min a (Z.of_nat (List.length l)))) with 0%nat by lia.
  reflexivity.
Qed.

Section Load.

Variable uint16_from_bytes : list Z -> Z -> result Z.

Hypothesis uint16_le :
  forall pre b0 b1 post,
    uint16_from_bytes (pre ++ b0 :: b1 :: post) (Z.of_nat (List.length pre))
    = Ok (b0 + 256 * b1).

Lemma read_le16 (pre : list Z) (v : Z) (post : list Z) :
  uint16_from_bytes (pre ++ le16 v ++ post) (Z.of_nat (List.length pre)) = Ok v.
Proof.
  unfold le16. cbn [app]. rewrite uint16_le. f_equal.
  Z.div_mod_to_equations. lia.
Qed.

(** X25.  The head of an IIgs font file as [_save_iigs] writes it and
    [_load_iigs] reads it.  The reader takes the FontRec to start 12 bytes
    after the name and finds no extended header, whatever the file holds
    there: the slice it takes for the extended header ends at byte 12 of
    the file and is empty.  So it reads the FontRec where the writer put it
    exactly when [owt_loc] fits 16 bits; for a larger offset the writer
    puts the extended header, and the FontRec two bytes further. *)
Theorem iigs_head_read_back (name : list Z)
    (family style pointSize fbrExtent owt_loc : Z) (rest : list Z) :
  (List.length name <= 255)%nat ->
  let head := _save_iigs_head name family style pointSize fbrExtent owt_loc in
  _load_iigs_head uint16_from_bytes (head ++ rest)
  = Ok (Z.of_nat (List.length name) + 13, 0)
  /\ (Z.of_nat (List.length head) = Z.of_nat (List.length name) + 13
      <-> owt_loc <= 0xffff).
Proof.
  intros Hname head. split.
  - set (v := if 0xffff <? owt_loc then 0x0105 else 0x0101).
    set (extra := if 0xffff <? owt_loc then le16 (Z.shiftr owt_loc 16) else []).
    set (n := Z.of_nat (List.length name)).
    remember (head ++ rest) as data eqn:Hdata.
    assert (E1 : data = (n :: name) ++ le16 6
                        ++ (le16 family ++ le16 style ++ le16 pointSize
                            ++ le16 v ++ le16 fbrExtent) ++ extra ++ rest).
    { rewrite Hdata. unfold head, _save_iigs_head, header_bytes.
      cbn [h_offset IIgs.family IIgs.style IIgs.pointSize IIgs.version
           IIgs.fbrExtent].
      fold v extra n. change (_IIGS_HEADER_size / 2) with 6.
      rewrite <- !app_assoc. reflexivity. }
    assert (E2 : data = ((n :: name) ++ le16 6 ++ le16 family ++ le16 style
                         ++ le16 pointSize)
                        ++ le16 v ++ le16 fbrExtent ++ extra ++ rest).
    { rewrite E1. rewrite <- !app_assoc. reflexivity. }
    assert (H0 : index data 0 = Ok n).
    { rewrite E1. unfold index. cbv zeta. cbn [Z.ltb Z.compare].
      destruct (_ || _) eqn:E; [|reflexivity].
      apply orb_true_iff in E as [E|E]; [discriminate|].
      apply Z.leb_le in E. cbn [List.length app] in E. lia. }
    assert (H1 : uint16_from_bytes data (n + 1) = Ok 6).
    { rewrite E1.
      replace (n + 1) with (Z.of_nat (List.length (n :: name)))
        by (cbn [List.length]; unfold n; lia).
      apply read_le16. }
    assert (H2 : uint16_from_bytes data (n + 1 + 8) = Ok v).
    { rewrite E2.
      replace (n + 1 + 8)
        with (Z.of_nat (List.length ((n :: name) ++ le16 6 ++ le16 family
                                     ++ le16 style ++ le16 pointSize)))
        by (rewrite !length_app; cbn [List.length le16]; unfold n; lia).
      apply read_le16. }
    unfold _load_iigs_head. rewrite H0. cbn [bind]. rewrite H1, H2. cbn [bind].
    rewrite slice_backwards by (unfold _IIGS_HEADER_size, n; lia).
    cbn [List.length Z.of_nat Z.leb Z.compare].
    rewrite andb_false_r. cbn [bind]. do 2 f_equal. lia.
  - unfold head, _save_iigs_head, header_bytes.
    rewrite !length_app. cbn [List.length le16].
    destruct (0xffff <? owt_loc) eqn:E;
      [apply Z.ltb_lt in E | apply Z.ltb_ge in E];
      unfold le16; cbn [List.length]; lia.
Qed.

End Load.

Lemma iigs_head_read_back_witness :
  _load_iigs_head (LX2.le_bytes 2) (_save_iigs_head [70; 111] 0 0 8 8 70000 ++ [1; 2; 3; 4])
  = Ok (2 + 13, 0)
  /\ (Z.of_nat (List.length (_save_iigs_head [70; 111] 0 0 8 8 70000)) = 2 + 13
      <-> 70000 <= 0xffff).
Proof.
  apply (iigs_head_read_back (LX2.le_bytes 2) LX2Theory.le_bytes_two
           [70; 111] 0 0 8 8 70000 [1; 2; 3; 4]).
  cbn. lia.
Defined.

End IIgsTheory.
